(** * pipe_base: quantum-graph traversal, dataset-type resolution,
      and the visualization merge, layout and status passes.

    Shallow embedding of
      - python/lsst/pipe/base/graph.py
      - python/lsst/pipe/base/pipeline_graph/_dataset_types.py
      - python/lsst/pipe/base/pipeline_graph/visualization/_merge.py
      - python/lsst/pipe/base/pipeline_graph/visualization/_layout.py
      - python/lsst/pipe/base/pipeline_graph/visualization/_status.py

    Python dicts whose iteration order matters are association lists in
    insertion order; dicts used as maps are [gmap]s; (frozen)sets are [gset]s
    or duplicate-free lists; raised exceptions are the [Raise] branch of
    [result]. *)

From Stdlib Require Import ZArith Lia.
From stdpp Require Import gmap strings list fin_maps fin_sets sorting.

Set Default Proof Using "Type".
#[global] Set Warnings "-clear-no-such-hyp".
Open Scope Z_scope.
Open Scope string_scope.
Open Scope list_scope.

(** ** Results of fallible code *)

Inductive result (E A : Type) : Type :=
| Ok (a : A)
| Raise (e : E).
Arguments Ok {E A} a.
Arguments Raise {E A} e.

Definition rbind {E A B} (r : result E A) (k : A → result E B) : result E B :=
  match r with
  | Ok a => k a
  | Raise e => Raise e
  end.

Notation "'let?' x := r 'in' k" := (rbind r (λ x, k))
  (at level 10, x pattern, r at level 100, k at level 200).

Definition is_Ok {E A} (r : result E A) : Prop :=
  match r with Ok _ => True | Raise _ => False end.

(** A Python [for] loop whose body may raise: the state is threaded through
    the iterations and the first exception aborts the loop. *)
Fixpoint for_each {E S X} (body : S → X → result E S) (xs : list X) (s : S)
  : result E S :=
  match xs with
  | [] => Ok s
  | x :: xs' => let? s' := body s x in for_each body xs' s'
  end.

Lemma for_each_app {E S X} (body : S → X → result E S) xs ys s :
  for_each body (xs ++ ys) s
  = (let? s' := for_each body xs s in for_each body ys s').
Proof.
  revert s. induction xs as [|x xs IH]; intros s; simpl; [done|].
  destruct (body s x); simpl; [apply IH|done].
Qed.

Lemma for_each_preserves {E S X} (P : S → Prop) (body : S → X → result E S) xs :
  (∀ s x s', P s → body s x = Ok s' → P s') →
  ∀ s s', P s → for_each body xs s = Ok s' → P s'.
Proof.
  intros Hbody. induction xs as [|x xs IH]; intros s s' Hs; simpl.
  - by intros [= <-].
  - destruct (body s x) as [s1|] eqn:Hb; [|done]. simpl. apply IH. eauto.
Qed.

(** In a dict, a key has one value. *)
Lemma NoDup_fst_unique {A B} (l : list (A * B)) x y1 y2 :
  NoDup l.*1 → (x, y1) ∈ l → (x, y2) ∈ l → y1 = y2.
Proof.
  induction l as [|[a b] l IH]; simpl; [by intros _ ?%elem_of_nil|].
  intros [Ha Hnd]%NoDup_cons [H1|H1]%elem_of_cons [H2|H2]%elem_of_cons.
  - congruence.
  - injection H1 as -> ->. destruct Ha. apply list_elem_of_fmap.
    by exists (a, y2).
  - injection H2 as -> ->. destruct Ha. apply list_elem_of_fmap.
    by exists (a, y1).
  - by apply IH.
Qed.

(** ** Node identity ([_nodes.py]: [NodeType], [NodeKey]) *)

Inductive NodeType : Set := DATASET_TYPE | TASK_INIT | TASK.

#[global] Instance NodeType_eq_dec : EqDecision NodeType.
Proof. solve_decision. Defined.

#[global] Instance NodeType_countable : Countable NodeType.
Proof.
  refine (inj_countable'
            (λ t, match t with DATASET_TYPE => 0%nat | TASK_INIT => 1%nat | TASK => 2%nat end)
            (λ n, match n with 0%nat => DATASET_TYPE | 1%nat => TASK_INIT | _ => TASK end) _).
  by intros [].
Defined.

(** [NodeKey] is a named tuple [(node_type, name)], compared by value. *)
Abbreviation NodeKey := (NodeType * string)%type.

(** * Status annotation ([visualization/_status.py]) *)

Module Status.

(** The fields of [qpg.Summary] that [__call__] reads. *)
Record TaskSummary := {
  ts_n_expected : Z;
  ts_n_successful : Z;
  ts_n_failed : Z;
  ts_n_blocked : Z;
  ts_n_wonky : Z;
}.

Record DatasetTypeSummary := {
  ds_n_expected : Z;
  ds_n_visible : Z;
  ds_n_shadowed : Z;
}.

(** [Summary.tasks] and [Summary.datasets] are dicts; they are iterated
    with [.items()], so they are kept in iteration order. *)
Record Summary := {
  tasks : list (string * TaskSummary);
  datasets : list (string * DatasetTypeSummary);
}.

Record TaskStatusInfo := {
  expected : Z;
  succeded : Z;
  failed : Z;
  blocked : Z;
  ready : option Z;
  running : option Z;
  wonky : option Z;
}.

Record DatasetTypeStatusInfo := {
  d_expected : Z;
  d_produced : Z;
}.

(** Values stored in a node's attribute dict. *)
Inductive AttrValue :=
| TaskStatus (i : TaskStatusInfo)
| DatasetStatus (i : DatasetTypeStatusInfo)
| OtherAttr (s : string).

(** The part of a networkx graph the annotator touches: the per-node
    attribute dicts ([xgraph.nodes]); edges are kept to show they are left
    alone. *)
Record XGraph := {
  nodes : gmap NodeKey (gmap string AttrValue);
  edges : gset (NodeKey * NodeKey);
}.

Inductive Exc :=
| KeyError (k : NodeKey)
| UnboundLocalError (name : string).

(** [xgraph.nodes[key]["status"] = v] *)
Definition set_status (g : XGraph) (key : NodeKey) (v : AttrValue)
  : result Exc XGraph :=
  match nodes g !! key with
  | None => Raise (KeyError key)
  | Some state =>
      Ok {| nodes := <[key := <["status" := v]> state]> (nodes g);
            edges := edges g |}
  end.

Definition task_status_info (s : TaskSummary) : TaskStatusInfo :=
  {| expected := ts_n_expected s;
     succeded := ts_n_successful s;
     failed := ts_n_failed s;
     blocked := ts_n_blocked s;
     ready := None;
     running := None;
     wonky := Some (ts_n_wonky s) |}.

Definition dataset_type_status_info (s : DatasetTypeSummary)
  : DatasetTypeStatusInfo :=
  {| d_expected := ds_n_expected s;
     d_produced := ds_n_visible s + ds_n_shadowed s |}.

(** Body of the first loop: one task of the summary. *)
Definition annotate_task (g : XGraph) (item : string * TaskSummary)
  : result Exc XGraph :=
  set_status g (TASK, item.1) (TaskStatus (task_status_info item.2)).

(** The second loop only rebinds its two loop variables and
    [dataset_type_status_info]; what is left after it are the bindings of
    the last iteration, or no binding when [datasets] is empty. *)
Definition dataset_loop (ds : list (string * DatasetTypeSummary))
  : option (string * DatasetTypeStatusInfo) :=
  foldl (λ _ item, Some (item.1, dataset_type_status_info item.2)) None ds.

(** [QuantumProvenanceGraphStatusAnnotator.__call__] *)
Definition call (qpg_summary : Summary) (xgraph : XGraph) (dataset_types : bool)
  : result Exc XGraph :=
  let? g := for_each annotate_task (tasks qpg_summary) xgraph in
  if dataset_types then
    match dataset_loop (datasets qpg_summary) with
    | None => Raise (UnboundLocalError "dataset_type_name")
    | Some (dataset_type_name, info) =>
        set_status g (DATASET_TYPE, dataset_type_name) (DatasetStatus info)
    end
  else Ok g.

(** What "the node has status [v]" means. *)
Definition status_of (g : XGraph) (key : NodeKey) : option AttrValue :=
  nodes g !! key ≫= λ state, state !! "status".

Lemma dataset_loop_last ds name s :
  dataset_loop (ds ++ [(name, s)]) = Some (name, dataset_type_status_info s).
Proof. unfold dataset_loop. by rewrite foldl_app. Qed.

Lemma set_status_dom g key v g' :
  set_status g key v = Ok g' → dom (nodes g') = dom (nodes g).
Proof.
  unfold set_status. destruct (nodes g !! key) as [st|] eqn:E; [|done].
  intros [= <-]. simpl. rewrite dom_insert_L.
  apply elem_of_dom_2 in E. by apply subseteq_union_1_L, singleton_subseteq_l.
Qed.

Lemma set_status_other g key v g' k :
  set_status g key v = Ok g' → k ≠ key → nodes g' !! k = nodes g !! k.
Proof.
  unfold set_status. destruct (nodes g !! key); [|done].
  intros [= <-] Hne. simpl. by rewrite lookup_insert_ne.
Qed.

Lemma set_status_same g key v g' :
  set_status g key v = Ok g' → status_of g' key = Some v.
Proof.
  unfold set_status, status_of. destruct (nodes g !! key); [|done].
  intros [= <-]. simpl. rewrite lookup_insert_eq. simpl.
  by rewrite lookup_insert_eq.
Qed.

Lemma set_status_edges g key v g' :
  set_status g key v = Ok g' → edges g' = edges g.
Proof.
  unfold set_status. destruct (nodes g !! key); [|done]. by intros [= <-].
Qed.

Lemma set_status_ok g key v :
  key ∈ dom (nodes g) → is_Ok (set_status g key v).
Proof.
  intros [st E]%elem_of_dom. unfold set_status. by rewrite E.
Qed.

(** The task loop: succeeds when every task of the summary is a node of
    the graph, touches only [TASK] keys, and leaves each listed task with
    its own status record. *)
Lemma task_loop_spec ts : ∀ g,
  NoDup ts.*1 →
  (∀ label, label ∈ ts.*1 → (TASK, label) ∈ dom (nodes g)) →
  ∃ g', for_each annotate_task ts g = Ok g'
    ∧ dom (nodes g') = dom (nodes g)
    ∧ edges g' = edges g
    ∧ (∀ k, k.1 ≠ TASK → nodes g' !! k = nodes g !! k)
    ∧ (∀ k, k.2 ∉ ts.*1 → nodes g' !! k = nodes g !! k)
    ∧ (∀ label s, (label, s) ∈ ts →
         status_of g' (TASK, label) = Some (TaskStatus (task_status_info s))).
Proof.
  induction ts as [|[label s] ts IH]; intros g Hnd Hin; simpl.
  - exists g. repeat split; try done. intros ?? H. by apply elem_of_nil in H.
  - apply NoDup_cons in Hnd as [Hfresh Hnd]. simpl in Hfresh.
    unfold annotate_task at 1. simpl.
    destruct (set_status g (TASK, label) (TaskStatus (task_status_info s)))
      as [g1|e] eqn:E1.
    2:{ pose proof (set_status_ok g (TASK, label)
                      (TaskStatus (task_status_info s))) as Hok.
        rewrite E1 in Hok. destruct Hok. apply Hin. simpl. left. }
    simpl.
    destruct (IH g1 Hnd) as (g' & Hrun & Hdom & Hed & Hty & Hnm & Hst).
    { intros l Hl. rewrite (set_status_dom _ _ _ _ E1). apply Hin.
      simpl. by right. }
    exists g'. split; [done|].
    split; [by rewrite Hdom, (set_status_dom _ _ _ _ E1)|].
    split; [by rewrite Hed, (set_status_edges _ _ _ _ E1)|].
    split.
    { intros k Hk. rewrite Hty by done.
      apply (set_status_other _ _ _ _ _ E1). intros ->. by apply Hk. }
    split.
    { intros k Hk. simpl in Hk. apply not_elem_of_cons in Hk as [Hk1 Hk2].
      rewrite Hnm by done. apply (set_status_other _ _ _ _ _ E1).
      intros ->. by apply Hk1. }
    intros l s' [[= -> ->]|Hl]%elem_of_cons.
    + unfold status_of. rewrite Hnm.
      * apply (set_status_same _ _ _ _ E1).
      * done.
    + by apply Hst.
Qed.

(** C10. With [dataset_types=True] and a summary with at least one dataset
    type (the last one iterated being [last]), on a graph that has a node
    for every task of the summary and for that last dataset type, the call
    returns normally; afterwards every task node named in the summary
    carries its status record, the node of the dataset type iterated last
    carries that dataset type's status record, and the node of every other
    dataset type of the summary is exactly as it was before the call: it
    received no status annotation. *)
Theorem call_annotates_only_last_dataset_type
    (tsk : list (string * TaskSummary))
    (ds : list (string * DatasetTypeSummary))
    (last : string * DatasetTypeSummary) (g : XGraph) :
  NoDup tsk.*1 →
  (∀ label, label ∈ tsk.*1 → (TASK, label) ∈ dom (nodes g)) →
  (DATASET_TYPE, last.1) ∈ dom (nodes g) →
  ∃ g',
    call {| tasks := tsk; datasets := ds ++ [last] |} g true = Ok g'
    ∧ (∀ label s, (label, s) ∈ tsk →
         status_of g' (TASK, label) = Some (TaskStatus (task_status_info s)))
    ∧ status_of g' (DATASET_TYPE, last.1)
      = Some (DatasetStatus (dataset_type_status_info last.2))
    ∧ (∀ name, name ∈ ds.*1 → name ≠ last.1 →
         nodes g' !! (DATASET_TYPE, name) = nodes g !! (DATASET_TYPE, name)).
Proof.
  intros Hnd Hin Hlast. destruct last as [lname lsum]. simpl in *.
  destruct (task_loop_spec tsk g Hnd Hin)
    as (g1 & Hrun & Hdom & Hed & Hty & Hnm & Hst).
  unfold call. simpl. rewrite Hrun. simpl. rewrite dataset_loop_last.
  destruct (set_status g1 (DATASET_TYPE, lname)
              (DatasetStatus (dataset_type_status_info lsum)))
    as [g2|e] eqn:E2.
  2:{ pose proof (set_status_ok g1 (DATASET_TYPE, lname)
                    (DatasetStatus (dataset_type_status_info lsum))) as Hok.
      rewrite E2 in Hok. destruct Hok. by rewrite Hdom. }
  exists g2. split; [done|]. split.
  { intros label s Hls. unfold status_of.
    rewrite (set_status_other _ _ _ _ (TASK, label) E2) by done.
    by apply Hst. }
  split; [apply (set_status_same _ _ _ _ E2)|].
  intros name _ Hne.
  rewrite (set_status_other _ _ _ _ (DATASET_TYPE, name) E2) by congruence.
  by apply Hty.
Qed.

(** A concrete run: two tasks and three dataset types; only the node of
    the last dataset type, [c], is annotated. *)
Definition demo_summary_tasks : list (string * TaskSummary) :=
  [("isr", Build_TaskSummary 4 3 1 0 0); ("calibrate", Build_TaskSummary 4 2 0 2 0)].

Definition demo_summary_datasets : list (string * DatasetTypeSummary) :=
  [("a", Build_DatasetTypeSummary 4 4 0); ("b", Build_DatasetTypeSummary 4 3 1)].

Definition demo_last : string * DatasetTypeSummary :=
  ("c", Build_DatasetTypeSummary 4 2 0).

Definition demo_graph : XGraph :=
  {| nodes := list_to_map
       [((TASK, "isr"), ∅); ((TASK, "calibrate"), ∅);
        ((DATASET_TYPE, "a"), ∅); ((DATASET_TYPE, "b"), ∅);
        ((DATASET_TYPE, "c"), ∅)];
     edges := ∅ |}.

Lemma call_annotates_only_last_dataset_type_witness :
  ∃ g',
    call {| tasks := demo_summary_tasks;
            datasets := demo_summary_datasets ++ [demo_last] |}
         demo_graph true = Ok g'
    ∧ (∀ label s, (label, s) ∈ demo_summary_tasks →
         status_of g' (TASK, label) = Some (TaskStatus (task_status_info s)))
    ∧ status_of g' (DATASET_TYPE, demo_last.1)
      = Some (DatasetStatus (dataset_type_status_info demo_last.2))
    ∧ (∀ name, name ∈ demo_summary_datasets.*1 → name ≠ demo_last.1 →
         nodes g' !! (DATASET_TYPE, name)
         = nodes demo_graph !! (DATASET_TYPE, name)).
Proof.
  apply (call_annotates_only_last_dataset_type
           demo_summary_tasks demo_summary_datasets demo_last demo_graph).
  - apply (bool_decide_unpack _). by vm_compute.
  - intros label Hl. apply elem_of_dom. vm_compute in Hl.
    repeat (apply elem_of_cons in Hl as [->|Hl]; [by vm_compute; eauto|]).
    by apply elem_of_nil in Hl.
  - apply elem_of_dom. by vm_compute; eauto.
Defined.

(** The "a" and "b" nodes of the run above indeed carry no status. *)
Example demo_run_unannotated :
  ∃ g', call {| tasks := demo_summary_tasks;
                datasets := demo_summary_datasets ++ [demo_last] |}
             demo_graph true = Ok g'
        ∧ status_of g' (DATASET_TYPE, "a") = None
        ∧ status_of g' (DATASET_TYPE, "b") = None
        ∧ status_of g' (DATASET_TYPE, "c")
          = Some (DatasetStatus {| d_expected := 4; d_produced := 2 |}).
Proof. eexists. split; [by vm_compute|]. by vm_compute. Qed.

(** With an empty [datasets] dict the trailing assignment reads loop
    variables that were never bound. *)
Example call_no_datasets g :
  call {| tasks := []; datasets := [] |} g true
  = Raise (UnboundLocalError "dataset_type_name").
Proof. reflexivity. Qed.

(** ** What the call leaves alone, and how it fails *)

(** [g'] has the nodes and edges of [g], and each node has the attributes
    it had in [g], ["status"] apart. *)
Definition same_but_status (g g' : XGraph) : Prop :=
  dom (nodes g') = dom (nodes g)
  ∧ edges g' = edges g
  ∧ ∀ k st', nodes g' !! k = Some st' →
      ∃ st, nodes g !! k = Some st
            ∧ ∀ a, a ≠ "status" → st' !! a = st !! a.

Lemma same_but_status_refl g : same_but_status g g.
Proof. repeat split. intros k st' Hk. eauto. Qed.

Lemma set_status_same_but_status g0 g key v g' :
  same_but_status g0 g → set_status g key v = Ok g' → same_but_status g0 g'.
Proof.
  intros (Hdom & Hed & Hattr) Hset. split; [|split].
  - by rewrite (set_status_dom _ _ _ _ Hset).
  - by rewrite (set_status_edges _ _ _ _ Hset).
  - intros k st' Hk. revert Hset Hk. unfold set_status.
    destruct (nodes g !! key) as [st1|] eqn:E; [|done]. intros [= <-]. simpl.
    destruct (decide (k = key)) as [->|Hne].
    + rewrite lookup_insert_eq. intros [= <-].
      destruct (Hattr key st1 E) as (st & Hst & Hsame).
      exists st. split; [done|]. intros a Ha.
      rewrite lookup_insert_ne by done. by apply Hsame.
    + rewrite lookup_insert_ne by done. apply Hattr.
Qed.

(** The task loop goes through when the tasks are nodes of the graph. *)
Lemma task_loop_ok ts : ∀ g,
  (∀ label, label ∈ ts.*1 → (TASK, label) ∈ dom (nodes g)) →
  ∃ g', for_each annotate_task ts g = Ok g' ∧ dom (nodes g') = dom (nodes g).
Proof.
  induction ts as [|[label s] ts IH]; intros g Hin; simpl; [by exists g|].
  unfold annotate_task at 1. simpl.
  destruct (set_status g (TASK, label) (TaskStatus (task_status_info s)))
    as [g1|e] eqn:E1.
  2:{ pose proof (set_status_ok g (TASK, label)
                    (TaskStatus (task_status_info s))) as Hok.
      rewrite E1 in Hok. destruct Hok. apply Hin. simpl. left. }
  simpl. destruct (IH g1) as (g' & Hrun & Hdom).
  { intros l Hl. rewrite (set_status_dom _ _ _ _ E1). apply Hin. simpl. by right. }
  exists g'. split; [done|]. by rewrite Hdom, (set_status_dom _ _ _ _ E1).
Qed.

Lemma set_status_missing g key v :
  key ∉ dom (nodes g) → set_status g key v = Raise (KeyError key).
Proof. intros Hk%not_elem_of_dom. unfold set_status. by rewrite Hk. Qed.

(** X1. A call that returns has added and removed no node and no edge, and
    has changed no attribute of any node other than ["status"]. *)
Theorem call_changes_only_status qpg_summary g dataset_types g' :
  call qpg_summary g dataset_types = Ok g' →
  dom (nodes g') = dom (nodes g)
  ∧ edges g' = edges g
  ∧ ∀ k st', nodes g' !! k = Some st' →
      ∃ st, nodes g !! k = Some st
            ∧ ∀ a, a ≠ "status" → st' !! a = st !! a.
Proof.
  unfold call.
  destruct (for_each annotate_task (tasks qpg_summary) g) as [g1|] eqn:E1;
    [|done]. simpl.
  assert (same_but_status g g1) as H1.
  { revert E1. apply (for_each_preserves (same_but_status g));
      [|apply same_but_status_refl].
    intros s x s' Hs. by apply set_status_same_but_status. }
  destruct dataset_types; [|by intros [= <-]].
  destruct (dataset_loop (datasets qpg_summary)) as [[name info]|]; [|done].
  by apply set_status_same_but_status.
Qed.

(** X2. With [dataset_types=False] and every task of the summary a node of
    the graph, the call returns; each listed task node has its attributes
    with ["status"] set to the task's record, and every other node, the
    dataset-type nodes among them, is as it was. *)
Theorem call_tasks_only tsk ds g :
  NoDup tsk.*1 →
  (∀ label, label ∈ tsk.*1 → (TASK, label) ∈ dom (nodes g)) →
  ∃ g',
    call {| tasks := tsk; datasets := ds |} g false = Ok g'
    ∧ (∀ label s, (label, s) ∈ tsk →
         status_of g' (TASK, label) = Some (TaskStatus (task_status_info s)))
    ∧ (∀ k, k.1 ≠ TASK ∨ k.2 ∉ tsk.*1 → nodes g' !! k = nodes g !! k).
Proof.
  intros Hnd Hin.
  destruct (task_loop_spec tsk g Hnd Hin)
    as (g1 & Hrun & _ & _ & Hty & Hnm & Hst).
  exists g1. unfold call. simpl. rewrite Hrun. simpl.
  split; [done|]. split; [done|]. intros k [Hk|Hk]; eauto.
Qed.

(** X3. The first task of the summary that is not a node of the graph
    ends the call with [KeyError] for its key, whatever [dataset_types]
    is and whatever follows in the summary. *)
Theorem call_missing_task pre label s post ds g dataset_types :
  (∀ l, l ∈ pre.*1 → (TASK, l) ∈ dom (nodes g)) →
  (TASK, label) ∉ dom (nodes g) →
  call {| tasks := pre ++ (label, s) :: post; datasets := ds |} g dataset_types
  = Raise (KeyError (TASK, label)).
Proof.
  intros Hpre Hmiss. unfold call. simpl. rewrite for_each_app.
  destruct (task_loop_ok pre g Hpre) as (g1 & -> & Hdom). simpl.
  unfold annotate_task at 1. simpl.
  rewrite set_status_missing; [done|]. by rewrite Hdom.
Qed.

(** X4. With [dataset_types=True] the assignment after the dataset loop
    needs the loop to have run: for a summary without dataset types it
    raises [UnboundLocalError], and otherwise [KeyError] when the dataset
    type iterated last is not a node of the graph (the other dataset types
    are not looked up at all). *)
Theorem call_dataset_assignment_errors tsk ds last g :
  (∀ label, label ∈ tsk.*1 → (TASK, label) ∈ dom (nodes g)) →
  (DATASET_TYPE, last.1) ∉ dom (nodes g) →
  call {| tasks := tsk; datasets := [] |} g true
  = Raise (UnboundLocalError "dataset_type_name")
  ∧ call {| tasks := tsk; datasets := ds ++ [last] |} g true
    = Raise (KeyError (DATASET_TYPE, last.1)).
Proof.
  intros Hin Hmiss. destruct (task_loop_ok tsk g Hin) as (g1 & Hrun & Hdom).
  unfold call. simpl. rewrite Hrun. simpl. split; [done|].
  destruct last as [lname lsum]. rewrite dataset_loop_last. simpl.
  apply set_status_missing. by rewrite Hdom.
Qed.

(** The graph [demo_graph] after the call of the concrete run. *)
Definition demo_annotated : XGraph :=
  {| nodes := list_to_map
       [((TASK, "isr"),
         {[ "status" := TaskStatus (task_status_info (Build_TaskSummary 4 3 1 0 0)) ]});
        ((TASK, "calibrate"),
         {[ "status" := TaskStatus (task_status_info (Build_TaskSummary 4 2 0 2 0)) ]});
        ((DATASET_TYPE, "a"), ∅); ((DATASET_TYPE, "b"), ∅);
        ((DATASET_TYPE, "c"),
         {[ "status" := DatasetStatus {| d_expected := 4; d_produced := 2 |} ]})];
     edges := ∅ |}.

Lemma call_changes_only_status_witness :
  dom (nodes demo_annotated) = dom (nodes demo_graph)
  ∧ edges demo_annotated = edges demo_graph
  ∧ ∀ k st', nodes demo_annotated !! k = Some st' →
      ∃ st, nodes demo_graph !! k = Some st
            ∧ ∀ a, a ≠ "status" → st' !! a = st !! a.
Proof.
  apply (call_changes_only_status
           {| tasks := demo_summary_tasks;
              datasets := demo_summary_datasets ++ [demo_last] |}
           demo_graph true demo_annotated).
  reflexivity.
Defined.

Lemma demo_tasks_in_graph label :
  label ∈ demo_summary_tasks.*1 → (TASK, label) ∈ dom (nodes demo_graph).
Proof.
  intros Hl. apply elem_of_dom. simpl in Hl.
  repeat (apply elem_of_cons in Hl as [->|Hl]; [by eexists|]).
  by apply elem_of_nil in Hl.
Qed.

Lemma call_tasks_only_witness :
  ∃ g',
    call {| tasks := demo_summary_tasks; datasets := demo_summary_datasets |}
      demo_graph false = Ok g'
    ∧ (∀ label s, (label, s) ∈ demo_summary_tasks →
         status_of g' (TASK, label) = Some (TaskStatus (task_status_info s)))
    ∧ (∀ k, k.1 ≠ TASK ∨ k.2 ∉ demo_summary_tasks.*1 →
            nodes g' !! k = nodes demo_graph !! k).
Proof.
  apply (call_tasks_only demo_summary_tasks demo_summary_datasets demo_graph).
  - apply (bool_decide_unpack _). by vm_compute.
  - exact demo_tasks_in_graph.
Defined.

Lemma call_missing_task_witness :
  call {| tasks := demo_summary_tasks ++ ("characterize", Build_TaskSummary 1 1 0 0 0)
                     :: [("deblend", Build_TaskSummary 1 0 1 0 0)];
          datasets := demo_summary_datasets |} demo_graph false
  = Raise (KeyError (TASK, "characterize")).
Proof.
  apply (call_missing_task demo_summary_tasks "characterize"
           (Build_TaskSummary 1 1 0 0 0) [("deblend", Build_TaskSummary 1 0 1 0 0)]
           demo_summary_datasets demo_graph false).
  - exact demo_tasks_in_graph.
  - apply not_elem_of_dom. reflexivity.
Defined.

Lemma call_dataset_assignment_errors_witness :
  call {| tasks := demo_summary_tasks; datasets := [] |} demo_graph true
  = Raise (UnboundLocalError "dataset_type_name")
  ∧ call {| tasks := demo_summary_tasks;
            datasets := demo_summary_datasets
                        ++ [("d", Build_DatasetTypeSummary 1 1 0)] |}
      demo_graph true
    = Raise (KeyError (DATASET_TYPE, "d")).
Proof.
  apply (call_dataset_assignment_errors demo_summary_tasks demo_summary_datasets
           ("d", Build_DatasetTypeSummary 1 1 0) demo_graph).
  - exact demo_tasks_in_graph.
  - apply not_elem_of_dom. reflexivity.
Defined.

End Status.

(** * Dataset-type node resolution ([pipeline_graph/_dataset_types.py]) *)

Module DatasetTypes.

(** ** Edge records

    [ReadEdge] and [WriteEdge] are declared in [_edges.py]; the fields are
    those of the data model. *)
Record WriteEdge := {
  w_task_label : string;
  w_dataset_type_name : string;
  w_storage_class_name : string;
  w_dimensions : list string;
}.

Record ReadEdge := {
  r_task_label : string;
  r_dataset_type_name : string;
  r_storage_class_name : string;
  r_dimensions : list string;
  r_component : option string;
  r_is_prerequisite : bool;
  r_defer_query_constraint : bool;
  r_manual_load : bool;
}.

(** Pieces of an f-string: literal text and [{value!r}] fields. *)
Inductive Piece :=
| Lit (s : string)
| Repr (s : string).

Section resolver.

(** [lsst.daf.butler.DatasetType] and the dimension universe are outside
    this package; dataset types are compared with [==]. *)
Context {DatasetType Universe : Type} `{EqDecision DatasetType}.

(** Errors other than the two raised by [_from_edges] itself come from
    the edges' [_resolve_dataset_type]. *)
Context {EdgeError : Type}.

Inductive Exc :=
| DuplicateOutputError (message : list Piece)
| AssertionError (message : string)
| EdgeExc (e : EdgeError).

Record DatasetTypeNode := {
  dataset_type : DatasetType;
  is_initial_query_constraint : bool;
  is_prerequisite : bool;
}.

(** The registry: [getDatasetType] raises [MissingDatasetTypeError]
    ([None] here) for a name that is not registered. *)
Record Registry := {
  getDatasetType : string → option DatasetType;
  dimensions : Universe;
}.

(** The internal [networkx.MultiDiGraph], as far as [_from_edges] reads
    it: the [instance] attributes of the edges into and out of a node,
    in iteration order. *)
Record XGraph := {
  in_edges : NodeKey → list WriteEdge;
  out_edges : NodeKey → list ReadEdge;
}.

(** [WriteEdge._resolve_dataset_type(current, universe)] and
    [ReadEdge._resolve_dataset_type(current=, universe=,
    is_initial_query_constraint=, is_prerequisite=, is_registered=,
    producer=, consumers=)] live in [_edges.py]. *)
Variable write_resolve :
  WriteEdge → option DatasetType → Universe → result EdgeError DatasetType.
Variable read_resolve :
  ReadEdge → option DatasetType → Universe → bool → option bool → bool →
  option string → list string → result EdgeError (DatasetType * bool * bool).

Definition lift_edge {A} (r : result EdgeError A) : result Exc A :=
  match r with Ok a => Ok a | Raise e => Raise (EdgeExc e) end.

Definition duplicate_message (name second first : string) : list Piece :=
  [Lit "Dataset type "; Repr name; Lit " is produced by both ";
   Repr second; Lit " and "; Repr first; Lit "."].

(** State of the locals across the two loops. *)
Record Locals := {
  l_dataset_type : option DatasetType;
  l_is_initial_query_constraint : bool;
  l_is_prerequisite : option bool;
  l_producer : option string;
  l_consumers : list string;
}.

(** Body of [for _, _, write_edge in xgraph.in_edges(key, data="instance")]. *)
Definition write_step (key : NodeKey) (registry : Registry)
    (l : Locals) (write_edge : WriteEdge) : result Exc Locals :=
  match l_producer l with
  | Some producer =>
      Raise (DuplicateOutputError
               (duplicate_message key.2 (w_task_label write_edge) producer))
  | None =>
      let? dt := lift_edge (write_resolve write_edge (l_dataset_type l)
                              (dimensions registry)) in
      Ok {| l_dataset_type := Some dt;
            l_is_initial_query_constraint := false;
            l_is_prerequisite := Some false;
            l_producer := Some (w_task_label write_edge);
            l_consumers := l_consumers l |}
  end.

(** [read_edges.sort(key=lambda read_edge: read_edge.component is not None)]:
    a stable sort on a boolean key. *)
Definition sort_read_edges (read_edges : list ReadEdge) : list ReadEdge :=
  filter (λ e, r_component e = None) read_edges
  ++ filter (λ e, r_component e ≠ None) read_edges.

(** Body of [for read_edge in read_edges]. *)
Definition read_step (is_registered : bool) (registry : Registry)
    (l : Locals) (read_edge : ReadEdge) : result Exc Locals :=
  let? r :=
    lift_edge (read_resolve read_edge (l_dataset_type l) (dimensions registry)
                 (l_is_initial_query_constraint l) (l_is_prerequisite l)
                 is_registered (l_producer l) (l_consumers l)) in
  Ok {| l_dataset_type := Some r.1.1;
        l_is_initial_query_constraint := r.1.2;
        l_is_prerequisite := Some r.2;
        l_producer := l_producer l;
        l_consumers := l_consumers l ++ [r_task_label read_edge] |}.

(** [DatasetTypeNode._from_edges(key, xgraph, registry, previous)] *)
Definition _from_edges (key : NodeKey) (xgraph : XGraph)
    (registry : Registry) (previous : option DatasetTypeNode)
  : result Exc DatasetTypeNode :=
  let dataset_type0 := getDatasetType registry key.2 in
  let is_registered := bool_decide (is_Some dataset_type0) in
  let reuse :=
    match previous with
    | Some p =>
        if decide (Some (dataset_type p) = dataset_type0) then Some p else None
    | None => None
    end in
  match reuse with
  | Some p => Ok p
  | None =>
      let l0 := {| l_dataset_type := dataset_type0;
                   l_is_initial_query_constraint := true;
                   l_is_prerequisite := None;
                   l_producer := None;
                   l_consumers := [] |} in
      let? l1 := for_each (write_step key registry) (in_edges xgraph key) l0 in
      let? l2 := for_each (read_step is_registered registry)
                   (sort_read_edges (out_edges xgraph key)) l1 in
      match l_dataset_type l2 with
      | None => Raise (AssertionError "Graph structure guarantees at least one edge.")
      | Some dt =>
          match l_is_prerequisite l2 with
          | None =>
              Raise (AssertionError
                       "Having at least one edge guarantees is_prerequisite is known.")
          | Some ip =>
              Ok {| dataset_type := dt;
                    is_initial_query_constraint := l_is_initial_query_constraint l2;
                    is_prerequisite := ip |}
          end
      end
  end.

(** A node is resolved when it came out of [_from_edges], called with
    no previous node or with a previously resolved node of the same
    vertex (resolutions are cleared whenever an edge of the vertex is
    added or removed, so the edges are those of the graph at hand). *)
Inductive Resolved (key : NodeKey) (xgraph : XGraph)
  : option DatasetTypeNode → Prop :=
| resolved_none : Resolved key xgraph None
| resolved_some registry previous node :
    Resolved key xgraph previous →
    _from_edges key xgraph registry previous = Ok node →
    Resolved key xgraph (Some node).

(** *** The write-edge loop *)

Definition produced (l : Locals) : Prop :=
  is_Some (l_producer l)
  ∧ l_is_initial_query_constraint l = false
  ∧ l_is_prerequisite l = Some false.

Lemma write_step_produced key registry l w l' :
  write_step key registry l w = Ok l' → produced l'.
Proof.
  unfold write_step. destruct (l_producer l); [done|].
  destruct (write_resolve _ _ _); simpl; [|done].
  intros [= <-]. by repeat split; simpl; eauto.
Qed.

Lemma write_loop_produced key registry ws l l' :
  ws ≠ [] →
  for_each (write_step key registry) ws l = Ok l' → produced l'.
Proof.
  intros Hne. destruct (exists_last Hne) as (ws' & w & ->).
  rewrite for_each_app.
  destruct (for_each (write_step key registry) ws' l) as [l1|]; [|done].
  simpl. destruct (write_step key registry l1 w) as [l2|] eqn:E; [|done].
  simpl. intros [= <-]. by eapply write_step_produced.
Qed.

Lemma write_loop_two key registry w1 w2 rest l :
  l_producer l = None →
  for_each (write_step key registry) (w1 :: w2 :: rest) l
  = match write_resolve w1 (l_dataset_type l) (dimensions registry) with
    | Ok _ =>
        Raise (DuplicateOutputError
                 (duplicate_message key.2 (w_task_label w2) (w_task_label w1)))
    | Raise e => Raise (EdgeExc e)
    end.
Proof.
  intros Hp. simpl. unfold write_step at 1. rewrite Hp.
  by destruct (write_resolve w1 _ _).
Qed.

Lemma from_edges_two_writers key xgraph registry w1 w2 rest :
  in_edges xgraph key = w1 :: w2 :: rest →
  _from_edges key xgraph registry None
  = match write_resolve w1 (getDatasetType registry key.2)
            (dimensions registry) with
    | Ok _ =>
        Raise (DuplicateOutputError
                 (duplicate_message key.2 (w_task_label w2) (w_task_label w1)))
    | Raise e => Raise (EdgeExc e)
    end.
Proof.
  intros Hin. unfold _from_edges. cbv zeta. rewrite Hin.
  rewrite (write_loop_two key registry w1 w2 rest) by done.
  simpl. by destruct (write_resolve w1 _ _).
Qed.

(** No resolution of a vertex with two write-edges has ever returned a
    node, so there is no previous node to hand in. *)
Lemma two_writers_no_previous key xgraph previous w1 w2 rest :
  in_edges xgraph key = w1 :: w2 :: rest →
  Resolved key xgraph previous → previous = None.
Proof.
  intros Hin Hres.
  induction Hres as [|registry previous node _ IH Hrun]; [done|].
  rewrite IH, (from_edges_two_writers _ _ _ _ _ _ Hin) in Hrun.
  by destruct (write_resolve w1 _ _).
Qed.

(** C2 (amended). A vertex with two or more incident write-edges is never
    resolved: called with no previous node, or with one that came out of
    an earlier resolution of the same vertex, [_from_edges] returns no
    node. It raises [DuplicateOutputError], the message quoting the
    dataset-type name, the task of the second write-edge and the task of
    the first, when the first write-edge's own dataset type resolves
    without error; otherwise it raises the error of that first
    write-edge. *)
Theorem from_edges_duplicate_output key xgraph registry previous
    w1 w2 rest :
  in_edges xgraph key = w1 :: w2 :: rest →
  Resolved key xgraph previous →
  _from_edges key xgraph registry previous
  = match write_resolve w1 (getDatasetType registry key.2)
            (dimensions registry) with
    | Ok _ =>
        Raise (DuplicateOutputError
                 (duplicate_message key.2 (w_task_label w2) (w_task_label w1)))
    | Raise e => Raise (EdgeExc e)
    end.
Proof.
  intros Hin Hres.
  rewrite (two_writers_no_previous key xgraph previous w1 w2 rest Hin Hres).
  exact (from_edges_two_writers key xgraph registry w1 w2 rest Hin).
Qed.

(** *** The read-edge loop *)

(** What the data model says of a dataset type with a producer in the
    graph: a consuming edge never makes it a prerequisite, nor an
    initial query constraint. *)
Hypothesis read_resolve_produced :
  ∀ e cur u iqc ip is_registered p consumers dt iqc' ip',
    read_resolve e cur u iqc ip is_registered (Some p) consumers
    = Ok (dt, iqc', ip') →
    (iqc = false → iqc' = false) ∧ (ip = Some false → ip' = false).

Lemma read_step_produced is_registered registry l e l' :
  produced l → read_step is_registered registry l e = Ok l' → produced l'.
Proof using read_resolve_produced.
  intros ([p Hp] & Hq & Hpre). unfold read_step. rewrite Hp.
  destruct (read_resolve _ _ _ _ _ _ _ _) as [[[dt iqc'] ip']|] eqn:E; [|done].
  simpl. intros [= <-]. apply read_resolve_produced in E as [H1 H2].
  repeat split; simpl; eauto. by rewrite H2.
Qed.

Lemma read_loop_produced is_registered registry es : ∀ l l',
  produced l →
  for_each (read_step is_registered registry) es l = Ok l' → produced l'.
Proof using read_resolve_produced.
  induction es as [|e es IH]; intros l l' Hl; simpl.
  - by intros [= <-].
  - destruct (read_step is_registered registry l e) as [l1|] eqn:E; [|done].
    simpl. apply IH. by eapply read_step_produced.
Qed.

(** C4. Every resolved node of a vertex with an incident write-edge has
    [is_prerequisite = False] and [is_initial_query_constraint = False];
    so [is_prerequisite] can be [True] only for a vertex without
    write-edge. *)
Theorem resolved_with_producer_not_prerequisite key xgraph node :
  Resolved key xgraph (Some node) →
  in_edges xgraph key ≠ [] →
  is_prerequisite node = false ∧ is_initial_query_constraint node = false.
Proof using read_resolve_produced.
  intros Hres Hne. remember (Some node) as on eqn:Hon.
  revert node Hon.
  induction Hres as [|registry previous node' Hprev IH Hrun];
    intros node [= <-].
  revert Hrun. unfold _from_edges.
  destruct previous as [p|].
  - destruct (decide _) as [Heq|Hneq].
    + intros [= <-]. by apply IH.
    + clear IH.
      destruct (for_each _ (in_edges xgraph key) _) as [l1|] eqn:E1; [|done].
      simpl.
      destruct (for_each _ (sort_read_edges _) l1) as [l2|] eqn:E2; [|done].
      simpl. apply write_loop_produced in E1; [|done].
      eapply read_loop_produced in E2 as (_ & Hq & Hp); [|done].
      rewrite Hp. destruct (l_dataset_type l2); [|done].
      by intros [= <-].
  - clear IH.
    destruct (for_each _ (in_edges xgraph key) _) as [l1|] eqn:E1; [|done].
    simpl.
    destruct (for_each _ (sort_read_edges _) l1) as [l2|] eqn:E2; [|done].
    simpl. apply write_loop_produced in E1; [|done].
    eapply read_loop_produced in E2 as (_ & Hq & Hp); [|done].
    rewrite Hp. destruct (l_dataset_type l2); [|done].
    by intros [= <-].
Qed.

(** *** Vertices without edges, failing write-edges, and the order of the
    read-edges *)

Definition not_reused (registry : Registry) (key : NodeKey)
    (previous : option DatasetTypeNode) : Prop :=
  ∀ p, previous = Some p →
       Some (dataset_type p) ≠ getDatasetType registry key.2.

Lemma from_edges_not_reused key xgraph registry previous :
  not_reused registry key previous →
  _from_edges key xgraph registry previous
  = _from_edges key xgraph registry None.
Proof.
  intros Hprev. unfold _from_edges. destruct previous as [p|]; [|done].
  destruct (decide _) as [Heq|]; [|done]. by destruct (Hprev p eq_refl).
Qed.

(** X5. A vertex without any edge is never resolved afresh: when no
    previous node is reused, [_from_edges] fails its first assertion if
    the dataset type is not registered, and its second one (the dataset
    type is known, [is_prerequisite] is not) if it is. *)
Theorem from_edges_without_edges key xgraph registry previous :
  in_edges xgraph key = [] →
  out_edges xgraph key = [] →
  not_reused registry key previous →
  _from_edges key xgraph registry previous
  = Raise (AssertionError
             match getDatasetType registry key.2 with
             | Some _ => "Having at least one edge guarantees is_prerequisite is known."
             | None => "Graph structure guarantees at least one edge."
             end).
Proof.
  intros Hin Hout Hprev. rewrite from_edges_not_reused by done.
  unfold _from_edges. rewrite Hin, Hout. simpl.
  by destruct (getDatasetType registry key.2).
Qed.

(** X6. When the first write-edge fails to resolve its dataset type, that
    error ends the resolution: further write-edges are not looked at, so
    a second producer is not reported, and no read-edge is resolved. *)
Theorem from_edges_first_write_error key xgraph registry previous w rest e :
  in_edges xgraph key = w :: rest →
  not_reused registry key previous →
  write_resolve w (getDatasetType registry key.2) (dimensions registry)
  = Raise e →
  _from_edges key xgraph registry previous = Raise (EdgeExc e).
Proof.
  intros Hin Hprev Hw. rewrite from_edges_not_reused by done.
  unfold _from_edges. rewrite Hin. simpl. unfold write_step at 1. simpl.
  by rewrite Hw.
Qed.

Lemma filter_filter_excluded {A} (P Q : A → Prop)
    `{!∀ x, Decision (P x), !∀ x, Decision (Q x)} (l : list A) :
  (∀ x, Q x → ¬ P x) → filter P (filter Q l) = [].
Proof.
  intros Hex. induction l as [|a l IH]; [done|].
  rewrite filter_cons. destruct (decide (Q a)) as [Hq|]; [|done].
  by rewrite filter_cons_False by by apply Hex.
Qed.

(** X7. The read-edges are resolved in the order of the list sorted on
    [component is not None]: each edge once, every edge of the parent
    dataset type before every component edge, and the edges of either
    kind in the order in which the graph lists them. *)
Theorem sort_read_edges_order (read_edges : list ReadEdge) :
  sort_read_edges read_edges ≡ₚ read_edges
  ∧ (∀ i j a b, sort_read_edges read_edges !! i = Some a →
                sort_read_edges read_edges !! j = Some b →
                (i < j)%nat → r_component a ≠ None → r_component b ≠ None)
  ∧ filter (λ e, r_component e = None) (sort_read_edges read_edges)
    = filter (λ e, r_component e = None) read_edges
  ∧ filter (λ e, r_component e ≠ None) (sort_read_edges read_edges)
    = filter (λ e, r_component e ≠ None) read_edges.
Proof.
  unfold sort_read_edges. split; [|split; [|split]].
  - induction read_edges as [|e l IH]; [done|].
    rewrite !filter_cons. destruct (decide (r_component e = None)) as [He|He].
    + rewrite decide_False by (by intros []). simpl. by f_equiv.
    + rewrite decide_True by done.
      rewrite <-Permutation_middle. by f_equiv.
  - intros i j a b Hi Hj Hij Ha.
    set (parents := filter (λ e, r_component e = None) read_edges) in *.
    destruct (decide (i < length parents)%nat) as [Hlt|Hge].
    + rewrite lookup_app_l in Hi by done.
      apply list_elem_of_lookup_2, list_elem_of_filter in Hi as [Hi _]. done.
    + rewrite lookup_app_r in Hj by lia.
      by apply list_elem_of_lookup_2, list_elem_of_filter in Hj as [Hj _].
  - rewrite filter_app, list_filter_filter_l by done.
    rewrite filter_filter_excluded; [by rewrite app_nil_r|]. by intros e ??.
  - rewrite filter_app, (list_filter_filter_l (λ e, r_component e ≠ None)
                          (λ e, r_component e ≠ None)) by done.
    rewrite filter_filter_excluded; [done|]. by intros e ??.
Qed.

End resolver.

(** ** An instance of the collaborators *)

Record DatasetType := {
  dt_name : string;
  dt_dimensions : list string;
  dt_storage_class_name : string;
}.

#[global] Instance DatasetType_eq_dec : EqDecision DatasetType.
Proof. solve_decision. Defined.

Inductive EdgeError :=
| IncompatibleDatasetTypeError (task_label dataset_type_name : string).

(** Modelled from the spec: [WriteEdge._resolve_dataset_type] of
    [_edges.py], which is not under src/. The write-edge supplies the
    definition when the registry has none; a registered definition is kept
    when the edge's dimensions and storage class agree with it, and the
    request is an incompatibility error naming task and edge otherwise. *)
Definition write_resolve_spec (e : WriteEdge) (current : option DatasetType)
    (universe : unit) : result EdgeError DatasetType :=
  match current with
  | None =>
      Ok {| dt_name := w_dataset_type_name e;
            dt_dimensions := w_dimensions e;
            dt_storage_class_name := w_storage_class_name e |}
  | Some c =>
      if decide (dt_dimensions c = w_dimensions e
                 ∧ dt_storage_class_name c = w_storage_class_name e)
      then Ok c
      else Raise (IncompatibleDatasetTypeError (w_task_label e)
                    (w_dataset_type_name e))
  end.

(** Modelled from the spec: [ReadEdge._resolve_dataset_type] of
    [_edges.py], which is not under src/. The definition is checked as for
    a write-edge; the dataset stays an initial query constraint only while
    no consumer defers it; with a producer in the graph it is never a
    prerequisite, and without one it is a prerequisite as soon as an edge
    allows it. *)
Definition read_resolve_spec (e : ReadEdge) (current : option DatasetType)
    (universe : unit) (is_initial_query_constraint : bool)
    (is_prerequisite : option bool) (is_registered : bool)
    (producer : option string) (consumers : list string)
  : result EdgeError (DatasetType * bool * bool) :=
  let flags :=
    (is_initial_query_constraint && negb (r_defer_query_constraint e),
     match producer with
     | Some _ => false
     | None => default false is_prerequisite || r_is_prerequisite e
     end) in
  match current with
  | None =>
      Ok ({| dt_name := r_dataset_type_name e;
             dt_dimensions := r_dimensions e;
             dt_storage_class_name := r_storage_class_name e |},
          flags.1, flags.2)
  | Some c =>
      if decide (dt_dimensions c = r_dimensions e
                 ∧ dt_storage_class_name c = r_storage_class_name e)
      then Ok (c, flags.1, flags.2)
      else Raise (IncompatibleDatasetTypeError (r_task_label e)
                    (r_dataset_type_name e))
  end.

Lemma read_resolve_spec_produced :
  ∀ e cur u iqc ip is_registered p consumers dt iqc' ip',
    read_resolve_spec e cur u iqc ip is_registered (Some p) consumers
    = Ok (dt, iqc', ip') →
    (iqc = false → iqc' = false) ∧ (ip = Some false → ip' = false).
Proof.
  intros e cur u iqc ip is_registered p consumers dt iqc' ip'.
  unfold read_resolve_spec.
  destruct cur as [c|]; [destruct (decide _); [|done]|];
    simpl; intros [= <- <- <-]; split; try done; by intros ->.
Qed.

(** Two tasks write [calib]; a third reads it. *)
Definition calib_key : NodeKey := (DATASET_TYPE, "calib").

Definition calib_type : DatasetType :=
  {| dt_name := "calib"; dt_dimensions := ["instrument"; "detector"];
     dt_storage_class_name := "ExposureF" |}.

Definition write_by (task : string) : WriteEdge :=
  {| w_task_label := task; w_dataset_type_name := "calib";
     w_storage_class_name := "ExposureF";
     w_dimensions := ["instrument"; "detector"] |}.

Definition read_by (task : string) : ReadEdge :=
  {| r_task_label := task; r_dataset_type_name := "calib";
     r_storage_class_name := "ExposureF";
     r_dimensions := ["instrument"; "detector"];
     r_component := None; r_is_prerequisite := false;
     r_defer_query_constraint := false; r_manual_load := false |}.

Definition graph_with (ws : list WriteEdge) (rs : list ReadEdge) : XGraph :=
  {| in_edges := λ k, if decide (k = calib_key) then ws else [];
     out_edges := λ k, if decide (k = calib_key) then rs else [] |}.

Definition two_writers : XGraph :=
  graph_with [write_by "makeCalibA"; write_by "makeCalibB"] [read_by "useCalib"].

Definition one_writer : XGraph :=
  graph_with [write_by "makeCalibA"] [read_by "useCalib"].

Definition registry_with (d : option DatasetType) : @Registry DatasetType unit :=
  {| getDatasetType := λ name, if decide (name = "calib") then d else None;
     dimensions := () |}.

Definition calib_node : @DatasetTypeNode DatasetType :=
  {| dataset_type := calib_type;
     is_initial_query_constraint := false;
     is_prerequisite := false |}.

Lemma from_edges_duplicate_output_witness :
  _from_edges write_resolve_spec read_resolve_spec calib_key two_writers
    (registry_with None) None
  = Raise (DuplicateOutputError
             [Lit "Dataset type "; Repr "calib"; Lit " is produced by both ";
              Repr "makeCalibB"; Lit " and "; Repr "makeCalibA"; Lit "."]).
Proof.
  apply (from_edges_duplicate_output write_resolve_spec read_resolve_spec
           calib_key two_writers (registry_with None) None
           (write_by "makeCalibA") (write_by "makeCalibB") []).
  - reflexivity.
  - constructor.
Defined.

Lemma one_writer_resolved :
  Resolved write_resolve_spec read_resolve_spec calib_key one_writer
    (Some calib_node).
Proof.
  apply (resolved_some _ _ _ _ (registry_with None) None); [constructor|].
  reflexivity.
Defined.

Lemma resolved_with_producer_not_prerequisite_witness :
  is_prerequisite calib_node = false
  ∧ is_initial_query_constraint calib_node = false.
Proof.
  apply (resolved_with_producer_not_prerequisite
           write_resolve_spec read_resolve_spec read_resolve_spec_produced
           calib_key one_writer calib_node).
  - exact one_writer_resolved.
  - discriminate.
Defined.

(** Without a writer the same reader leaves the flags to the read-edges:
    the node is an initial query constraint. *)
Example no_writer_query_constraint :
  _from_edges write_resolve_spec read_resolve_spec calib_key
    (graph_with [] [read_by "useCalib"]) (registry_with None) None
  = Ok {| dataset_type := calib_type;
          is_initial_query_constraint := true;
          is_prerequisite := false |}.
Proof. reflexivity. Qed.

(** A vertex without any edge trips the defensive assertions. *)
Example no_edges_asserts :
  _from_edges write_resolve_spec read_resolve_spec calib_key
    (graph_with [] []) (registry_with None) None
  = Raise (AssertionError "Graph structure guarantees at least one edge.").
Proof. reflexivity. Qed.

Lemma from_edges_without_edges_witness :
  _from_edges write_resolve_spec read_resolve_spec calib_key
    (graph_with [] []) (registry_with (Some calib_type)) None
  = Raise (AssertionError
             "Having at least one edge guarantees is_prerequisite is known.").
Proof.
  apply (from_edges_without_edges write_resolve_spec read_resolve_spec
           calib_key (graph_with [] []) (registry_with (Some calib_type)) None).
  - reflexivity.
  - reflexivity.
  - intros p Hp. discriminate Hp.
Defined.

(** A writer whose storage class is not the registered one. *)
Definition write_catalog_by (task : string) : WriteEdge :=
  {| w_task_label := task; w_dataset_type_name := "calib";
     w_storage_class_name := "SourceCatalog";
     w_dimensions := ["instrument"; "detector"] |}.

Lemma from_edges_first_write_error_witness :
  _from_edges write_resolve_spec read_resolve_spec calib_key
    (graph_with [write_catalog_by "makeCalibA"; write_by "makeCalibB"]
       [read_by "useCalib"])
    (registry_with (Some calib_type)) None
  = Raise (EdgeExc (IncompatibleDatasetTypeError "makeCalibA" "calib")).
Proof.
  apply (from_edges_first_write_error write_resolve_spec read_resolve_spec
           calib_key
           (graph_with [write_catalog_by "makeCalibA"; write_by "makeCalibB"]
              [read_by "useCalib"])
           (registry_with (Some calib_type)) None
           (write_catalog_by "makeCalibA") [write_by "makeCalibB"]).
  - reflexivity.
  - intros p Hp. discriminate Hp.
  - reflexivity.
Defined.

(** C2, as stated, fails: two tasks write [calib], and the first of the
    two write-edges asks for a storage class other than the registered
    one. Resolution ends with the incompatibility error of that edge; the
    second producer is never reported. *)
Definition catalog_writer_first : XGraph :=
  graph_with [write_catalog_by "makeCalibA"; write_by "makeCalibB"]
    [read_by "useCalib"].

Lemma from_edges_two_writers_first_incompatible :
  (w_task_label <$> in_edges catalog_writer_first calib_key)
  = ["makeCalibA"; "makeCalibB"]
  ∧ _from_edges write_resolve_spec read_resolve_spec calib_key
      catalog_writer_first (registry_with (Some calib_type)) None
    = Raise (EdgeExc (IncompatibleDatasetTypeError "makeCalibA" "calib"))
  ∧ ∀ message,
      _from_edges write_resolve_spec read_resolve_spec calib_key
        catalog_writer_first (registry_with (Some calib_type)) None
      ≠ Raise (DuplicateOutputError message).
Proof. split; [reflexivity|]. split; [reflexivity|]. intros message. discriminate. Qed.

End DatasetTypes.

(** * Quantum graph traversal ([graph.py]) *)

Module Traverse.

(** A generator that is run to its end: the values it yielded, in order,
    and the exception that ended it, if any. *)
Definition Gen (E A : Type) : Type := list A * option E.

Section traverse.

(** [lsst.daf.butler.DataId] (hashable) and the [TaskDef] of
    [pipeline.py]; a task definition is only used through its identity
    [id(taskDef)]. *)
Context {DataId : Type} `{Countable DataId}.
Context {TaskDef : Type} (id : TaskDef → nat).
Context {PipelineError : Type}.

(** [pipeTools.orderPipeline(Pipeline(taskDefs))]: the task definitions
    in topological order, or an exception. *)
Variable orderPipeline : list TaskDef → result PipelineError (list TaskDef).

Record DatasetRef := {
  datasetType_name : string;
  dataId : DataId;
  ref_id : option Z;
}.

(** [predictedInputs] and [outputs] map a dataset type to a list of
    references; only [.values()] is read. *)
Record Quantum := {
  predictedInputs : list (string * list DatasetRef);
  outputs : list (string * list DatasetRef);
}.

Record QuantumGraphTaskNodes := {
  taskDef : TaskDef;
  quanta : list Quantum;
}.

(** [QuantumGraph] is a [list] of [QuantumGraphTaskNodes]. *)
Definition QuantumGraph : Type := list QuantumGraphTaskNodes.

Record QuantumIterData := {
  quantumId : nat;
  quantum : Quantum;
  qid_taskDef : TaskDef;
  dependencies : gset nat;
}.

Inductive Exc :=
| KeyError (key : string * DataId)
| NodesMapKeyError (task_id : nat)
| TypeError (message : string) (argument : string)
| PipelineExc (e : PipelineError).

(** ** The dataclass constructor

    [QuantumIterData] is a [@dataclass] with the four fields of
    [__slots__]; the generated [__init__] binds keyword arguments to
    these names and rejects any other keyword. *)
Inductive Arg :=
| AInt (n : nat)
| AQuantum (q : Quantum)
| ATaskDef (t : TaskDef)
| ADeps (d : gset nat).

Definition QuantumIterData_fields : list string :=
  ["quantumId"; "quantum"; "taskDef"; "dependencies"].

Definition kwarg (kwargs : list (string * Arg)) (name : string) : option Arg :=
  (λ found, found.2.2) <$> list_find (λ kv, kv.1 = name) kwargs.

Definition QuantumIterData_init (kwargs : list (string * Arg))
  : result Exc QuantumIterData :=
  match list_find (λ kv, kv.1 ∉ QuantumIterData_fields) kwargs with
  | Some (_, (k, _)) =>
      Raise (TypeError "__init__() got an unexpected keyword argument" k)
  | None =>
      match kwarg kwargs "quantumId", kwarg kwargs "quantum",
            kwarg kwargs "taskDef", kwarg kwargs "dependencies" with
      | Some (AInt i), Some (AQuantum q), Some (ATaskDef t), Some (ADeps d) =>
          Ok {| quantumId := i; quantum := q; qid_taskDef := t;
                dependencies := d |}
      | _, _, _, _ =>
          Raise (TypeError "__init__() missing required argument" "")
      end
  end.

(** ** [orderedTaskNodes] *)

Definition nodesMap (graph : QuantumGraph) : gmap nat QuantumGraphTaskNodes :=
  foldl (λ m item, <[id (taskDef item) := item]> m) ∅ graph.

Fixpoint lookup_nodes (m : gmap nat QuantumGraphTaskNodes)
    (pipeline : list TaskDef) : Gen Exc QuantumGraphTaskNodes :=
  match pipeline with
  | [] => ([], None)
  | t :: rest =>
      match m !! id t with
      | None => ([], Some (NodesMapKeyError (id t)))
      | Some item => let r := lookup_nodes m rest in (item :: r.1, r.2)
      end
  end.

Definition orderedTaskNodes (graph : QuantumGraph)
  : Gen Exc QuantumGraphTaskNodes :=
  match orderPipeline (taskDef <$> graph) with
  | Raise e => ([], Some (PipelineExc e))
  | Ok pipeline => lookup_nodes (nodesMap graph) pipeline
  end.

(** ** The loop body *)

Definition key_of (dataRef : DatasetRef) : string * DataId :=
  (datasetType_name dataRef, dataId dataRef).

(** [len(self) == 1 and len(self[0].quanta) == 1] *)
Definition is_split_graph (self : QuantumGraph) : bool :=
  match self with
  | [item] => bool_decide (length (quanta item) = 1%nat)
  | _ => false
  end.

(** The loop over [chain.from_iterable(quantum.predictedInputs.values())]
    that fills [prereq]. *)
Definition prereq_step (self : QuantumGraph)
    (outs : gmap (string * DataId) nat)
    (prereq : list nat) (dataRef : DatasetRef) : result Exc (list nat) :=
  match ref_id dataRef with
  | Some _ => Ok prereq
  | None =>
      match outs !! key_of dataRef with
      | Some producer => Ok (prereq ++ [producer])
      | None =>
          if is_split_graph self then Ok prereq
          else Raise (KeyError (key_of dataRef))
      end
  end.

Definition find_prereq (self : QuantumGraph)
    (outs : gmap (string * DataId) nat) (q : Quantum)
  : result Exc (list nat) :=
  for_each (prereq_step self outs) (concat (predictedInputs q).*2) [].

(** The loop over [chain.from_iterable(quantum.outputs.values())]. *)
Definition update_outputs (index : nat)
    (outs : gmap (string * DataId) nat) (q : Quantum)
  : gmap (string * DataId) nat :=
  foldl (λ o dataRef, <[key_of dataRef := index]> o) outs
        (concat (outputs q).*2).

(** One quantum: its dependencies, the update of [outputs], and the
    record that is yielded. [id_keyword] is the keyword under which the
    running index is passed to the constructor. *)
Definition visit (id_keyword : string) (self : QuantumGraph)
    (index : nat) (outs : gmap (string * DataId) nat)
    (t : TaskDef) (q : Quantum)
  : result Exc (QuantumIterData * gmap (string * DataId) nat) :=
  let? prereq := find_prereq self outs q in
  let outs' := update_outputs index outs q in
  let? record :=
    QuantumIterData_init
      [(id_keyword, AInt index); ("quantum", AQuantum q);
       ("taskDef", ATaskDef t); ("dependencies", ADeps (list_to_set prereq))] in
  Ok (record, outs').

Fixpoint visit_all (id_keyword : string) (self : QuantumGraph)
    (index : nat) (outs : gmap (string * DataId) nat)
    (todo : list (TaskDef * Quantum)) : Gen Exc QuantumIterData :=
  match todo with
  | [] => ([], None)
  | (t, q) :: rest =>
      match visit id_keyword self index outs t q with
      | Raise e => ([], Some e)
      | Ok (record, outs') =>
          let r := visit_all id_keyword self (S index) outs' rest in
          (record :: r.1, r.2)
      end
  end.

Definition quanta_of (nodes : list QuantumGraphTaskNodes)
  : list (TaskDef * Quantum) :=
  nodes ≫= λ item, (λ q, (taskDef item, q)) <$> quanta item.

Definition traverse_with (id_keyword : string) (self : QuantumGraph)
  : Gen Exc QuantumIterData :=
  let ordered := orderedTaskNodes self in
  let r := visit_all id_keyword self 0 ∅ (quanta_of ordered.1) in
  (r.1, match r.2 with Some e => Some e | None => ordered.2 end).

(** [QuantumGraph.traverse]: the record is built with
    [QuantumIterData(index=index, quantum=..., taskDef=..., dependencies=...)]. *)
Definition traverse (self : QuantumGraph) : Gen Exc QuantumIterData :=
  traverse_with "index" self.

(** ** The constructor call *)

Lemma QuantumIterData_init_index i q t d :
  QuantumIterData_init
    [("index", AInt i); ("quantum", AQuantum q);
     ("taskDef", ATaskDef t); ("dependencies", ADeps d)]
  = Raise (TypeError "__init__() got an unexpected keyword argument" "index").
Proof. reflexivity. Qed.

Lemma QuantumIterData_init_quantumId i q t d :
  QuantumIterData_init
    [("quantumId", AInt i); ("quantum", AQuantum q);
     ("taskDef", ATaskDef t); ("dependencies", ADeps d)]
  = Ok {| quantumId := i; quantum := q; qid_taskDef := t; dependencies := d |}.
Proof. reflexivity. Qed.

(** As written, no quantum gets past the constructor. *)
Lemma visit_index_raises self index outs t q :
  ∃ e, visit "index" self index outs t q = Raise e.
Proof.
  unfold visit. destruct (find_prereq self outs q) as [prereq|e].
  - unfold rbind at 1. rewrite QuantumIterData_init_index. by eexists.
  - by eexists.
Qed.

Lemma traverse_yields_nothing self : (traverse self).1 = [].
Proof.
  unfold traverse, traverse_with. simpl.
  destruct (quanta_of _) as [|[t q] rest]; simpl; [done|].
  destruct (visit_index_raises self 0%nat ∅ t q) as [e ->]. done.
Qed.

Lemma traverse_raises self t q rest :
  quanta_of (orderedTaskNodes self).1 = (t, q) :: rest →
  ∃ e, traverse self = ([], Some e).
Proof.
  intros Hq. unfold traverse, traverse_with. rewrite Hq. simpl.
  destruct (visit_index_raises self 0%nat ∅ t q) as [e ->]. simpl. eauto.
Qed.

(** ** The dependency search (lines 189-204) *)

(** In a split graph a missing producer is skipped. *)
Lemma find_prereq_split self outs q :
  is_split_graph self = true →
  find_prereq self outs q
  = Ok (omap (λ r, match ref_id r with
                   | Some _ => None
                   | None => outs !! key_of r
                   end) (concat (predictedInputs q).*2)).
Proof.
  intros Hs. unfold find_prereq.
  enough (∀ refs acc,
            for_each (prereq_step self outs) refs acc
            = Ok (acc ++ omap (λ r, match ref_id r with
                                    | Some _ => None
                                    | None => outs !! key_of r
                                    end) refs)) as Hgen by apply Hgen.
  induction refs as [|r refs IH]; intros acc; simpl.
  - by rewrite app_nil_r.
  - unfold prereq_step at 1. destruct (ref_id r); simpl; [apply IH|].
    destruct (outs !! key_of r) as [p|]; simpl.
    + rewrite IH. by rewrite <-app_assoc.
    + rewrite Hs. simpl. apply IH.
Qed.

(** In any other graph the first predicted input without stored identity
    and without registered producer raises [KeyError]. *)
Lemma find_prereq_missing self outs q dataRef :
  is_split_graph self = false →
  dataRef ∈ concat (predictedInputs q).*2 →
  ref_id dataRef = None →
  outs !! key_of dataRef = None →
  ∃ r, r ∈ concat (predictedInputs q).*2
       ∧ ref_id r = None ∧ outs !! key_of r = None
       ∧ find_prereq self outs q = Raise (KeyError (key_of r)).
Proof.
  intros Hs Hin Hid Hout. unfold find_prereq.
  generalize (@nil nat).
  induction (concat (predictedInputs q).*2) as [|r refs IH]; intros acc.
  - by apply elem_of_nil in Hin.
  - simpl. unfold prereq_step at 1.
    destruct (ref_id r) as [i|] eqn:Er; simpl.
    + apply elem_of_cons in Hin as [->|Hin]; [congruence|].
      destruct (IH Hin acc) as (r' & ? & ? & ? & ?).
      exists r'. repeat split; try done. by right.
    + destruct (outs !! key_of r) as [p|] eqn:Eo; simpl.
      * apply elem_of_cons in Hin as [->|Hin]; [congruence|].
        destruct (IH Hin (acc ++ [p])) as (r' & ? & ? & ? & ?).
        exists r'. repeat split; try done. by right.
      * rewrite Hs. exists r. repeat split; try done. by left.
Qed.

(** Every dependency found is a value of [outputs]. *)
Lemma find_prereq_values self outs q prereq :
  find_prereq self outs q = Ok prereq →
  ∀ d, d ∈ prereq → ∃ k, outs !! k = Some d.
Proof.
  unfold find_prereq.
  enough (∀ refs acc,
            (∀ d, d ∈ acc → ∃ k, outs !! k = Some d) →
            for_each (prereq_step self outs) refs acc = Ok prereq →
            ∀ d, d ∈ prereq → ∃ k, outs !! k = Some d) as Hgen.
  { apply Hgen. intros d Hd. by apply elem_of_nil in Hd. }
  induction refs as [|r refs IH]; intros acc Hacc; simpl.
  - by intros [= <-].
  - unfold prereq_step at 1. destruct (ref_id r); simpl; [by apply IH|].
    destruct (outs !! key_of r) as [p|] eqn:Eo; simpl.
    + apply IH. intros d [Hd|Hd%list_elem_of_singleton]%elem_of_app;
        [by apply Hacc|]. subst. eauto.
    + destruct (is_split_graph self); simpl; [by apply IH|done].
Qed.

(** ** The traversal with the constructor called by field name

    What lines 183-213 compute once the record is built with
    [quantumId=index]. *)

Definition below (index : nat) (outs : gmap (string * DataId) nat) : Prop :=
  ∀ k v, outs !! k = Some v → (v < index)%nat.

Lemma update_outputs_below index outs q :
  below index outs → below (S index) (update_outputs index outs q).
Proof.
  intros Hb. assert (below (S index) outs) as Hb'.
  { intros k v Hk. specialize (Hb k v Hk). lia. }
  clear Hb. revert Hb'.
  unfold update_outputs. generalize (concat (outputs q).*2).
  intros refs. revert outs.
  induction refs as [|r refs IH]; intros outs Hb; simpl; [done|].
  apply IH. intros k v. rewrite lookup_insert.
  destruct (decide _); [intros [= <-]; lia|apply Hb].
Qed.

Lemma visit_quantumId self index outs t q record outs' :
  visit "quantumId" self index outs t q = Ok (record, outs') →
  quantumId record = index
  ∧ quantum record = q
  ∧ outs' = update_outputs index outs q
  ∧ ∃ prereq, find_prereq self outs q = Ok prereq
              ∧ dependencies record = list_to_set prereq.
Proof.
  unfold visit. destruct (find_prereq self outs q) as [prereq|]; [|done].
  unfold rbind at 1. rewrite QuantumIterData_init_quantumId.
  intros [= <- <-]. simpl. eauto 10.
Qed.

Lemma visit_all_quantumId self todo : ∀ index outs,
  below index outs →
  let records := (visit_all "quantumId" self index outs todo).1 in
  quantumId <$> records = seq index (length records)
  ∧ ∀ r d, r ∈ records → d ∈ dependencies r → (d < quantumId r)%nat.
Proof.
  induction todo as [|[t q] todo IH]; intros index outs Hb; simpl.
  - split; [done|]. intros r d Hr. by apply elem_of_nil in Hr.
  - destruct (visit "quantumId" self index outs t q) as [[record outs']|]
      eqn:E; simpl.
    2:{ split; [done|]. intros r d Hr. by apply elem_of_nil in Hr. }
    apply visit_quantumId in E as (Hid & _ & -> & prereq & Hp & Hd).
    destruct (IH (S index) (update_outputs index outs q)) as [IH1 IH2].
    { by apply update_outputs_below. }
    split; [by f_equal|].
    intros r d [->|Hr]%elem_of_cons Hdr; [|by eapply IH2].
    rewrite Hid. rewrite Hd in Hdr. apply elem_of_list_to_set in Hdr.
    destruct (find_prereq_values _ _ _ _ Hp d Hdr) as [k Hk].
    by eapply Hb.
Qed.

(** With the record built by field name, the ids yielded are 0, 1, 2, ...
    and every dependency is smaller than the id of its record. *)
Lemma traverse_with_quantumId_ordered self :
  let records := (traverse_with "quantumId" self).1 in
  quantumId <$> records = seq 0 (length records)
  ∧ ∀ r d, r ∈ records → d ∈ dependencies r → (d < quantumId r)%nat.
Proof.
  unfold traverse_with. simpl. apply visit_all_quantumId.
  intros k v. by rewrite lookup_empty.
Qed.

(** ** What [traverse] does as written *)

(** X8. As soon as the ordered graph has a quantum, [traverse] yields
    nothing and ends with an exception at that first quantum: the
    [KeyError] of the dependency search if an input lacks its producer (and
    the graph is not a split graph), and otherwise the [TypeError] of the
    constructor call, whatever the quantum is. *)
Theorem traverse_first_quantum_raises self t q rest :
  quanta_of (orderedTaskNodes self).1 = (t, q) :: rest →
  traverse self
  = ([], Some match find_prereq self ∅ q with
              | Ok _ =>
                  TypeError "__init__() got an unexpected keyword argument" "index"
              | Raise e => e
              end).
Proof.
  intros Hq. unfold traverse, traverse_with. rewrite Hq. simpl.
  unfold visit. destruct (find_prereq self ∅ q) as [prereq|e]; [|done].
  unfold rbind at 1. by rewrite QuantumIterData_init_index.
Qed.

(** *** [nodesMap] *)

Lemma nodesMap_snoc graph item :
  nodesMap (graph ++ [item]) = <[id (taskDef item) := item]> (nodesMap graph).
Proof. unfold nodesMap. by rewrite foldl_app. Qed.

Lemma nodesMap_lookup graph i item :
  nodesMap graph !! i = Some item → item ∈ graph ∧ id (taskDef item) = i.
Proof.
  induction graph as [|x graph IH] using rev_ind; [done|].
  rewrite nodesMap_snoc.
  destruct (decide (id (taskDef x) = i)) as [<-|Hne].
  - rewrite lookup_insert_eq. intros [= <-]. split; [|done].
    apply elem_of_app. right. by apply list_elem_of_singleton.
  - rewrite lookup_insert_ne by done. intros [Hin Hid]%IH.
    split; [|done]. apply elem_of_app. by left.
Qed.

Lemma nodesMap_is_Some graph item :
  item ∈ graph → is_Some (nodesMap graph !! id (taskDef item)).
Proof.
  induction graph as [|x graph IH] using rev_ind; [by intros ?%elem_of_nil|].
  rewrite nodesMap_snoc.
  intros [Hin|Hx%list_elem_of_singleton]%elem_of_app.
  - destruct (decide (id (taskDef x) = id (taskDef item))) as [->|Hne].
    + rewrite lookup_insert_eq. by eexists.
    + rewrite lookup_insert_ne by done. by apply IH.
  - subst. rewrite lookup_insert_eq. by eexists.
Qed.

Lemma nodesMap_unique graph item :
  NoDup ((λ x, id (taskDef x)) <$> graph) → item ∈ graph →
  nodesMap graph !! id (taskDef item) = Some item.
Proof.
  intros Hnd Hin. destruct (nodesMap_is_Some graph item Hin) as [x Hx].
  rewrite Hx. f_equal. apply nodesMap_lookup in Hx as [Hxin Hid].
  apply list_elem_of_lookup in Hxin as [i Hi].
  apply list_elem_of_lookup in Hin as [j Hj].
  assert (i = j) as ->.
  { apply (NoDup_lookup _ i j (id (taskDef item)) Hnd);
      rewrite list_lookup_fmap; [by rewrite Hi; simpl; f_equal|by rewrite Hj]. }
  congruence.
Qed.

Lemma lookup_nodes_found m pipeline :
  (∀ t, t ∈ pipeline → is_Some (m !! id t)) →
  lookup_nodes m pipeline = (omap (λ t, m !! id t) pipeline, None).
Proof.
  induction pipeline as [|t pipeline IH]; intros Hall; simpl; [done|].
  destruct (Hall t) as [item Hitem]; [by left|]. rewrite Hitem.
  rewrite IH; [done|]. intros t' Ht'. apply Hall. by right.
Qed.

(** X9. When the task definitions of the graph have distinct identities
    and [orderPipeline] returns them reordered, [orderedTaskNodes] raises
    nothing and yields the task nodes of the graph, each once, in the order
    of the pipeline. *)
Theorem orderedTaskNodes_permutation self pipeline :
  NoDup ((λ item, id (taskDef item)) <$> self) →
  orderPipeline (taskDef <$> self) = Ok pipeline →
  id <$> pipeline ≡ₚ (λ item, id (taskDef item)) <$> self →
  ∃ nodes, orderedTaskNodes self = (nodes, None)
           ∧ nodes ≡ₚ self
           ∧ (λ item, id (taskDef item)) <$> nodes = id <$> pipeline.
Proof.
  intros Hnd Hord Hperm. unfold orderedTaskNodes. rewrite Hord.
  assert (∀ t, t ∈ pipeline → is_Some (nodesMap self !! id t)) as Hall.
  { intros t Ht.
    assert (id t ∈ (λ item, id (taskDef item)) <$> self) as Hin.
    { rewrite <-Hperm. by apply list_elem_of_fmap_2. }
    apply list_elem_of_fmap in Hin as (item & -> & Hitem).
    by apply nodesMap_is_Some. }
  rewrite lookup_nodes_found by done.
  eexists. split; [done|].
  assert (omap (λ t, nodesMap self !! id t) pipeline
          = omap (λ i, nodesMap self !! i) (id <$> pipeline)) as ->.
  { clear. induction pipeline as [|t p IH]; [done|]. cbn.
    destruct (nodesMap self !! id t); cbn; by rewrite IH. }
  split.
  - rewrite Hperm.
    assert (∀ l : list QuantumGraphTaskNodes, (∀ x, x ∈ l → x ∈ self) →
                 omap (λ i, nodesMap self !! i) ((λ item, id (taskDef item)) <$> l)
                 = l) as Hsame.
    { induction l as [|x l IH]; intros Hl; simpl; [done|].
      rewrite nodesMap_unique by (done || apply Hl; left). f_equal.
      apply IH. intros y Hy. apply Hl. by right. }
    by rewrite Hsame.
  - clear Hperm Hord. induction pipeline as [|t p IH]; simpl; [done|].
    destruct (Hall t) as [item Hitem]; [by left|]. rewrite Hitem. simpl.
    apply nodesMap_lookup in Hitem as [_ ->]. f_equal.
    apply IH. intros t' Ht'. apply Hall. by right.
Qed.

Lemma quanta_of_empty nodes :
  (∀ item, item ∈ nodes → quanta item = []) → quanta_of nodes = [].
Proof.
  unfold quanta_of. induction nodes as [|item nodes IH]; intros Hall; [done|].
  rewrite bind_cons, (Hall item) by left. simpl.
  apply IH. intros x Hx. apply Hall. by right.
Qed.

(** X10. A graph whose task nodes have no quanta is traversed without a
    record and without an error, provided [orderPipeline] returns task
    definitions of the graph. *)
Theorem traverse_without_quanta self pipeline :
  (∀ item, item ∈ self → quanta item = []) →
  orderPipeline (taskDef <$> self) = Ok pipeline →
  (∀ t, t ∈ pipeline → ∃ item, item ∈ self ∧ id (taskDef item) = id t) →
  traverse self = ([], None).
Proof.
  intros Hempty Hord Hin. unfold traverse, traverse_with, orderedTaskNodes.
  rewrite Hord. rewrite lookup_nodes_found.
  2:{ intros t (item & Hitem & <-)%Hin. by apply nodesMap_is_Some. }
  simpl.
  rewrite quanta_of_empty; [done|].
  intros item (t & _ & [Hitem _]%nodesMap_lookup)%list_elem_of_omap.
  by apply Hempty.
Qed.

(** *** The dependency search *)

(** The producers of the predicted inputs that have no stored identity. *)
Definition producers (outs : gmap (string * DataId) nat)
    (refs : list DatasetRef) : list nat :=
  omap (λ r, match ref_id r with
             | Some _ => None
             | None => outs !! key_of r
             end) refs.

Definition has_producer (outs : gmap (string * DataId) nat)
    (r : DatasetRef) : Prop :=
  is_Some (ref_id r) ∨ is_Some (outs !! key_of r).

Lemma prereq_loop_found self outs refs : ∀ acc,
  Forall (has_producer outs) refs →
  for_each (prereq_step self outs) refs acc = Ok (acc ++ producers outs refs).
Proof.
  induction refs as [|r refs IH]; intros acc Hall; simpl.
  - by rewrite app_nil_r.
  - apply Forall_cons in Hall as [Hr Hall]. unfold prereq_step at 1.
    destruct (ref_id r) as [i|] eqn:Er; simpl; [by apply IH|].
    destruct Hr as [[? Hr]|[p Hp]]; [congruence|]. rewrite Hp. simpl.
    rewrite IH by done. by rewrite <-app_assoc.
Qed.

(** X11. When every predicted input of a quantum either has a stored
    identity or has its producer in [outputs], the dependency search
    returns the producers of the inputs without stored identity, in the
    order of the inputs; inputs that are already in the butler contribute
    nothing. *)
Theorem find_prereq_found self outs q :
  Forall (has_producer outs) (concat (predictedInputs q).*2) →
  find_prereq self outs q
  = Ok (producers outs (concat (predictedInputs q).*2)).
Proof. intros Hall. unfold find_prereq. by rewrite prereq_loop_found. Qed.

(** X12. In a graph that is not a single task with a single quantum, the
    first predicted input without stored identity and without producer in
    [outputs] ends the search with [KeyError] for its key; the inputs
    after it are not looked at. *)
Theorem find_prereq_key_error self outs q pre r post :
  is_split_graph self = false →
  concat (predictedInputs q).*2 = pre ++ r :: post →
  Forall (has_producer outs) pre →
  ref_id r = None →
  outs !! key_of r = None →
  find_prereq self outs q = Raise (KeyError (key_of r)).
Proof.
  intros Hs Hrefs Hpre Hid Hout. unfold find_prereq.
  rewrite Hrefs, for_each_app, prereq_loop_found by done. simpl.
  unfold prereq_step at 1. by rewrite Hid, Hout, Hs.
Qed.

(** X13. After the outputs of a quantum have been recorded, every key of
    an output of the quantum maps to the quantum's index, also when an
    earlier quantum had produced the same key, and every other key maps to
    what it mapped to before. *)
Theorem update_outputs_lookup index outs q k :
  update_outputs index outs q !! k
  = if decide (k ∈ key_of <$> concat (outputs q).*2) then Some index
    else outs !! k.
Proof.
  unfold update_outputs. generalize (concat (outputs q).*2). intros refs.
  revert outs. induction refs as [|r refs IH]; intros outs; simpl; [done|].
  rewrite IH. destruct (decide (k ∈ key_of <$> refs)) as [Hin|Hnin].
  - rewrite decide_True; [done|]. by right.
  - destruct (decide (k = key_of r)) as [->|Hne].
    + rewrite lookup_insert_eq. rewrite decide_True; [done|]. by left.
    + rewrite lookup_insert_ne by done. rewrite decide_False; [done|].
      by intros [?|?]%elem_of_cons.
Qed.

End traverse.

(** ** Concrete graphs

    Data ids and task definitions are numbers; the pipeline is already in
    order. *)
Definition already_ordered (tasks : list nat) : result Empty_set (list nat) :=
  Ok tasks.

Definition predicted (name : string) (data_id : nat) : @DatasetRef nat :=
  {| datasetType_name := name; dataId := data_id; ref_id := None |}.

Definition quantum_of (ins outs : list (string * nat)) : @Quantum nat :=
  {| predictedInputs := (λ r, (r.1, [predicted r.1 r.2])) <$> ins;
     outputs := (λ r, (r.1, [predicted r.1 r.2])) <$> outs |}.

Definition run (g : @QuantumGraph nat nat) :=
  traverse (λ t, t) already_ordered g.

Definition run_by_field_name (g : @QuantumGraph nat nat) :=
  traverse_with (λ t, t) already_ordered "quantumId" g.

(** One task, one quantum, no input, one output. *)
Definition one_quantum : @QuantumGraph nat nat :=
  [ {| taskDef := 1%nat; quanta := [quantum_of [] [("x", 7%nat)]] |} ].

(** Task A writes [x], task B reads [x] and writes [y]; one quantum each. *)
Definition a_then_b : @QuantumGraph nat nat :=
  [ {| taskDef := 1%nat; quanta := [quantum_of [] [("x", 7%nat)]] |};
    {| taskDef := 2%nat;
       quanta := [quantum_of [("x", 7%nat)] [("y", 7%nat)]] |} ].

(** One task, one quantum, whose input [z] has no producer in the graph. *)
Definition split_graph : @QuantumGraph nat nat :=
  [ {| taskDef := 1%nat; quanta := [quantum_of [("z", 7%nat)] [("x", 7%nat)]] |} ].

(** The same input, in a graph of two quanta. *)
Definition two_quanta : @QuantumGraph nat nat :=
  [ {| taskDef := 1%nat;
       quanta := [quantum_of [("z", 7%nat)] [("x", 7%nat)];
                  quantum_of [("z", 8%nat)] [("x", 8%nat)]] |} ].

(** C1. [traverse] is meant to yield records numbered 0, 1, 2, ... with
    dependencies below their own id; as written it raises [TypeError]
    while building the record of the very first quantum, and yields
    nothing: the constructor is called with the keyword [index], which is
    not a field of [QuantumIterData]. *)
Theorem traverse_first_record_type_error :
  run one_quantum
  = ([], Some (TypeError "__init__() got an unexpected keyword argument" "index"))
  ∧ run a_then_b
    = ([], Some (TypeError "__init__() got an unexpected keyword argument" "index")).
Proof. split; by vm_compute. Qed.

(** Built by field name, the records of the two graphs are the expected
    ones: ids [{A:0, B:1}], B depending on [{0}]. *)
Example a_then_b_by_field_name :
  (λ r, (quantumId r, elements (dependencies r))) <$> (run_by_field_name a_then_b).1
  = [(0%nat, []); (1%nat, [0%nat])]
  ∧ (run_by_field_name a_then_b).2 = None.
Proof. split; by vm_compute. Qed.

(** C3. In a graph of one task and one quantum the missing producer of
    [z] is tolerated by the dependency search, but the traversal still
    does not succeed: it ends with the [TypeError] of the constructor
    call, not with a record whose dependency set is empty. *)
Theorem traverse_split_graph_type_error :
  is_split_graph split_graph = true
  ∧ find_prereq (PipelineError:=Empty_set) split_graph ∅
      (quantum_of [("z", 7%nat)] [("x", 7%nat)]) = Ok []
  ∧ run split_graph
    = ([], Some (TypeError "__init__() got an unexpected keyword argument" "index")).
Proof. repeat split; by vm_compute. Qed.

(** The rest of the scenario: built by field name the split graph yields
    one record without dependencies, and with two quanta the same missing
    producer is a [KeyError], whichever keyword is used. *)
Example split_graph_by_field_name :
  (λ r, (quantumId r, elements (dependencies r))) <$> (run_by_field_name split_graph).1
  = [(0%nat, [])]
  ∧ (run_by_field_name split_graph).2 = None.
Proof. split; by vm_compute. Qed.

Example two_quanta_key_error :
  run two_quanta = ([], Some (KeyError ("z", 7%nat)))
  ∧ run_by_field_name two_quanta = ([], Some (KeyError ("z", 7%nat))).
Proof. split; by vm_compute. Qed.

Lemma traverse_first_quantum_raises_witness :
  run a_then_b
  = ([], Some (TypeError "__init__() got an unexpected keyword argument" "index")).
Proof.
  apply (traverse_first_quantum_raises (λ t, t) already_ordered a_then_b
           1%nat (quantum_of [] [("x", 7%nat)])
           [(2%nat, quantum_of [("x", 7%nat)] [("y", 7%nat)])]).
  reflexivity.
Defined.

(** A pipeline order that is not the order of the graph. *)
Definition reversed_order (tasks : list nat) : result Empty_set (list nat) :=
  Ok (reverse tasks).

Lemma orderedTaskNodes_permutation_witness :
  ∃ nodes, orderedTaskNodes (λ t, t) reversed_order a_then_b = (nodes, None)
           ∧ nodes ≡ₚ a_then_b
           ∧ (λ item, taskDef item) <$> nodes = [2%nat; 1%nat].
Proof.
  apply (orderedTaskNodes_permutation (λ t, t) reversed_order a_then_b
           [2%nat; 1%nat]).
  - apply (bool_decide_unpack _). by vm_compute.
  - reflexivity.
  - apply perm_swap.
Defined.

(** Two tasks for which no quantum was generated. *)
Definition no_quanta : @QuantumGraph nat nat :=
  [ {| taskDef := 1%nat; quanta := [] |}; {| taskDef := 2%nat; quanta := [] |} ].

Lemma traverse_without_quanta_witness : run no_quanta = ([], None).
Proof.
  apply (traverse_without_quanta (λ t, t) already_ordered no_quanta
           [1%nat; 2%nat]).
  - intros item Hitem. unfold no_quanta in Hitem.
    repeat (apply elem_of_cons in Hitem as [->|Hitem]; [reflexivity|]).
    by apply elem_of_nil in Hitem.
  - reflexivity.
  - intros t Ht. unfold no_quanta.
    apply elem_of_cons in Ht as [->|Ht];
      [exists {| taskDef := 1%nat; quanta := [] |}; split; [by left|done]|].
    apply elem_of_cons in Ht as [->|Ht];
      [exists {| taskDef := 2%nat; quanta := [] |}; split; [by right; left|done]|].
    by apply elem_of_nil in Ht.
Defined.

Lemma find_prereq_found_witness :
  find_prereq (PipelineError:=Empty_set) a_then_b {[ ("x", 7%nat) := 0%nat ]}
    (quantum_of [("x", 7%nat)] [("y", 7%nat)])
  = Ok [0%nat].
Proof.
  rewrite (find_prereq_found (PipelineError:=Empty_set) a_then_b
             {[ ("x", 7%nat) := 0%nat ]}
             (quantum_of [("x", 7%nat)] [("y", 7%nat)])).
  - by vm_compute.
  - apply Forall_cons. split; [|apply Forall_nil_2].
    right. by vm_compute; eexists.
Defined.

Lemma find_prereq_key_error_witness :
  find_prereq (PipelineError:=Empty_set) two_quanta ∅
    (quantum_of [("z", 7%nat)] [("x", 7%nat)])
  = Raise (KeyError ("z", 7%nat)).
Proof.
  apply (find_prereq_key_error (PipelineError:=Empty_set) two_quanta ∅
           (quantum_of [("z", 7%nat)] [("x", 7%nat)]) []
           (predicted "z" 7%nat) []).
  - reflexivity.
  - reflexivity.
  - apply Forall_nil_2.
  - reflexivity.
  - reflexivity.
Defined.

End Traverse.


(** * Column layout of a DAG ([visualization/_layout.py]) *)

Module Layout.

Section layout.

(** Node keys; hashable, compared by value. *)
Context {K : Type} `{EqDecision K}.

(** ** The [networkx.DiGraph] operations the layout uses

    A graph is its node dict (in insertion order) and its edges. *)
Record DiGraph := {
  nodes : list K;
  edges : list (K * K);
}.

Definition has_node (g : DiGraph) (n : K) : bool := bool_decide (n ∈ nodes g).

Definition successors (g : DiGraph) (n : K) : list K :=
  remove_dups ((filter (λ e, e.1 = n) (edges g)).*2).

Definition in_degree (g : DiGraph) (n : K) : nat :=
  length (remove_dups ((filter (λ e, e.2 = n) (edges g)).*1)).

Definition out_degree (g : DiGraph) (n : K) : nat := length (successors g n).

Definition remove_node (g : DiGraph) (n : K) : DiGraph :=
  {| nodes := filter (λ m, m ≠ n) (nodes g);
     edges := filter (λ e, e.1 ≠ n ∧ e.2 ≠ n) (edges g) |}.

(** [g.subgraph(ns)]: the nodes of [ns] that are in [g] and the edges of [g]
    between them. *)
Definition subgraph (g : DiGraph) (ns : list K) : DiGraph :=
  {| nodes := filter (λ m, m ∈ ns) (nodes g);
     edges := filter (λ e, e.1 ∈ ns ∧ e.2 ∈ ns) (edges g) |}.

(** ** Collaborators

    The graph algorithms of networkx, any of which may raise, and the order
    in which Python iterates over a set with the given elements. Nothing is
    assumed of them. *)
Context {NxError : Type}.
Variable weakly_connected_components : DiGraph → list (list K).
Variable dag_longest_path : DiGraph → result NxError (list K).
Variable ancestors : DiGraph → K → result NxError (list K).
Variable set_iter : list K → list K.

(** The order [<] of node keys, used when rows sort their edge lists. *)
Variable key_ltb : K → K → bool.

Inductive Exc :=
| AssertionError (nodes : list K)
| KeyError (k : K)
| RecursionError
| OutOfFuel
| NxExc (e : NxError).

Definition lift_nx {A} (r : result NxError A) : result Exc A :=
  match r with Ok a => Ok a | Raise e => Raise (NxExc e) end.

(** ** The state of a [Layout] under construction *)
Record State := {
  todo_graph : DiGraph;
  active_columns : list (nat * list K);
  locations : list (K * nat);
  x_max : nat;
}.

(** The first loop of [_add_unblocked_node]: [node] is removed from the
    endpoints of every active column, and a column left without endpoints
    is deleted. *)
Definition terminate_at (node : K) (active : list (nat * list K))
  : list (nat * list K) :=
  omap (λ col,
          if decide (node ∈ col.2) then
            match filter (λ m, m ≠ node) col.2 with
            | [] => None
            | rest => Some (col.1, rest)
            end
          else Some col) active.

(** [for node_x in itertools.count(): if node_x not in active_columns: break];
    the search needs at most as many steps as there are columns. *)
Fixpoint first_free_from (cols : list nat) (fuel : nat) (node_x : nat) : nat :=
  match fuel with
  | O => node_x
  | S fuel' =>
      if decide (node_x ∈ cols) then first_free_from cols fuel' (S node_x)
      else node_x
  end.

Definition first_free (active : list (nat * list K)) : nat :=
  first_free_from active.*1 (length active) 0.

(** [d[k] = v] on a dict kept in insertion order. *)
Fixpoint dict_set {V} (d : list (K * V)) (k : K) (v : V) : list (K * V) :=
  match d with
  | [] => [(k, v)]
  | (k', v') :: d' =>
      if decide (k' = k) then (k, v) :: d' else (k', v') :: dict_set d' k v
  end.

Definition dict_get {V} (d : list (K * V)) (k : K) : option V :=
  (λ kv, kv.2.2) <$> list_find (λ kv, kv.1 = k) d.

(** [Layout._add_unblocked_node] *)
Definition _add_unblocked_node (st : State) (node : K) : result Exc (State * nat) :=
  if negb (has_node (todo_graph st) node
           && bool_decide (in_degree (todo_graph st) node = 0%nat))
  then Raise (AssertionError [node])
  else
    let active := terminate_at node (active_columns st) in
    let node_x := first_free active in
    let outgoing := successors (todo_graph st) node in
    Ok ({| todo_graph := remove_node (todo_graph st) node;
           active_columns :=
             match outgoing with
             | [] => active
             | _ => active ++ [(node_x, outgoing)]
             end;
           locations := dict_set (locations st) node node_x;
           x_max := Nat.max node_x (x_max st) |},
        node_x).

(** [sorted(unblocked, key=..., reverse=True)]: a stable sort, largest key
    first. *)
Fixpoint insert_desc (key : K → nat) (n : K) (sorted : list K) : list K :=
  match sorted with
  | [] => [n]
  | m :: rest =>
      if decide (key m < key n)%nat then n :: m :: rest
      else m :: insert_desc key n rest
  end.

Definition sorted_desc (key : K → nat) (l : list K) : list K :=
  foldl (λ sorted n, insert_desc key n sorted) [] l.

(** The [for] loop of [_add_active_unblocked]: nodes without outgoing edges
    are added at once, the others are collected in the set [unblocked]. *)
Definition scan_step (avoid : K) (acc : State * list K) (node : K)
  : result Exc (State * list K) :=
  let st := acc.1 in
  if bool_decide (node ≠ avoid) && has_node (todo_graph st) node
       && bool_decide (in_degree (todo_graph st) node = 0%nat)
  then
    if bool_decide (out_degree (todo_graph st) node = 0%nat)
    then let? r := _add_unblocked_node st node in Ok (r.1, acc.2)
    else Ok (st, if decide (node ∈ acc.2) then acc.2 else acc.2 ++ [node])
  else Ok acc.

Definition place (st : State) (node : K) : result Exc State :=
  let? r := _add_unblocked_node st node in Ok r.1.

(** [Layout._add_active_unblocked]; [fuel] bounds the rounds of the
    [while True]. A round that does not return adds the nodes of [unblocked],
    so one round more than there are nodes still to do is enough. *)
Fixpoint _add_active_unblocked (fuel : nat) (st : State) (avoid : K)
  : result Exc State :=
  match fuel with
  | O => Raise OutOfFuel
  | S fuel' =>
      let candidates := active_columns st ≫= λ col, set_iter col.2 in
      let? r := for_each (scan_step avoid) candidates (st, []) in
      match r.2 with
      | [] => Ok r.1
      | unblocked =>
          let order :=
            sorted_desc (out_degree (todo_graph r.1)) (set_iter unblocked) in
          let? st' := for_each place order r.1 in
          _add_active_unblocked fuel' st' avoid
      end
  end.

(** Body of the loop of [_add_connected_graph] over the longest path;
    [recurse] is the recursive call. *)
Definition path_step (recurse : State → DiGraph → result Exc State)
    (st : State) (node : K) : result Exc State :=
  let? st1 :=
    _add_active_unblocked (S (length (nodes (todo_graph st)))) st node in
  let? anc := lift_nx (ancestors (todo_graph st1) node) in
  match anc with
  | [] => place st1 node
  | _ => recurse st1 (subgraph (todo_graph st1) (anc ++ [node]))
  end.

(** [Layout._add_connected_graph]; the recursion is on the remaining
    ancestors of a node of the path, and [fuel] bounds its depth. *)
Fixpoint _add_connected_graph (fuel : nat) (st : State) (xgraph : DiGraph)
  : result Exc State :=
  match fuel with
  | O => Raise RecursionError
  | S fuel' =>
      let? path := lift_nx (dag_longest_path xgraph) in
      for_each (path_step (_add_connected_graph fuel')) path st
  end.

(** A finished layout: what is left after the [del]s of [__init__]. *)
Record Layout := {
  _graph : DiGraph;
  _locations : list (K * nat);
  l_x_max : nat;
}.

(** [Layout.__init__] *)
Definition init (fuel : nat) (graph : DiGraph) : result Exc Layout :=
  let st0 := {| todo_graph := graph; active_columns := [];
                locations := []; x_max := 0 |} in
  let? st := for_each (λ st component,
                         _add_connected_graph fuel st (subgraph graph component))
               (weakly_connected_components graph) st0 in
  match nodes (todo_graph st) with
  | [] => Ok {| _graph := graph; _locations := locations st; l_x_max := x_max st |}
  | rest => Raise (AssertionError rest)
  end.

(** ** Iterating a layout *)

Record LayoutRow := {
  node : K;
  x : Z;
  terminating : list (Z * K);
  continuing : list (Z * K * list K);
}.

(** [self.x_max - self._locations[origin]] *)
Definition column_of (l : Layout) (origin : K) : result Exc Z :=
  match dict_get (_locations l) origin with
  | Some origin_x => Ok (Z.of_nat (l_x_max l) - Z.of_nat origin_x)
  | None => Raise (KeyError origin)
  end.

(** [list.sort()] on tuples that start with a column and a node key. *)
Definition tuple_ltb (a b : Z * K) : bool :=
  (a.1 <? b.1)%Z || ((a.1 =? b.1)%Z && key_ltb a.2 b.2).

Fixpoint insert_sorted {A} (key : A → Z * K) (a : A) (sorted : list A) : list A :=
  match sorted with
  | [] => [a]
  | b :: rest =>
      if tuple_ltb (key a) (key b) then a :: b :: rest
      else b :: insert_sorted key a rest
  end.

Definition sort_tuples {A} (key : A → Z * K) (l : list A) : list A :=
  foldl (λ sorted a, insert_sorted key a sorted) [] l.

(** The locals of one round of [__iter__]: the row being filled and the
    entries of [active_edges] already visited. *)
Record RowAcc := {
  acc_terminating : list (Z * K);
  acc_continuing : list (Z * K * list K);
  acc_edges : list (K * list K);
}.

(** Body of [for origin, destinations in active_edges.items()]. *)
Definition row_step (l : Layout) (n : K) (acc : RowAcc) (entry : K * list K)
  : result Exc RowAcc :=
  let origin := entry.1 in
  let? hit :=
    if decide (n ∈ entry.2) then
      let? c := column_of l origin in
      Ok (acc_terminating acc ++ [(c, origin)], filter (λ m, m ≠ n) entry.2)
    else Ok (acc_terminating acc, entry.2) in
  let? cont :=
    match hit.2 with
    | [] => Ok (acc_continuing acc)
    | destinations =>
        let? c := column_of l origin in
        Ok (acc_continuing acc ++ [(c, origin, destinations)])
    end in
  Ok {| acc_terminating := hit.1;
        acc_continuing := cont;
        acc_edges := acc_edges acc ++ [(origin, hit.2)] |}.

(** Body of [for node, node_x in self._locations.items()]: the row that is
    yielded and the new [active_edges]. *)
Definition iter_step (l : Layout) (acc : list LayoutRow * list (K * list K))
    (item : K * nat) : result Exc (list LayoutRow * list (K * list K)) :=
  let? r := for_each (row_step l item.1) acc.2
              {| acc_terminating := []; acc_continuing := []; acc_edges := [] |} in
  let row := {| node := item.1;
                x := Z.of_nat (l_x_max l) - Z.of_nat item.2;
                terminating := sort_tuples (λ t, t) (acc_terminating r);
                continuing := sort_tuples (λ t, t.1) (acc_continuing r) |} in
  Ok (acc.1 ++ [row],
      dict_set (acc_edges r) item.1 (successors (_graph l) item.1)).

(** [Layout.__iter__], run to its end. *)
Definition iter (l : Layout) : result Exc (list LayoutRow) :=
  let? r := for_each (iter_step l) (_locations l) ([], []) in Ok r.1.

(** ** Graph and dict lemmas *)

Lemma elem_of_successors g n w : w ∈ successors g n ↔ (n, w) ∈ edges g.
Proof.
  unfold successors. rewrite elem_of_remove_dups, list_elem_of_fmap. split.
  - intros ([a b] & -> & [Ha Hb]%list_elem_of_filter). simpl in *. by subst.
  - intros He. exists (n, w). split; [done|]. by apply list_elem_of_filter.
Qed.

Lemma in_degree_0 g n p : in_degree g n = 0%nat → (p, n) ∉ edges g.
Proof.
  unfold in_degree. intros Hl He.
  assert (p ∈ remove_dups (filter (λ e, e.2 = n) (edges g)).*1) as Hin.
  { apply elem_of_remove_dups, list_elem_of_fmap. exists (p, n).
    split; [done|]. by apply list_elem_of_filter. }
  apply length_zero_iff_nil in Hl. rewrite Hl in Hin. by apply elem_of_nil in Hin.
Qed.

Lemma dict_set_fresh {V} (d : list (K * V)) k v :
  k ∉ d.*1 → dict_set d k v = d ++ [(k, v)].
Proof.
  induction d as [|[k' v'] d IH]; simpl; [done|].
  intros [Hne Hd]%not_elem_of_cons. destruct (decide (k' = k)); [done|].
  by rewrite IH.
Qed.

Lemma dict_get_Some {V} (d : list (K * V)) k :
  k ∈ d.*1 → is_Some (dict_get d k).
Proof.
  intros ([k' v] & -> & Hin)%list_elem_of_fmap. unfold dict_get.
  destruct (list_find (λ kv, kv.1 = (k', v).1) d) as [r|] eqn:E; [by eexists|].
  apply list_find_None in E. rewrite Forall_forall in E.
  by destruct (E _ Hin).
Qed.

Lemma filter_length_drop (P Q : nat → Prop)
    `{∀ c, Decision (P c)} `{∀ c, Decision (Q c)} (l : list nat) c :
  (∀ a, Q a → P a) → c ∈ l → P c → ¬ Q c →
  (length (filter Q l) < length (filter P l))%nat.
Proof.
  intros Hqp. induction l as [|a l IH]; [by intros ?%elem_of_nil|].
  assert (length (filter Q l) ≤ length (filter P l))%nat as Hle.
  { clear IH. induction l as [|b l IHl]; [done|].
    rewrite !filter_cons. destruct (decide (Q b)) as [Hq|].
    - destruct (decide (P b)) as [|Hpb]; [|by destruct Hpb; auto]. simpl. lia.
    - destruct (decide (P b)); simpl; lia. }
  intros [->|Hin]%elem_of_cons Hp Hq; rewrite !filter_cons.
  - destruct (decide (Q a)); [done|]. destruct (decide (P a)); [|done].
    simpl. lia.
  - specialize (IH Hin Hp Hq). destruct (decide (Q a)) as [Hqa|].
    + destruct (decide (P a)) as [|Hpa]; [|by destruct Hpa; auto]. simpl. lia.
    + destruct (decide (P a)); simpl; lia.
Qed.

Lemma first_free_from_fresh cols : ∀ fuel n,
  (length (filter (λ c, n ≤ c)%nat cols) ≤ fuel)%nat →
  first_free_from cols fuel n ∉ cols.
Proof.
  induction fuel as [|fuel IH]; intros n Hlen; simpl.
  - intros Hin. assert (n ∈ filter (λ c, n ≤ c)%nat cols) as Hf
      by by apply list_elem_of_filter.
    destruct (filter (λ c, n ≤ c)%nat cols); [by apply elem_of_nil in Hf|].
    simpl in Hlen. lia.
  - destruct (decide (n ∈ cols)) as [Hin|]; [|done]. apply IH.
    pose proof (filter_length_drop (λ c, n ≤ c)%nat (λ c, S n ≤ c)%nat cols n)
      as Hd.
    specialize (Hd ltac:(simpl; intros; lia) Hin ltac:(simpl; lia) ltac:(simpl; lia)).
    simpl in Hd. lia.
Qed.

Lemma first_free_fresh (active : list (nat * list K)) :
  first_free active ∉ active.*1.
Proof.
  apply first_free_from_fresh.
  etrans; [apply length_filter|]. by rewrite length_fmap.
Qed.

Lemma filter_all (P : K → Prop) `{∀ m, Decision (P m)} (l : list K) :
  (∀ m, m ∈ l → P m) → filter P l = l.
Proof.
  induction l as [|a l IH]; intros Hall; [done|].
  rewrite filter_cons_True by (apply Hall; left).
  f_equal. apply IH. intros m Hm. apply Hall. by right.
Qed.

Lemma elem_of_terminate_at n active c eps' :
  (c, eps') ∈ terminate_at n active →
  ∃ eps, (c, eps) ∈ active ∧ eps' = filter (λ m, m ≠ n) eps.
Proof.
  unfold terminate_at. intros ([c0 eps] & Hin & Hf)%list_elem_of_omap.
  simpl in Hf. exists eps. destruct (decide (n ∈ eps)) as [Hn|Hn].
  - destruct (filter (λ m, m ≠ n) eps) eqn:E; [done|].
    injection Hf as <- <-. done.
  - injection Hf as <- <-. split; [done|].
    symmetry. apply filter_all. by intros m Hm ->.
Qed.

Lemma terminate_at_keeps n active c eps w :
  (c, eps) ∈ active → w ∈ eps → w ≠ n →
  ∃ eps', (c, eps') ∈ terminate_at n active ∧ w ∈ eps'.
Proof.
  intros Hin Hw Hne. unfold terminate_at.
  destruct (decide (n ∈ eps)) as [Hn|Hn].
  - exists (filter (λ m, m ≠ n) eps). split; [|by apply list_elem_of_filter].
    apply list_elem_of_omap. exists (c, eps). split; [done|]. simpl.
    rewrite decide_True by done.
    destruct (filter (λ m, m ≠ n) eps) eqn:E; [|done].
    assert (w ∈ filter (λ m, m ≠ n) eps) as Hf by by apply list_elem_of_filter.
    rewrite E in Hf. by apply elem_of_nil in Hf.
  - exists eps. split; [|done]. apply list_elem_of_omap. exists (c, eps).
    split; [done|]. simpl. by rewrite decide_False.
Qed.

Lemma terminate_at_keys n active :
  (terminate_at n active).*1 `sublist_of` active.*1.
Proof.
  unfold terminate_at. induction active as [|[c eps] active IH]; simpl; [done|].
  destruct (decide (n ∈ eps)).
  - destruct (filter (λ m, m ≠ n) eps); simpl.
    + by apply sublist_cons.
    + by apply sublist_skip.
  - simpl. by apply sublist_skip.
Qed.

(** ** The invariant of the construction *)

Definition placed (st : State) : list K := (locations st).*1.

(** Every node comes after its predecessors. *)
Definition topological (g : DiGraph) (locs : list (K * nat)) : Prop :=
  ∀ i n p, locs.*1 !! i = Some n → (p, n) ∈ edges g →
           ∃ j, (j < i)%nat ∧ locs.*1 !! j = Some p.

(** A node [v] placed while an edge [(u, w)] out of an earlier node [u] is
    still live ([w] comes after [v]) is not in the column of [u]. *)
Definition live_columns_kept (g : DiGraph) (locs : list (K * nat)) : Prop :=
  ∀ i j u cu v cv w,
    locs !! i = Some (u, cu) → locs !! j = Some (v, cv) → (i < j)%nat →
    (u, w) ∈ edges g → (∀ k, (k ≤ j)%nat → locs.*1 !! k ≠ Some w) →
    cu ≠ cv.

Record Inv (g : DiGraph) (st : State) : Prop := {
  inv_nodup : NoDup (placed st);
  inv_placed : ∀ n, n ∈ placed st → n ∈ nodes g;
  inv_nodes : ∀ n, n ∈ nodes (todo_graph st) ↔ n ∈ nodes g ∧ n ∉ placed st;
  inv_edges : ∀ e, e ∈ edges (todo_graph st)
                   ↔ e ∈ edges g ∧ (e.1 ∉ placed st) ∧ (e.2 ∉ placed st);
  inv_topo : topological g (locations st);
  inv_cols : NoDup (active_columns st).*1;
  inv_live : ∀ u c w, (u, c) ∈ locations st → (u, w) ∈ edges g →
                      w ∉ placed st →
                      ∃ eps, (c, eps) ∈ active_columns st ∧ w ∈ eps;
  inv_clash : live_columns_kept g (locations st);
}.

Lemma Inv_init g :
  Inv g {| todo_graph := g; active_columns := []; locations := []; x_max := 0 |}.
Proof.
  split; simpl; unfold placed; simpl.
  - constructor.
  - by intros n ?%elem_of_nil.
  - intros n. split; [intros Hn; split; [done|by intros ?%elem_of_nil]|by intros []].
  - intros e. split; [intros He|by intros []].
    repeat split; [done|by intros ?%elem_of_nil..].
  - intros i n p Hi. done.
  - constructor.
  - intros u c w Hu. by apply elem_of_nil in Hu.
  - intros i j u cu v cv w Hi. done.
Qed.

(** What the assertion of [_add_unblocked_node] gives. *)
Lemma add_unblocked_node_guard st n st' c :
  _add_unblocked_node st n = Ok (st', c) →
  n ∈ nodes (todo_graph st) ∧ in_degree (todo_graph st) n = 0%nat
  ∧ c = first_free (terminate_at n (active_columns st))
  ∧ todo_graph st' = remove_node (todo_graph st) n
  ∧ locations st' = dict_set (locations st) n c
  ∧ x_max st' = Nat.max c (x_max st)
  ∧ active_columns st'
    = match successors (todo_graph st) n with
      | [] => terminate_at n (active_columns st)
      | out => terminate_at n (active_columns st) ++ [(c, out)]
      end.
Proof.
  unfold _add_unblocked_node, has_node.
  destruct (bool_decide (n ∈ nodes (todo_graph st))) eqn:Hn; simpl; [|done].
  destruct (bool_decide (in_degree (todo_graph st) n = 0%nat)) eqn:Hd;
    simpl; [|done].
  apply bool_decide_eq_true in Hn, Hd. intros [= <- <-]. simpl.
  repeat split; try done. by destruct (successors (todo_graph st) n).
Qed.

Lemma add_unblocked_node_inv g st n st' c :
  Inv g st → _add_unblocked_node st n = Ok (st', c) → Inv g st'.
Proof.
  intros [Hnd Hpl Hnodes Hedges Htopo Hcols Hlive Hclash] Hrun.
  apply add_unblocked_node_guard in Hrun
    as (Hn & Hdeg & Hc & Htodo & Hloc & _ & Hact).
  destruct (proj1 (Hnodes n) Hn) as [Hng Hnp].
  rewrite dict_set_fresh in Hloc by done.
  set (active := terminate_at n (active_columns st)) in Hc, Hact.
  assert (c ∉ active.*1) as Hfresh by (rewrite Hc; apply first_free_fresh).
  assert (∀ p, (p, n) ∈ edges g → p ∈ placed st) as Hpreds.
  { intros p Hp. destruct (decide (p ∈ placed st)) as [|Hpp]; [done|].
    destruct (in_degree_0 _ _ p Hdeg). by apply Hedges. }
  assert (∀ a eps, (a, eps) ∈ active → ∃ eps', (a, eps') ∈ active_columns st'
                                          ∧ eps' = eps) as Hkeep.
  { intros a eps Ha. exists eps. split; [|done]. rewrite Hact.
    destruct (successors (todo_graph st) n); [done|].
    apply elem_of_app. by left. }
  split; unfold placed, topological, live_columns_kept;
    rewrite ?Hloc, ?Htodo, ?fmap_app; simpl.
  - apply NoDup_app. split; [done|]. split; [|apply NoDup_singleton].
    intros m Hm ->%list_elem_of_singleton. done.
  - intros m [Hm|Hm%list_elem_of_singleton]%elem_of_app;
      [by apply Hpl|by subst].
  - intros m. rewrite list_elem_of_filter, Hnodes, elem_of_app,
      list_elem_of_singleton. unfold placed.
    clear weakly_connected_components dag_longest_path ancestors set_iter key_ltb.
    tauto.
  - intros e. rewrite list_elem_of_filter, Hedges, !elem_of_app,
      !list_elem_of_singleton. unfold placed.
    clear weakly_connected_components dag_longest_path ancestors set_iter key_ltb.
    tauto.
  - intros i m p Hi Hpm.
    destruct (decide (i < length (locations st).*1)%nat) as [Hlt|Hge].
    + rewrite lookup_app_l in Hi by done.
      destruct (Htopo i m p Hi Hpm) as (j & Hj & Hjp).
      exists j. split; [done|]. rewrite lookup_app_l; [done|lia].
    + rewrite lookup_app_r in Hi by lia.
      apply list_lookup_singleton_Some in Hi as [Hi0 <-].
      apply Hpreds, list_elem_of_lookup in Hpm as [j Hj]. unfold placed in Hj.
      exists j. pose proof (lookup_lt_Some _ _ _ Hj).
      split; [lia|]. by rewrite lookup_app_l.
  - rewrite Hact. assert (NoDup active.*1) as Hna.
    { eapply sublist_NoDup; [exact Hcols|apply terminate_at_keys]. }
    destruct (successors (todo_graph st) n); [done|].
    rewrite fmap_app. apply NoDup_app. split; [done|].
    split; [|apply NoDup_singleton].
    intros a Ha ->%list_elem_of_singleton. done.
  - intros u cu w [Hu|[= -> ->]%list_elem_of_singleton]%elem_of_app Huw
      [Hwp Hwn%not_elem_of_cons]%not_elem_of_app.
    + destruct (Hlive u cu w Hu Huw Hwp) as (eps & Heps & Hw).
      destruct (terminate_at_keeps n _ cu eps w Heps Hw) as (eps' & He' & Hw');
        [by destruct Hwn|].
      destruct (Hkeep _ _ He') as (? & ? & ->). eauto.
    + assert (w ∈ successors (todo_graph st) n) as Hs.
      { apply elem_of_successors, Hedges. by destruct Hwn. }
      exists (successors (todo_graph st) n). split; [|done]. rewrite Hact.
      destruct (successors (todo_graph st) n) eqn:E;
        [by apply elem_of_nil in Hs|].
      apply elem_of_app. right. by apply list_elem_of_singleton.
  - intros i j u cu v cv w Hi Hj Hij Huw Hw.
    assert (i < length (locations st))%nat as Hilt.
    { apply lookup_lt_Some in Hj. rewrite length_app in Hj. simpl in Hj. lia. }
    rewrite lookup_app_l in Hi by done.
    destruct (decide (j < length (locations st))%nat) as [Hlt|Hge].
    + rewrite lookup_app_l in Hj by done.
      apply (Hclash i j u cu v cv w); try done.
      intros k Hk. specialize (Hw k Hk).
      rewrite lookup_app_l in Hw; [done|rewrite length_fmap; lia].
    + rewrite lookup_app_r in Hj by lia.
      apply list_lookup_singleton_Some in Hj as [Hj0 [= <- <-]].
      assert (w ∉ (locations st).*1 ++ [n]) as Hwp.
      { intros [k Hk]%list_elem_of_lookup.
        apply (Hw k); [|done]. apply lookup_lt_Some in Hk.
        rewrite length_app, length_fmap in Hk. simpl in Hk. lia. }
      apply not_elem_of_app in Hwp as [Hwp Hwn%not_elem_of_cons].
      destruct (Hlive u cu w) as (eps & Heps & Hwe);
        [by eapply list_elem_of_lookup_2|done|done|].
      destruct (terminate_at_keeps n _ cu eps w Heps Hwe) as (eps' & He' & _);
        [by destruct Hwn|].
      intros ->. apply Hfresh. apply list_elem_of_fmap. by exists (c, eps').
Qed.

Lemma place_inv g st n st' : Inv g st → place st n = Ok st' → Inv g st'.
Proof.
  unfold place. intros HI.
  destruct (_add_unblocked_node st n) as [[st1 c]|] eqn:E; [|done].
  simpl. intros [= <-]. by eapply add_unblocked_node_inv.
Qed.

Lemma scan_step_inv g avoid acc n acc' :
  Inv g acc.1 → scan_step avoid acc n = Ok acc' → Inv g acc'.1.
Proof.
  unfold scan_step. intros HI.
  destruct (_ && _ && _); [|by intros [= <-]].
  destruct (bool_decide _); [|by intros [= <-]].
  destruct (_add_unblocked_node acc.1 n) as [[st1 c]|] eqn:E; [|done].
  simpl. intros [= <-]. simpl. by eapply add_unblocked_node_inv.
Qed.

Lemma add_active_unblocked_inv g avoid fuel : ∀ st st',
  Inv g st → _add_active_unblocked fuel st avoid = Ok st' → Inv g st'.
Proof using Type.
  induction fuel as [|fuel IH]; intros st st' HI; simpl; [done|].
  destruct (for_each (scan_step avoid) _ (st, [])) as [r|] eqn:E1; [|done].
  simpl.
  apply (for_each_preserves (λ acc, Inv g acc.1)) in E1;
    [|by intros; eapply scan_step_inv|done].
  destruct r.2 as [|u unblocked]; [by intros [= <-]|].
  destruct (for_each place _ r.1) as [st1|] eqn:E2; [|done]. simpl.
  apply IH.
  eapply (for_each_preserves (Inv g)); [|exact E1|exact E2].
  intros. by eapply place_inv.
Qed.

Lemma add_connected_graph_inv g fuel : ∀ st xgraph st',
  Inv g st → _add_connected_graph fuel st xgraph = Ok st' → Inv g st'.
Proof using Type.
  induction fuel as [|fuel IH]; intros st xgraph st' HI; simpl; [done|].
  destruct (lift_nx (dag_longest_path xgraph)) as [path|]; [|done]. simpl.
  apply for_each_preserves; [|done].
  clear st st' HI. intros st n st' HI. unfold path_step.
  destruct (_add_active_unblocked _ st n) as [st1|] eqn:E1; [|done]. simpl.
  apply add_active_unblocked_inv with (g := g) in E1; [|done].
  destruct (lift_nx (ancestors (todo_graph st1) n)) as [anc|]; [|done]. simpl.
  destruct anc; [by apply place_inv|by apply IH].
Qed.

(** What a finished layout satisfies. *)
Record Laid_out (g : DiGraph) (l : Layout) : Prop := {
  lo_graph : _graph l = g;
  lo_nodup : NoDup (_locations l).*1;
  lo_placed : ∀ n, n ∈ (_locations l).*1 → n ∈ nodes g;
  lo_all : ∀ n, n ∈ nodes g → n ∈ (_locations l).*1;
  lo_topo : topological g (_locations l);
  lo_clash : live_columns_kept g (_locations l);
}.

Lemma init_laid_out fuel g l : init fuel g = Ok l → Laid_out g l.
Proof using Type.
  unfold init.
  destruct (for_each _ (weakly_connected_components g) _) as [st|] eqn:E;
    [|done]. simpl.
  apply (for_each_preserves (Inv g)) in E;
    [|by intros; eapply add_connected_graph_inv|apply Inv_init].
  destruct (nodes (todo_graph st)) eqn:En; [|done]. intros [= <-].
  destruct E as [Hnd Hpl Hnodes Hedges Htopo Hcols Hlive Hclash].
  split; simpl; try done.
  intros n Hn. destruct (decide (n ∈ placed st)) as [|Hnp]; [done|].
  assert (n ∈ nodes (todo_graph st)) as Hin by by apply Hnodes.
  rewrite En in Hin. by apply elem_of_nil in Hin.
Qed.

(** ** Iteration never fails, and lists the locations in order *)

Lemma dict_set_keys {V} (d : list (K * V)) k v o :
  o ∈ (dict_set d k v).*1 → o ∈ d.*1 ∨ o = k.
Proof.
  induction d as [|[k' v'] d IH]; simpl.
  - intros ->%list_elem_of_singleton. by right.
  - destruct (decide (k' = k)) as [->|]; simpl.
    + intros [->|Ho]%elem_of_cons; [by right|]. left. by right.
    + intros [->|Ho]%elem_of_cons; [left; by left|].
      destruct (IH Ho) as [?|?]; [left; by right|by right].
Qed.

Lemma column_of_placed l origin :
  origin ∈ (_locations l).*1 → ∃ c, column_of l origin = Ok c.
Proof.
  intros [c Hc]%dict_get_Some. unfold column_of. rewrite Hc. eauto.
Qed.

Lemma row_loop_ok l n ae : ∀ acc,
  (∀ o, o ∈ ae.*1 → o ∈ (_locations l).*1) →
  ∃ r, for_each (row_step l n) ae acc = Ok r
       ∧ (acc_edges r).*1 = (acc_edges acc).*1 ++ ae.*1.
Proof using Type.
  induction ae as [|[origin dests] ae IH]; intros acc Hin; simpl.
  - exists acc. by rewrite app_nil_r.
  - destruct (column_of_placed l origin) as [c Hc]; [apply Hin; left|].
    assert (∃ acc', row_step l n acc (origin, dests) = Ok acc'
                    ∧ (acc_edges acc').*1 = (acc_edges acc).*1 ++ [origin])
      as (acc' & -> & Hk).
    { unfold row_step. simpl. rewrite Hc. simpl.
      destruct (decide (n ∈ dests)); simpl.
      - destruct (filter _ dests); simpl; eexists;
          (split; [done|]); simpl; by rewrite fmap_app.
      - destruct dests; simpl; eexists;
          (split; [done|]); simpl; by rewrite fmap_app. }
    simpl. destruct (IH acc') as (r & Hr & Hkr).
    { intros o Ho. apply Hin. by right. }
    exists r. split; [done|]. by rewrite Hkr, Hk, <-app_assoc.
Qed.

Definition row_column (l : Layout) (item : K * nat) : K * Z :=
  (item.1, Z.of_nat (l_x_max l) - Z.of_nat item.2).

Lemma iter_loop_ok l items : ∀ rows ae,
  (∀ kv, kv ∈ items → kv.1 ∈ (_locations l).*1) →
  (∀ o, o ∈ ae.*1 → o ∈ (_locations l).*1) →
  ∃ r, for_each (iter_step l) items (rows, ae) = Ok r
       ∧ (λ row, (node row, x row)) <$> r.1
         = ((λ row, (node row, x row)) <$> rows) ++ (row_column l <$> items).
Proof using Type.
  induction items as [|item items IH]; intros rows ae Hitems Hae; simpl.
  - eexists. split; [done|]. by rewrite app_nil_r.
  - unfold iter_step at 1. simpl.
    destruct (row_loop_ok l item.1 ae
                {| acc_terminating := []; acc_continuing := []; acc_edges := [] |}
                Hae) as (r & -> & Hkr).
    simpl.
    destruct (IH (rows ++ [{| node := item.1;
                              x := Z.of_nat (l_x_max l) - Z.of_nat item.2;
                              terminating := sort_tuples (λ t, t) (acc_terminating r);
                              continuing := sort_tuples (λ t, t.1) (acc_continuing r) |}])
                 (dict_set (acc_edges r) item.1 (successors (_graph l) item.1)))
      as (res & Hres & Hrows).
    { intros kv Hkv. apply Hitems. by right. }
    { intros o [Ho| ->]%dict_set_keys.
      - rewrite Hkr in Ho. simpl in Ho. by apply Hae.
      - apply Hitems. by left. }
    exists res. split; [done|]. rewrite Hrows, fmap_app. simpl.
    by rewrite <-app_assoc.
Qed.

Lemma iter_ok l :
  ∃ rows, iter l = Ok rows
          ∧ (λ row, (node row, x row)) <$> rows = row_column l <$> _locations l.
Proof using Type.
  destruct (iter_loop_ok l (_locations l) [] []) as (r & Hr & Hrows).
  - intros kv Hkv. by apply list_elem_of_fmap_2.
  - by intros o ?%elem_of_nil.
  - exists r.1. unfold iter. rewrite Hr. done.
Qed.

Lemma rows_nodes l (rows : list LayoutRow) :
  (λ row, (node row, x row)) <$> rows = row_column l <$> _locations l →
  node <$> rows = (_locations l).*1.
Proof.
  intros Heq. apply (f_equal (fmap fst)) in Heq.
  rewrite <-!list_fmap_compose in Heq. exact Heq.
Qed.

Lemma rows_lookup l (rows : list LayoutRow) i row :
  (λ row, (node row, x row)) <$> rows = row_column l <$> _locations l →
  rows !! i = Some row →
  ∃ c, _locations l !! i = Some (node row, c)
       ∧ x row = Z.of_nat (l_x_max l) - Z.of_nat c.
Proof.
  intros Heq Hi.
  assert (((λ row, (node row, x row)) <$> rows) !! i = Some (node row, x row))
    as Hl by by rewrite list_lookup_fmap, Hi.
  rewrite Heq, list_lookup_fmap in Hl.
  destruct (_locations l !! i) as [[n c]|]; [|done].
  injection Hl as <- <-. eauto.
Qed.

(** Whenever [Layout(graph)] is constructed, iterating it yields one row
    per node of the graph, and the row of every node comes strictly after
    the rows of all its predecessors in the graph. *)
Theorem layout_rows_after_predecessors fuel graph l :
  init fuel graph = Ok l →
  ∃ rows, iter l = Ok rows
    ∧ (∀ n, n ∈ nodes graph ↔ n ∈ node <$> rows)
    ∧ NoDup (node <$> rows)
    ∧ ∀ i n p, (node <$> rows) !! i = Some n → (p, n) ∈ edges graph →
               ∃ j, (j < i)%nat ∧ (node <$> rows) !! j = Some p.
Proof using Type.
  intros [Hg Hnd Hpl Hall Htopo Hclash]%init_laid_out.
  destruct (iter_ok l) as (rows & Hiter & Hrows).
  exists rows. split; [done|]. rewrite (rows_nodes l rows Hrows).
  repeat split; try done; [apply Hall|apply Hpl].
Qed.

(** Whenever [Layout(graph)] is constructed, the rows use at most as
    many distinct columns as the graph has nodes; and a node placed while an
    edge out of an earlier node is still live (the edge ends at a later row)
    is never in the column of that earlier node. *)
Theorem layout_columns fuel graph l :
  init fuel graph = Ok l →
  ∃ rows, iter l = Ok rows
    ∧ (length (remove_dups (x <$> rows)) ≤ length (remove_dups (nodes graph)))%nat
    ∧ ∀ i j k ru rv rw,
        rows !! i = Some ru → rows !! j = Some rv → rows !! k = Some rw →
        (i < j < k)%nat → (node ru, node rw) ∈ edges graph →
        x ru ≠ x rv.
Proof using Type.
  intros [Hg Hnd Hpl Hall Htopo Hclash]%init_laid_out.
  destruct (iter_ok l) as (rows & Hiter & Hrows).
  exists rows. split; [done|]. split.
  - transitivity (length (_locations l).*1).
    + rewrite <-(rows_nodes l rows Hrows), !length_fmap.
      rewrite <-(length_fmap x rows).
      apply submseteq_length, NoDup_submseteq; [apply NoDup_remove_dups|].
      intros c. by rewrite elem_of_remove_dups.
    + apply submseteq_length, NoDup_submseteq; [done|].
      intros n Hn. by apply elem_of_remove_dups, Hpl.
  - intros i j k ru rv rw Hi Hj Hk [Hij Hjk] Huw.
    destruct (rows_lookup l rows i ru Hrows Hi) as (cu & Hlu & ->).
    destruct (rows_lookup l rows j rv Hrows Hj) as (cv & Hlv & ->).
    destruct (rows_lookup l rows k rw Hrows Hk) as (cw & Hlw & _).
    assert (cu ≠ cv) as Hne; [|lia].
    apply (Hclash i j (node ru) cu (node rv) cv (node rw)); try done.
    intros k' Hk' Hw.
    assert ((_locations l).*1 !! k = Some (node rw)) as Hw'
      by by rewrite list_lookup_fmap, Hlw.
    pose proof (NoDup_lookup _ _ _ _ Hnd Hw Hw'). lia.
Qed.

(** ** The placements of a run

    The state of a layout under construction changes in
    [_add_unblocked_node] and nowhere else. The functions below are
    [_add_active_unblocked], [_add_connected_graph] and [__init__] once
    more, with a log: beside their result they give the state after every
    node placed, in order, whether the run returns or raises. *)
Definition Logged (A : Type) : Type := list State * result Exc A.

Definition log_ret {A} (a : A) : Logged A := ([], Ok a).

Definition log_lift {A} (r : result Exc A) : Logged A := ([], r).

Definition log_bind {A B} (m : Logged A) (k : A → Logged B) : Logged B :=
  match m.2 with
  | Ok a => (m.1 ++ (k a).1, (k a).2)
  | Raise e => (m.1, Raise e)
  end.

Notation "'let!' x := m 'in' k" := (log_bind m (λ x, k))
  (at level 10, x pattern, m at level 100, k at level 200).

Fixpoint log_for_each {A B} (body : A → B → Logged A) (xs : list B) (a : A)
  : Logged A :=
  match xs with
  | [] => log_ret a
  | x :: xs' => let! a' := body a x in log_for_each body xs' a'
  end.

Definition log_add_unblocked_node (st : State) (node : K)
  : Logged (State * nat) :=
  match _add_unblocked_node st node with
  | Ok r => ([r.1], Ok r)
  | Raise e => ([], Raise e)
  end.

Definition log_scan_step (avoid : K) (acc : State * list K) (node : K)
  : Logged (State * list K) :=
  let st := acc.1 in
  if bool_decide (node ≠ avoid) && has_node (todo_graph st) node
       && bool_decide (in_degree (todo_graph st) node = 0%nat)
  then
    if bool_decide (out_degree (todo_graph st) node = 0%nat)
    then let! r := log_add_unblocked_node st node in log_ret (r.1, acc.2)
    else log_ret (st, if decide (node ∈ acc.2) then acc.2 else acc.2 ++ [node])
  else log_ret acc.

Definition log_place (st : State) (node : K) : Logged State :=
  let! r := log_add_unblocked_node st node in log_ret r.1.

Fixpoint log_add_active_unblocked (fuel : nat) (st : State) (avoid : K)
  : Logged State :=
  match fuel with
  | O => log_lift (Raise OutOfFuel)
  | S fuel' =>
      let candidates := active_columns st ≫= λ col, set_iter col.2 in
      let! r := log_for_each (log_scan_step avoid) candidates (st, []) in
      match r.2 with
      | [] => log_ret r.1
      | unblocked =>
          let order :=
            sorted_desc (out_degree (todo_graph r.1)) (set_iter unblocked) in
          let! st' := log_for_each log_place order r.1 in
          log_add_active_unblocked fuel' st' avoid
      end
  end.

Definition log_path_step (recurse : State → DiGraph → Logged State)
    (st : State) (node : K) : Logged State :=
  let! st1 :=
    log_add_active_unblocked (S (length (nodes (todo_graph st)))) st node in
  let! anc := log_lift (lift_nx (ancestors (todo_graph st1) node)) in
  match anc with
  | [] => log_place st1 node
  | _ => recurse st1 (subgraph (todo_graph st1) (anc ++ [node]))
  end.

Fixpoint log_add_connected_graph (fuel : nat) (st : State) (xgraph : DiGraph)
  : Logged State :=
  match fuel with
  | O => log_lift (Raise RecursionError)
  | S fuel' =>
      let! path := log_lift (lift_nx (dag_longest_path xgraph)) in
      log_for_each (log_path_step (log_add_connected_graph fuel')) path st
  end.

(** The state in which [__init__] starts. *)
Definition start (graph : DiGraph) : State :=
  {| todo_graph := graph; active_columns := []; locations := []; x_max := 0 |}.

Definition log_init (fuel : nat) (graph : DiGraph) : Logged Layout :=
  let! st := log_for_each
               (λ st component,
                  log_add_connected_graph fuel st (subgraph graph component))
               (weakly_connected_components graph) (start graph) in
  match nodes (todo_graph st) with
  | [] => log_ret {| _graph := graph; _locations := locations st;
                     l_x_max := x_max st |}
  | rest => log_lift (Raise (AssertionError rest))
  end.

(** The states a run of [Layout(graph)] goes through: the start and the
    state after each node placed. *)
Definition placements (fuel : nat) (graph : DiGraph) : list State :=
  start graph :: (log_init fuel graph).1.

(** [trace s log s']: the states of [log] follow one another, from [s] to
    [s'], each by one call of [_add_unblocked_node]. *)
Inductive trace : State → list State → State → Prop :=
| trace_nil s : trace s [] s
| trace_cons s n x s1 log s' :
    _add_unblocked_node s n = Ok (s1, x) →
    trace s1 log s' →
    trace s (s1 :: log) s'.

(** A logged function gives the result of the function it follows, and
    its log is a trace that ends in the state returned. *)
Definition traced {A} (state_of : A → State) (s : State) (m : Logged A)
    (r : result Exc A) : Prop :=
  m.2 = r ∧ ∃ s', trace s m.1 s' ∧ ∀ a, r = Ok a → state_of a = s'.

Lemma trace_app s log1 s1 log2 s2 :
  trace s log1 s1 → trace s1 log2 s2 → trace s (log1 ++ log2) s2.
Proof.
  induction 1 as [|s n x s1' log s' Hstep _ IH]; intros H2; simpl; [done|].
  econstructor; [done|]. by apply IH.
Qed.

Lemma trace_last s log s' : trace s log s' → last (s :: log) = Some s'.
Proof.
  induction 1 as [|s n x s1 log s' _ _ IH]; [done|].
  by rewrite last_cons_cons.
Qed.

Lemma trace_inv g s log s' :
  Inv g s → trace s log s' → Forall (Inv g) log ∧ Inv g s'.
Proof.
  intros HI Ht. induction Ht as [|s n x s1 log s' Hstep _ IH]; [done|].
  assert (Inv g s1) as H1 by by eapply add_unblocked_node_inv.
  destruct (IH H1). split; [by constructor|done].
Qed.

Lemma traced_ret {A} (state_of : A → State) a :
  traced state_of (state_of a) (log_ret a) (Ok a).
Proof.
  split; [done|]. exists (state_of a). split; [constructor|].
  by intros ? [= <-].
Qed.

Lemma traced_raise {A} (state_of : A → State) s e :
  traced state_of s (log_lift (Raise e)) (Raise e).
Proof. split; [done|]. exists s. split; [constructor|done]. Qed.

Lemma traced_bind {A B} (fa : A → State) (fb : B → State) s
    (m : Logged A) r (k : A → Logged B) (k' : A → result Exc B) :
  traced fa s m r →
  (∀ a, r = Ok a → traced fb (fa a) (k a) (k' a)) →
  traced fb s (log_bind m k) (rbind r k').
Proof.
  destruct m as [log res]. intros (Hres & s1 & Ht & Hs) Hk.
  simpl in Hres, Ht. subst res. unfold log_bind. simpl.
  destruct r as [a|e]; simpl.
  - destruct (Hk a eq_refl) as (Hres & s2 & Ht2 & Hs2).
    split; [done|]. exists s2. split; [|done].
    eapply trace_app; [done|]. by rewrite <-(Hs a eq_refl).
  - split; [done|]. exists s1. by split.
Qed.

Lemma traced_lift_bind {A B} (fb : B → State) s (r : result Exc A)
    (k : A → Logged B) (k' : A → result Exc B) :
  (∀ a, r = Ok a → traced fb s (k a) (k' a)) →
  traced fb s (log_bind (log_lift r) k) (rbind r k').
Proof.
  intros Hk. unfold log_bind, log_lift. simpl. destruct r as [a|e]; simpl.
  - destruct (Hk a eq_refl) as (Hres & s2 & Ht2 & Hs2).
    split; [done|]. by exists s2.
  - split; [done|]. exists s. split; [constructor|done].
Qed.

Lemma traced_for_each {A B} (fa : A → State)
    (body : A → B → Logged A) (body' : A → B → result Exc A) xs :
  (∀ a x, traced fa (fa a) (body a x) (body' a x)) →
  ∀ a, traced fa (fa a) (log_for_each body xs a) (for_each body' xs a).
Proof.
  intros Hbody. induction xs as [|x xs IH]; intros a; simpl.
  - apply traced_ret.
  - eapply traced_bind; [apply Hbody|]. intros a' _. apply IH.
Qed.

Lemma add_unblocked_node_traced st n :
  traced fst st (log_add_unblocked_node st n) (_add_unblocked_node st n).
Proof.
  unfold log_add_unblocked_node.
  destruct (_add_unblocked_node st n) as [[st' x]|e] eqn:E.
  - split; [done|]. exists st'. split; [|by intros ? [= <-]].
    econstructor; [exact E|constructor].
  - split; [done|]. exists st. split; [constructor|done].
Qed.

Lemma place_traced st n : traced (λ s, s) st (log_place st n) (place st n).
Proof.
  unfold log_place, place.
  eapply traced_bind; [apply add_unblocked_node_traced|].
  intros r _. apply (traced_ret (λ s, s)).
Qed.

Lemma scan_step_traced avoid acc n :
  traced fst acc.1 (log_scan_step avoid acc n) (scan_step avoid acc n).
Proof.
  unfold log_scan_step, scan_step.
  destruct (_ && _ && _); [|apply traced_ret].
  destruct (bool_decide _).
  - eapply traced_bind; [apply add_unblocked_node_traced|].
    intros r _. apply (traced_ret fst (r.1, acc.2)).
  - apply (traced_ret fst (acc.1, _)).
Qed.

Lemma add_active_unblocked_traced avoid fuel : ∀ st,
  traced (λ s, s) st (log_add_active_unblocked fuel st avoid)
    (_add_active_unblocked fuel st avoid).
Proof.
  induction fuel as [|fuel IH]; intros st; simpl.
  - apply traced_raise.
  - eapply traced_bind.
    { apply (traced_for_each fst _ _ _ (scan_step_traced avoid) (st, [])). }
    intros r _. destruct r.2 as [|u unblocked].
    + apply (traced_ret (λ s, s)).
    + eapply traced_bind; [|intros st' _; apply IH].
      apply (traced_for_each (λ s, s) _ _ _ place_traced).
Qed.

Lemma path_step_traced recurse recurse' st n :
  (∀ s xgraph, traced (λ s, s) s (recurse s xgraph) (recurse' s xgraph)) →
  traced (λ s, s) st (log_path_step recurse st n) (path_step recurse' st n).
Proof.
  intros Hrec. unfold log_path_step, path_step.
  eapply traced_bind; [apply add_active_unblocked_traced|].
  intros st1 _. simpl. apply traced_lift_bind.
  intros anc _. destruct anc; [apply place_traced|apply Hrec].
Qed.

Lemma add_connected_graph_traced fuel : ∀ st xgraph,
  traced (λ s, s) st (log_add_connected_graph fuel st xgraph)
    (_add_connected_graph fuel st xgraph).
Proof.
  induction fuel as [|fuel IH]; intros st xgraph; simpl.
  - apply traced_raise.
  - apply traced_lift_bind. intros path _.
    apply (traced_for_each (λ s, s)). intros s n.
    by apply path_step_traced.
Qed.

(** The logged constructor returns and raises what [__init__] does; its
    log is a trace from the start, and the locations of a layout that is
    returned are those of the last state of the log. *)
Lemma log_init_traced fuel graph :
  (log_init fuel graph).2 = init fuel graph
  ∧ ∃ s', trace (start graph) (log_init fuel graph).1 s'
          ∧ last (placements fuel graph) = Some s'
          ∧ ∀ l, init fuel graph = Ok l →
                 _locations l = locations s' ∧ l_x_max l = x_max s'.
Proof.
  unfold placements, log_init, init. fold (start graph).
  pose proof (traced_for_each (λ s, s)
                (λ st component,
                   log_add_connected_graph fuel st (subgraph graph component))
                (λ st component,
                   _add_connected_graph fuel st (subgraph graph component))
                (weakly_connected_components graph)
                (λ s c, add_connected_graph_traced fuel s _) (start graph))
    as (Hres & s1 & Ht & Hs).
  destruct (log_for_each _ _ _) as [log res]. simpl in Hres, Ht. subst res.
  unfold log_bind. simpl.
  destruct (for_each _ (weakly_connected_components graph) _) as [st|e]; simpl.
  - rewrite <-(Hs st eq_refl) in Ht.
    destruct (nodes (todo_graph st)); simpl; rewrite app_nil_r;
      (split; [done|]); exists st;
      (split; [done|]); (split; [by apply trace_last|]).
    + by intros l [= <-].
    + done.
  - split; [done|]. exists s1. split; [done|]. split; [by apply trace_last|done].
Qed.

Lemma placements_inv fuel graph st :
  st ∈ placements fuel graph → Inv graph st.
Proof.
  destruct (log_init_traced fuel graph) as (_ & s' & Ht & _).
  apply (trace_inv graph) in Ht as [Hlog _]; [|apply Inv_init].
  unfold placements. intros [->|Hin]%elem_of_cons; [apply Inv_init|].
  rewrite Forall_forall in Hlog. by apply Hlog.
Qed.

(** C8. For every graph, and so for every directed acyclic one, at every
    point of the construction of [Layout(graph)], whether the construction
    returns in the end or raises: the columns given out so far are at most
    as many as the graph has nodes; and a node [v] placed while an edge out
    of an earlier node [u] was still live (its end [w] not placed yet when
    [v] was) is not in the column of [u]. When the construction returns,
    the same holds of the rows of the layout. *)
Theorem layout_columns_at_every_point fuel graph :
  (∀ st, st ∈ placements fuel graph →
     (length (remove_dups (locations st).*2)
      ≤ length (remove_dups (nodes graph)))%nat
     ∧ ∀ i j u cu v cv w,
         locations st !! i = Some (u, cu) →
         locations st !! j = Some (v, cv) →
         (i < j)%nat → (u, w) ∈ edges graph →
         (∀ k, (k ≤ j)%nat → (locations st).*1 !! k ≠ Some w) →
         cu ≠ cv)
  ∧ (∀ l, init fuel graph = Ok l →
       ∃ rows, iter l = Ok rows
         ∧ (length (remove_dups (x <$> rows))
            ≤ length (remove_dups (nodes graph)))%nat
         ∧ ∀ i j k ru rv rw,
             rows !! i = Some ru → rows !! j = Some rv →
             rows !! k = Some rw →
             (i < j < k)%nat → (node ru, node rw) ∈ edges graph →
             x ru ≠ x rv).
Proof using Type.
  split; [|intros l; apply layout_columns].
  intros st [Hnd Hpl _ _ _ _ _ Hclash]%placements_inv. split; [|exact Hclash].
  transitivity (length (placed st)).
  - unfold placed. rewrite length_fmap, <-(length_fmap snd (locations st)).
    apply submseteq_length, NoDup_submseteq; [apply NoDup_remove_dups|].
    intros c. by rewrite elem_of_remove_dups.
  - apply submseteq_length, NoDup_submseteq; [done|].
    intros n Hn. by apply elem_of_remove_dups, Hpl.
Qed.

(** ** Columns are handed out from the left *)

Lemma first_free_from_below cols : ∀ fuel n c,
  (n ≤ c < first_free_from cols fuel n)%nat → c ∈ cols.
Proof.
  induction fuel as [|fuel IH]; intros n c Hc; simpl in Hc; [lia|].
  destruct (decide (n ∈ cols)) as [Hin|]; [|lia].
  destruct (decide (c = n)) as [->|]; [done|]. apply (IH (S n)). lia.
Qed.

Lemma first_free_below (active : list (nat * list K)) c :
  (c < first_free active)%nat → c ∈ active.*1.
Proof.
  unfold first_free. intros Hc.
  apply (first_free_from_below _ (length active) 0%nat). lia.
Qed.

Lemma terminate_at_nonempty n active c eps' :
  (∀ c eps, (c, eps) ∈ active → eps ≠ []) →
  (c, eps') ∈ terminate_at n active → eps' ≠ [].
Proof.
  intros Hne. unfold terminate_at.
  intros ([c0 eps] & Hin & Hf)%list_elem_of_omap. simpl in Hf.
  destruct (decide (n ∈ eps)).
  - destruct (filter (λ m, m ≠ n) eps) eqn:E; [done|]. by injection Hf as <- <-.
  - injection Hf as <- <-. by eapply Hne.
Qed.

(** What the columns of the placed nodes and the active columns have to do
    with each other: an active column belongs to a placed node with
    successors still to place; columns never exceed [x_max], are all in
    use, and a node gets the first column that no such node holds. *)
Record Narrow (g : DiGraph) (st : State) : Prop := {
  nw_active : ∀ c eps, (c, eps) ∈ active_columns st →
                eps ≠ []
                ∧ ∃ u, (u, c) ∈ locations st
                       ∧ ∀ w, w ∈ eps → (u, w) ∈ edges g ∧ w ∉ placed st;
  nw_max : ∀ n c, (n, c) ∈ locations st → (c ≤ x_max st)%nat;
  nw_used : ∀ c, (c ≤ x_max st)%nat → locations st ≠ [] →
                 ∃ n, (n, c) ∈ locations st;
  nw_zero : locations st = [] → x_max st = 0%nat;
  nw_first : ∀ n c, locations st !! 0%nat = Some (n, c) → c = 0%nat;
  nw_left : ∀ j n c c', locations st !! j = Some (n, c) → (c' < c)%nat →
              ∃ i u w, (i < j)%nat ∧ locations st !! i = Some (u, c')
                       ∧ (u, w) ∈ edges g
                       ∧ w ∉ (take (S j) (locations st)).*1;
}.

Lemma Narrow_init g :
  Narrow g {| todo_graph := g; active_columns := []; locations := []; x_max := 0 |}.
Proof.
  split; simpl; try done.
  - by intros c eps ?%elem_of_nil.
  - by intros n c ?%elem_of_nil.
Qed.

Lemma add_unblocked_node_narrow g st n st' c :
  Inv g st → Narrow g st → _add_unblocked_node st n = Ok (st', c) →
  Narrow g st'.
Proof.
  intros [Hnd Hpl Hnodes Hedges Htopo Hcols Hlive Hclash]
         [Hact Hmax Hused Hzero Hfirst Hleft] Hrun.
  apply add_unblocked_node_guard in Hrun
    as (Hn & Hdeg & Hc & Htodo & Hloc & Hxm & Hact').
  destruct (proj1 (Hnodes n) Hn) as [Hng Hnp].
  rewrite dict_set_fresh in Hloc by done.
  set (active := terminate_at n (active_columns st)) in Hc, Hact'.
  assert (∀ c0 eps0, (c0, eps0) ∈ active →
            eps0 ≠ []
            ∧ ∃ u, (u, c0) ∈ locations st
                   ∧ ∀ w, w ∈ eps0 → (u, w) ∈ edges g ∧ (w ∉ placed st) ∧ w ≠ n)
    as Hold.
  { intros c0 eps0 Hin. split.
    - eapply terminate_at_nonempty; [|exact Hin].
      intros c1 eps1 H1. by destruct (Hact c1 eps1 H1).
    - apply elem_of_terminate_at in Hin as (eps & Hin & ->).
      destruct (Hact c0 eps Hin) as (_ & u & Hu & Hw).
      exists u. split; [done|]. intros w [Hwn Hwe]%list_elem_of_filter.
      destruct (Hw w Hwe). done. }
  assert (locations st = [] → c = 0%nat) as Hc0.
  { intros Hnil.
    assert (active_columns st = []) as Ea.
    { destruct (active_columns st) as [|[c1 eps1] rest] eqn:Ea; [done|].
      destruct (Hact c1 eps1) as (_ & u & Hu & _); [by left|].
      rewrite Hnil in Hu. by apply elem_of_nil in Hu. }
    rewrite Hc. unfold active. by rewrite Ea. }
  assert (∀ c', (c' < c)%nat →
            ∃ eps' u w, (c', eps') ∈ active ∧ (u, c') ∈ locations st
                        ∧ (u, w) ∈ edges g ∧ (w ∉ placed st) ∧ w ≠ n) as Hbelow.
  { intros c' Hlt. rewrite Hc in Hlt. apply first_free_below in Hlt.
    apply list_elem_of_fmap in Hlt as ([c1 eps'] & -> & Hin). simpl.
    destruct (Hold _ _ Hin) as (Hne & u & Hu & Hw).
    destruct eps' as [|w eps']; [done|].
    destruct (Hw w) as (? & ? & ?); [by left|]. eauto 10. }
  split; rewrite ?Hloc, ?Hxm.
  - intros c0 eps0 Hin. rewrite Hact' in Hin.
    assert ((c0, eps0) ∈ active
            ∨ (c0, eps0) = (c, successors (todo_graph st) n)
              ∧ successors (todo_graph st) n ≠ []) as [Hin'|[[= -> ->] Hne]].
    { destruct (successors (todo_graph st) n) eqn:E; [by left|].
      apply elem_of_app in Hin as [?|Hin%list_elem_of_singleton];
        [by left|by right]. }
    + destruct (Hold _ _ Hin') as (Hne & u & Hu & Hw). split; [done|].
      exists u. split; [apply elem_of_app; by left|].
      intros w Hwe. destruct (Hw w Hwe) as (? & ? & ?). split; [done|].
      unfold placed. rewrite Hloc, fmap_app. simpl.
      by intros [?|?%list_elem_of_singleton]%elem_of_app.
    + split; [done|]. exists n.
      split; [apply elem_of_app; right; by apply list_elem_of_singleton|].
      intros w Hw%elem_of_successors. pose proof Hw as Hw'.
      apply Hedges in Hw as (Hwg & _ & Hwp). simpl in *. split; [done|].
      unfold placed. rewrite Hloc, fmap_app. simpl.
      intros [?|Hwn%list_elem_of_singleton]%elem_of_app; [done|]. subst w.
      by apply (in_degree_0 _ _ n Hdeg).
  - intros m c0 [Hm|[= -> ->]%list_elem_of_singleton]%elem_of_app; [|lia].
    specialize (Hmax m c0 Hm). lia.
  - intros c0 Hc0max _. destruct (decide (locations st = [])) as [Hnil|Hnn].
    + rewrite (Hzero Hnil), (Hc0 Hnil) in Hc0max. exists n.
      apply elem_of_app. right. apply list_elem_of_singleton.
      rewrite (Hc0 Hnil). f_equal. lia.
    + destruct (decide (c0 ≤ x_max st)%nat) as [Hle|Hgt].
      * destruct (Hused c0 Hle Hnn) as [m Hm]. exists m.
        apply elem_of_app. by left.
      * destruct (decide (c0 = c)) as [->|Hne].
        -- exists n. apply elem_of_app. right. by apply list_elem_of_singleton.
        -- destruct (Hbelow c0) as (_ & u & _ & _ & Hu & _); [lia|].
           exists u. apply elem_of_app. by left.
  - by intros [_ [=]]%app_eq_nil.
  - intros m c0. destruct (locations st) as [|[m1 c1] rest] eqn:El.
    + simpl. intros [= <- <-]. by apply Hc0.
    + simpl. intros [= <- <-]. by apply (Hfirst m1 c1).
  - intros j m c0 c' Hj Hlt.
    destruct (decide (j < length (locations st))%nat) as [Hjl|Hjl].
    + rewrite lookup_app_l in Hj by done.
      destruct (Hleft j m c0 c' Hj Hlt) as (i & u & w & Hi & Hu & Huw & Hw).
      exists i, u, w. split; [done|]. split; [rewrite lookup_app_l; [done|lia]|].
      split; [done|]. rewrite take_app_le by lia. done.
    + rewrite lookup_app_r in Hj by lia.
      apply list_lookup_singleton_Some in Hj as [Hj0 [= <- <-]].
      destruct (Hbelow c' Hlt) as (_ & u & w & _ & Hu & Huw & Hwp & Hwn).
      apply list_elem_of_lookup in Hu as [i Hi].
      exists i, u, w. pose proof (lookup_lt_Some _ _ _ Hi).
      split; [lia|]. split; [by rewrite lookup_app_l|]. split; [done|].
      rewrite take_ge by (rewrite length_app; simpl; lia).
      rewrite fmap_app. simpl.
      by intros [?|?%list_elem_of_singleton]%elem_of_app.
Qed.

(** Both invariants together. *)
Definition Inv2 (g : DiGraph) (st : State) : Prop := Inv g st ∧ Narrow g st.

Lemma place_inv2 g st n st' : Inv2 g st → place st n = Ok st' → Inv2 g st'.
Proof.
  unfold place. intros [HI HN].
  destruct (_add_unblocked_node st n) as [[st1 c]|] eqn:E; [|done].
  simpl. intros [= <-]. split.
  - by eapply add_unblocked_node_inv.
  - by eapply add_unblocked_node_narrow.
Qed.

Lemma scan_step_inv2 g avoid acc n acc' :
  Inv2 g acc.1 → scan_step avoid acc n = Ok acc' → Inv2 g acc'.1.
Proof.
  unfold scan_step. intros [HI HN].
  destruct (_ && _ && _); [|by intros [= <-]].
  destruct (bool_decide _); [|by intros [= <-]].
  destruct (_add_unblocked_node acc.1 n) as [[st1 c]|] eqn:E; [|done].
  simpl. intros [= <-]. simpl. split.
  - by eapply add_unblocked_node_inv.
  - by eapply add_unblocked_node_narrow.
Qed.

Lemma add_active_unblocked_inv2 g avoid fuel : ∀ st st',
  Inv2 g st → _add_active_unblocked fuel st avoid = Ok st' → Inv2 g st'.
Proof using Type.
  induction fuel as [|fuel IH]; intros st st' HI; simpl; [done|].
  destruct (for_each (scan_step avoid) _ (st, [])) as [r|] eqn:E1; [|done].
  simpl.
  apply (for_each_preserves (λ acc, Inv2 g acc.1)) in E1;
    [|by intros; eapply scan_step_inv2|done].
  destruct r.2 as [|u unblocked]; [by intros [= <-]|].
  destruct (for_each place _ r.1) as [st1|] eqn:E2; [|done]. simpl.
  apply IH.
  eapply (for_each_preserves (Inv2 g)); [|exact E1|exact E2].
  intros. by eapply place_inv2.
Qed.

Lemma add_connected_graph_inv2 g fuel : ∀ st xgraph st',
  Inv2 g st → _add_connected_graph fuel st xgraph = Ok st' → Inv2 g st'.
Proof using Type.
  induction fuel as [|fuel IH]; intros st xgraph st' HI; simpl; [done|].
  destruct (lift_nx (dag_longest_path xgraph)) as [path|]; [|done]. simpl.
  apply for_each_preserves; [|done].
  clear st st' HI. intros st n st' HI. unfold path_step.
  destruct (_add_active_unblocked _ st n) as [st1|] eqn:E1; [|done]. simpl.
  apply add_active_unblocked_inv2 with (g := g) in E1; [|done].
  destruct (lift_nx (ancestors (todo_graph st1) n)) as [anc|]; [|done]. simpl.
  destruct anc; [by apply place_inv2|by apply IH].
Qed.

(** The columns of a finished layout. *)
Record Narrow_layout (g : DiGraph) (l : Layout) : Prop := {
  nl_max : ∀ n c, (n, c) ∈ _locations l → (c ≤ l_x_max l)%nat;
  nl_used : ∀ c, (c ≤ l_x_max l)%nat → _locations l ≠ [] →
                 ∃ n, (n, c) ∈ _locations l;
  nl_first : ∀ n c, _locations l !! 0%nat = Some (n, c) → c = 0%nat;
  nl_left : ∀ j n c c', _locations l !! j = Some (n, c) → (c' < c)%nat →
              ∃ i u w, (i < j)%nat ∧ _locations l !! i = Some (u, c')
                       ∧ (u, w) ∈ edges g
                       ∧ w ∉ (take (S j) (_locations l)).*1;
}.

Lemma init_narrow fuel g l : init fuel g = Ok l → Narrow_layout g l.
Proof using Type.
  unfold init.
  destruct (for_each _ (weakly_connected_components g) _) as [st|] eqn:E;
    [|done]. simpl.
  apply (for_each_preserves (Inv2 g)) in E;
    [|by intros; eapply add_connected_graph_inv2
     |split; [apply Inv_init|apply Narrow_init]].
  destruct (nodes (todo_graph st)) eqn:En; [|done]. intros [= <-].
  destruct E as [_ [Hact Hmax Hused Hzero Hfirst Hleft]].
  by split.
Qed.

(** ** The rows in full *)

Lemma insert_sorted_perm {A} (key : A → Z * K) a sorted :
  insert_sorted key a sorted ≡ₚ a :: sorted.
Proof.
  induction sorted as [|b rest IH]; simpl; [done|].
  destruct (tuple_ltb _ _); [done|]. rewrite IH. apply perm_swap.
Qed.

Lemma sort_tuples_perm {A} (key : A → Z * K) l : sort_tuples key l ≡ₚ l.
Proof.
  unfold sort_tuples.
  enough (∀ acc, foldl (λ sorted a, insert_sorted key a sorted) acc l ≡ₚ acc ++ l)
    as Hgen by apply Hgen.
  induction l as [|a l IH]; intros acc; simpl; [by rewrite app_nil_r|].
  rewrite IH, insert_sorted_perm. by rewrite <-Permutation_middle.
Qed.

(** The column in which a placed node is drawn. *)
Definition col (l : Layout) (o : K) : Z :=
  Z.of_nat (l_x_max l) - Z.of_nat (default 0%nat (dict_get (_locations l) o)).

Lemma dict_get_lookup {V} (d : list (K * V)) i k v :
  NoDup d.*1 → d !! i = Some (k, v) → dict_get d k = Some v.
Proof.
  intros Hnd Hi. unfold dict_get.
  destruct (list_find (λ kv, kv.1 = k) d) as [[j [k' v']]|] eqn:E; simpl.
  - apply list_find_Some in E as (Hj & Hk & _). simpl in Hk. subst k'.
    assert (j = i) as ->; [|congruence].
    apply (NoDup_lookup _ j i k Hnd); rewrite list_lookup_fmap;
      [by rewrite Hj|by rewrite Hi].
  - apply list_find_None in E. rewrite Forall_forall in E.
    destruct (E (k, v)); [by eapply list_elem_of_lookup_2|done].
Qed.

Lemma column_of_col l o :
  o ∈ (_locations l).*1 → column_of l o = Ok (col l o).
Proof.
  intros [c Hc]%dict_get_Some. unfold column_of, col. by rewrite Hc.
Qed.

(** The successors of [o] that are not among the nodes [pre]. *)
Definition live (g : DiGraph) (pre : list K) (o : K) : list K :=
  filter (λ w, w ∉ pre) (successors g o).

(** [active_edges] once the nodes [pre] have had their rows. *)
Definition active_edges_after (g : DiGraph) (pre : list K) : list (K * list K) :=
  (λ o, (o, live g pre o)) <$> pre.

Definition term_entries (l : Layout) (n : K) (e : K * list K) : list (Z * K) :=
  if decide (n ∈ e.2) then [(col l e.1, e.1)] else [].

Definition cont_entries (l : Layout) (n : K) (e : K * list K)
  : list (Z * K * list K) :=
  match filter (λ m, m ≠ n) e.2 with
  | [] => []
  | destinations => [(col l e.1, e.1, destinations)]
  end.

Definition rest_entry (n : K) (e : K * list K) : K * list K :=
  (e.1, filter (λ m, m ≠ n) e.2).

Lemma row_loop_spec l n ae : ∀ acc,
  (∀ o, o ∈ ae.*1 → o ∈ (_locations l).*1) →
  for_each (row_step l n) ae acc
  = Ok {| acc_terminating := acc_terminating acc ++ (ae ≫= term_entries l n);
          acc_continuing := acc_continuing acc ++ (ae ≫= cont_entries l n);
          acc_edges := acc_edges acc ++ (rest_entry n <$> ae) |}.
Proof using Type.
  induction ae as [|[origin dests] ae IH]; intros acc Hin.
  - simpl. rewrite !app_nil_r. by destruct acc.
  - rewrite bind_cons, bind_cons, fmap_cons. cbn [for_each].
    assert (row_step l n acc (origin, dests)
            = Ok {| acc_terminating :=
                      acc_terminating acc ++ term_entries l n (origin, dests);
                    acc_continuing :=
                      acc_continuing acc ++ cont_entries l n (origin, dests);
                    acc_edges :=
                      acc_edges acc ++ [rest_entry n (origin, dests)] |}) as ->.
    { unfold row_step, term_entries, cont_entries, rest_entry. simpl.
      rewrite column_of_col by (apply Hin; left).
      destruct (decide (n ∈ dests)) as [Hn|Hn]; simpl.
      - destruct (filter (λ m, m ≠ n) dests); simpl; by rewrite ?app_nil_r.
      - rewrite (filter_all (λ m, m ≠ n) dests) by (by intros m Hm ->).
        destruct dests; simpl; by rewrite ?app_nil_r. }
    simpl. rewrite IH by (intros o Ho; apply Hin; by right). simpl.
    by rewrite <-!app_assoc.
Qed.

(** The row of node [n], placed in column [c], when [active_edges] is [ae]. *)
Definition row_of (l : Layout) (n : K) (c : nat) (ae : list (K * list K))
  : LayoutRow :=
  {| node := n;
     x := Z.of_nat (l_x_max l) - Z.of_nat c;
     terminating := sort_tuples (λ t, t) (ae ≫= term_entries l n);
     continuing := sort_tuples (λ t, t.1) (ae ≫= cont_entries l n) |}.

Fixpoint rows_from (l : Layout) (pre : list K) (rest : list (K * nat))
  : list LayoutRow :=
  match rest with
  | [] => []
  | item :: rest' =>
      row_of l item.1 item.2 (active_edges_after (_graph l) pre)
      :: rows_from l (pre ++ [item.1]) rest'
  end.

(** Edges lead from earlier to later nodes. *)
Definition forward (g : DiGraph) (keys : list K) : Prop :=
  ∀ i j n w, keys !! i = Some n → keys !! j = Some w → (n, w) ∈ edges g →
             (i < j)%nat.

Lemma topological_forward g (locs : list (K * nat)) :
  NoDup locs.*1 → topological g locs → forward g locs.*1.
Proof.
  intros Hnd Htopo i j n w Hi Hj Hnw.
  destruct (Htopo j w n Hj Hnw) as (i' & Hlt & Hi').
  by rewrite (NoDup_lookup _ i i' n Hnd Hi Hi').
Qed.

Lemma active_edges_after_snoc g pre n :
  NoDup (pre ++ [n]) → forward g (pre ++ [n]) →
  dict_set (rest_entry n <$> active_edges_after g pre) n (successors g n)
  = active_edges_after g (pre ++ [n]).
Proof.
  intros Hnd Hfw. unfold active_edges_after.
  rewrite dict_set_fresh.
  2:{ rewrite <-!list_fmap_compose. simpl.
      apply NoDup_app in Hnd as (_ & Hnd & _).
      intros (o & Heq & Ho)%list_elem_of_fmap. simpl in Heq. subst o.
      apply (Hnd n Ho). by left. }
  rewrite fmap_app. simpl. f_equal.
  - rewrite <-list_fmap_compose. apply list_fmap_ext. intros i o Ho.
    unfold rest_entry, live. simpl. f_equal.
    rewrite list_filter_filter. apply list_filter_iff. intros w.
    rewrite elem_of_app, list_elem_of_singleton.
    clear. intuition.
  - f_equal. f_equal. unfold live. symmetry. apply filter_all.
    intros w Hw%elem_of_successors [j Hj]%list_elem_of_lookup.
    assert ((pre ++ [n]) !! length pre = Some n) as Hn.
    { rewrite lookup_app_r by lia. by rewrite Nat.sub_diag. }
    pose proof (Hfw _ _ _ _ Hn Hj Hw) as Hlt.
    apply lookup_lt_Some in Hj. rewrite length_app in Hj. simpl in Hj. lia.
Qed.

Lemma iter_loop_spec l rest : ∀ pre rows,
  NoDup (pre ++ rest.*1) → forward (_graph l) (pre ++ rest.*1) →
  (∀ o, o ∈ pre ++ rest.*1 → o ∈ (_locations l).*1) →
  for_each (iter_step l) rest (rows, active_edges_after (_graph l) pre)
  = Ok (rows ++ rows_from l pre rest,
        active_edges_after (_graph l) (pre ++ rest.*1)).
Proof using Type.
  induction rest as [|[n c] rest IH]; intros pre rows Hnd Hfw Hin; simpl.
  - by rewrite !app_nil_r.
  - simpl in Hnd, Hfw, Hin. unfold iter_step at 1. simpl.
    rewrite row_loop_spec.
    2:{ intros o Ho. apply Hin, elem_of_app. left.
        unfold active_edges_after in Ho.
        rewrite <-list_fmap_compose in Ho. simpl in Ho.
        by rewrite list_fmap_id in Ho. }
    simpl.
    assert (NoDup (pre ++ [n])) as Hnd1.
    { rewrite (cons_middle n pre), app_assoc in Hnd.
      by apply NoDup_app in Hnd as (? & _). }
    assert (forward (_graph l) (pre ++ [n])) as Hfw1.
    { intros i j a b Hi Hj Hab. apply (Hfw i j a b); [| |done].
      - rewrite (cons_middle n pre), app_assoc.
        apply lookup_app_l_Some. done.
      - rewrite (cons_middle n pre), app_assoc.
        apply lookup_app_l_Some. done. }
    rewrite active_edges_after_snoc by done.
    rewrite IH.
    + by rewrite <-!app_assoc.
    + by rewrite <-app_assoc.
    + by rewrite <-app_assoc.
    + intros o Ho. apply Hin. by rewrite <-app_assoc in Ho.
Qed.

Lemma rows_from_lookup l rest : ∀ pre j n c,
  rest !! j = Some (n, c) →
  rows_from l pre rest !! j
  = Some (row_of l n c (active_edges_after (_graph l) (pre ++ take j rest.*1))).
Proof.
  induction rest as [|[m cm] rest IH]; intros pre j n c Hj; [done|].
  destruct j as [|j]; simpl in *.
  - injection Hj as -> ->. by rewrite app_nil_r.
  - rewrite (IH _ _ _ _ Hj). by rewrite <-app_assoc.
Qed.

Lemma rows_from_length l rest : ∀ pre, length (rows_from l pre rest) = length rest.
Proof. induction rest as [|item rest IH]; intros pre; simpl; [done|]. by rewrite IH. Qed.

(** The rows of a finished layout, one by one. *)
Lemma iter_rows fuel g l :
  init fuel g = Ok l → iter l = Ok (rows_from l [] (_locations l)).
Proof using Type.
  intros [Hg Hnd Hpl Hall Htopo Hclash]%init_laid_out.
  unfold iter.
  change (@nil (K * list K)) with (active_edges_after (_graph l) []).
  rewrite iter_loop_spec; [done|done| |done].
  rewrite Hg. by apply topological_forward.
Qed.

Lemma rows_from_nodes l rest : ∀ pre, node <$> rows_from l pre rest = rest.*1.
Proof.
  induction rest as [|item rest IH]; intros pre; simpl; [done|]. by rewrite IH.
Qed.

(** What is known of row [j] of a finished layout. *)
Lemma row_at fuel g l rows j row :
  init fuel g = Ok l → iter l = Ok rows → rows !! j = Some row →
  ∃ c, _locations l !! j = Some (node row, c)
       ∧ node <$> rows = (_locations l).*1
       ∧ row = row_of l (node row) c
                 (active_edges_after g (take j (_locations l).*1)).
Proof using Type.
  intros Hinit Hiter Hj. rewrite (iter_rows fuel g l Hinit) in Hiter.
  injection Hiter as <-.
  pose proof (lookup_lt_Some _ _ _ Hj) as Hlt. rewrite rows_from_length in Hlt.
  destruct (lookup_lt_is_Some_2 (_locations l) j Hlt) as [[n c] Hn].
  rewrite (rows_from_lookup l _ [] j n c Hn) in Hj. injection Hj as <-.
  simpl. apply init_laid_out in Hinit as [Hg _ _ _ _ _].
  exists c. split; [done|]. split; [apply rows_from_nodes|]. by rewrite Hg.
Qed.

Lemma row_x fuel g l rows i row :
  init fuel g = Ok l → iter l = Ok rows → rows !! i = Some row →
  (node row) ∈ (_locations l).*1 ∧ x row = col l (node row).
Proof using Type.
  intros Hinit Hiter Hi.
  destruct (row_at _ _ _ _ _ _ Hinit Hiter Hi) as (c & Hc & _ & Hrow).
  split; [apply list_elem_of_fmap; exists (node row, c); split;
          [done|by eapply list_elem_of_lookup_2]|].
  rewrite Hrow at 1. simpl. unfold col.
  apply init_laid_out in Hinit as [_ Hnd _ _ _ _].
  by rewrite (dict_get_lookup _ _ _ _ Hnd Hc).
Qed.

Lemma elem_of_active_edges_after g pre o d :
  (o, d) ∈ active_edges_after g pre ↔ o ∈ pre ∧ d = live g pre o.
Proof.
  unfold active_edges_after. rewrite list_elem_of_fmap. split.
  - by intros (o' & [= -> ->] & Ho).
  - intros [Ho ->]. by exists o.
Qed.

Lemma elem_of_live g pre o w : w ∈ live g pre o ↔ (o, w) ∈ edges g ∧ w ∉ pre.
Proof.
  unfold live. rewrite list_elem_of_filter, elem_of_successors.
  clear. intuition.
Qed.

Lemma earlier_row fuel g l rows j o :
  init fuel g = Ok l → iter l = Ok rows →
  o ∈ take j (_locations l).*1 →
  ∃ i rowo, (i < j)%nat ∧ rows !! i = Some rowo ∧ node rowo = o
            ∧ x rowo = col l o.
Proof using Type.
  intros Hinit Hiter [i Hi]%list_elem_of_lookup.
  pose proof (lookup_lt_Some _ _ _ Hi) as Hlt. rewrite length_take in Hlt.
  rewrite lookup_take_lt in Hi by lia.
  assert ((node <$> rows) !! i = Some o) as Hrow.
  { rewrite (iter_rows _ _ _ Hinit) in Hiter. injection Hiter as <-.
    by rewrite rows_from_nodes. }
  rewrite list_lookup_fmap in Hrow.
  destruct (rows !! i) as [rowo|] eqn:Ei; [|done]. injection Hrow as Hnode.
  exists i, rowo. split; [lia|]. split; [done|]. split; [done|].
  rewrite <-Hnode. by eapply row_x.
Qed.

Lemma location_row fuel g l rows j n c :
  init fuel g = Ok l → iter l = Ok rows → _locations l !! j = Some (n, c) →
  ∃ row, rows !! j = Some row ∧ node row = n
         ∧ x row = (Z.of_nat (l_x_max l) - Z.of_nat c)%Z.
Proof using Type.
  intros Hinit Hiter Hj. rewrite (iter_rows _ _ _ Hinit) in Hiter.
  injection Hiter as <-. rewrite (rows_from_lookup l _ [] j n c Hj).
  eexists. split; [done|]. done.
Qed.

Lemma terminating_iff fuel g l rows j row c o :
  init fuel g = Ok l → iter l = Ok rows → rows !! j = Some row →
  (c, o) ∈ terminating row
  ↔ o ∈ take j (_locations l).*1 ∧ (o, node row) ∈ edges g ∧ c = col l o.
Proof using Type.
  intros Hinit Hiter Hj.
  destruct (row_at _ _ _ _ _ _ Hinit Hiter Hj) as (cn & Hloc & Hnodes & ->).
  simpl. rewrite sort_tuples_perm, list_elem_of_bind.
  pose proof (init_laid_out _ _ _ Hinit) as [_ Hnd _ _ _ _].
  assert (node (row_of l (node row) cn
                  (active_edges_after g (take j (_locations l).*1)))
          ∉ take j (_locations l).*1) as Hfresh.
  { simpl. intros [i Hi]%list_elem_of_lookup.
    pose proof (lookup_lt_Some _ _ _ Hi) as Hlt. rewrite length_take in Hlt.
    rewrite lookup_take_lt in Hi by lia.
    assert ((_locations l).*1 !! j = Some (node row)) as Hj'
      by by rewrite list_lookup_fmap, Hloc.
    pose proof (NoDup_lookup _ _ _ _ Hnd Hi Hj'). lia. }
  simpl in Hfresh. split.
  - intros ([o' d] & Hterm & [Ho ->]%elem_of_active_edges_after).
    unfold term_entries in Hterm. simpl in Hterm.
    destruct (decide _) as [Hn|]; [|by apply elem_of_nil in Hterm].
    apply list_elem_of_singleton in Hterm as [= -> ->].
    apply elem_of_live in Hn as [Hn _]. done.
  - intros (Ho & Hedge & ->).
    exists (o, live g (take j (_locations l).*1) o).
    split; [|by apply elem_of_active_edges_after].
    unfold term_entries. simpl. rewrite decide_True; [by left|].
    by apply elem_of_live.
Qed.

Lemma continuing_iff fuel g l rows j row c o dests :
  init fuel g = Ok l → iter l = Ok rows → rows !! j = Some row →
  (c, o, dests) ∈ continuing row
  ↔ o ∈ take j (_locations l).*1 ∧ c = col l o
    ∧ dests = live g (take (S j) (_locations l).*1) o ∧ dests ≠ [].
Proof using Type.
  intros Hinit Hiter Hj.
  destruct (row_at _ _ _ _ _ _ Hinit Hiter Hj) as (cn & Hloc & Hnodes & ->).
  simpl. rewrite sort_tuples_perm, list_elem_of_bind.
  assert (∀ o', filter (λ m, m ≠ node row) (live g (take j (_locations l).*1) o')
                = live g (take (S j) (_locations l).*1) o') as Hlive.
  { intros o'. unfold live. rewrite list_filter_filter.
    apply list_filter_iff. intros w.
    rewrite (take_S_r _ j (node row)) by by rewrite list_lookup_fmap, Hloc.
    rewrite elem_of_app, list_elem_of_singleton. clear. intuition. }
  split.
  - intros ([o' d] & Hcont & [Ho ->]%elem_of_active_edges_after).
    unfold cont_entries in Hcont. simpl in Hcont. rewrite Hlive in Hcont.
    destruct (live g (take (S j) (_locations l).*1) o') eqn:E;
      [by apply elem_of_nil in Hcont|].
    apply list_elem_of_singleton in Hcont as [= -> -> ->]. by rewrite E.
  - intros (Ho & -> & -> & Hne).
    exists (o, live g (take j (_locations l).*1) o).
    split; [|by apply elem_of_active_edges_after].
    unfold cont_entries. simpl. rewrite Hlive.
    destruct (live g (take (S j) (_locations l).*1) o); [done|]. by left.
Qed.

Lemma later_row_take fuel g l rows i row j :
  init fuel g = Ok l → iter l = Ok rows → rows !! i = Some row → (i < j)%nat →
  node row ∈ take j (_locations l).*1.
Proof using Type.
  intros Hinit Hiter Hi Hij.
  destruct (row_at _ _ _ _ _ _ Hinit Hiter Hi) as (c & Hloc & _ & _).
  apply list_elem_of_lookup. exists i. rewrite lookup_take_lt by done.
  by rewrite list_lookup_fmap, Hloc.
Qed.

(** X14. The rows of a layout use the columns [0 .. x_max] and no other:
    every row has its [x] in that range, every column of the range holds
    the node of some row, and the first row is in column [x_max]. *)
Theorem layout_columns_contiguous fuel graph l rows :
  init fuel graph = Ok l → iter l = Ok rows →
  (∀ row, row ∈ rows → (0 ≤ x row ≤ Z.of_nat (l_x_max l))%Z)
  ∧ (∀ row, rows !! 0%nat = Some row → x row = Z.of_nat (l_x_max l))
  ∧ (∀ c, rows ≠ [] → (0 ≤ c ≤ Z.of_nat (l_x_max l))%Z →
          ∃ row, row ∈ rows ∧ x row = c).
Proof using Type.
  intros Hinit Hiter.
  pose proof (init_narrow _ _ _ Hinit) as [Hmax Hused Hfirst _].
  split; [|split].
  - intros row [j Hj]%list_elem_of_lookup.
    destruct (row_at _ _ _ _ _ _ Hinit Hiter Hj) as (c & Hloc & _ & ->).
    simpl. apply list_elem_of_lookup_2, Hmax in Hloc. lia.
  - intros row Hj.
    destruct (row_at _ _ _ _ _ _ Hinit Hiter Hj) as (c & Hloc & _ & ->).
    simpl. rewrite (Hfirst _ _ Hloc). lia.
  - intros c Hne Hc.
    assert (_locations l ≠ []) as Hlne.
    { intros Hnil. rewrite (iter_rows _ _ _ Hinit), Hnil in Hiter.
      by injection Hiter as <-. }
    destruct (Hused (l_x_max l - Z.to_nat c)%nat) as [n Hn]; [lia|done|].
    apply list_elem_of_lookup in Hn as [j Hj].
    destruct (location_row _ _ _ _ _ _ _ Hinit Hiter Hj) as (row & Hrow & _ & Hx).
    exists row. split; [by eapply list_elem_of_lookup_2|]. lia.
Qed.

(** X15. The [terminating] list of a row holds exactly the edges that end
    at the row's node: one entry for every predecessor of the node in the
    graph, with the column of that predecessor's own row, and nothing
    else. *)
Theorem rows_terminating fuel graph l rows j row c o :
  init fuel graph = Ok l → iter l = Ok rows → rows !! j = Some row →
  (c, o) ∈ terminating row
  ↔ (o, node row) ∈ edges graph
    ∧ ∃ i rowo, rows !! i = Some rowo ∧ node rowo = o ∧ x rowo = c.
Proof using Type.
  intros Hinit Hiter Hj.
  rewrite (terminating_iff _ _ _ _ _ _ _ _ Hinit Hiter Hj). split.
  - intros (Ho & Hedge & ->). split; [done|].
    destruct (earlier_row _ _ _ _ _ _ Hinit Hiter Ho) as (i & rowo & ? & ? & ? & ?).
    eauto.
  - intros (Hedge & i & rowo & Hi & <- & <-).
    destruct (row_x _ _ _ _ _ _ Hinit Hiter Hi) as [_ Hx].
    split; [|done].
    eapply later_row_take; [done..|].
    pose proof (init_laid_out _ _ _ Hinit) as [_ Hnd _ _ Htopo _].
    destruct (row_at _ _ _ _ _ _ Hinit Hiter Hi) as (ci & Hloci & _ & _).
    destruct (row_at _ _ _ _ _ _ Hinit Hiter Hj) as (cj & Hlocj & _ & _).
    apply (topological_forward _ _ Hnd Htopo i j (node rowo) (node row));
      [by rewrite list_lookup_fmap, Hloci|by rewrite list_lookup_fmap, Hlocj|done].
Qed.

(** X16. The [continuing] list of a row holds exactly the live edges: an
    entry for every earlier node that has successors with a later row,
    with the column of that node's row and those successors as
    destinations. No such entry is in the column of the row's own node. *)
Theorem rows_continuing fuel graph l rows j row c o dests :
  init fuel graph = Ok l → iter l = Ok rows → rows !! j = Some row →
  ((c, o, dests) ∈ continuing row
   ↔ dests = live graph (take (S j) (node <$> rows)) o
     ∧ dests ≠ []
     ∧ ∃ i rowo, (i < j)%nat ∧ rows !! i = Some rowo ∧ node rowo = o
                 ∧ x rowo = c)
  ∧ ((c, o, dests) ∈ continuing row → c ≠ x row).
Proof using Type.
  intros Hinit Hiter Hj.
  rewrite (continuing_iff _ _ _ _ _ _ _ _ _ Hinit Hiter Hj).
  destruct (row_at _ _ _ _ _ _ Hinit Hiter Hj) as (cj & Hlocj & Hnodes & _).
  rewrite Hnodes. split; [split|].
  - intros (Ho & -> & -> & Hne). split; [done|]. split; [done|].
    by apply (earlier_row _ _ _ _ _ _ Hinit Hiter).
  - intros (-> & Hne & i & rowo & Hij & Hi & <- & <-).
    destruct (row_x _ _ _ _ _ _ Hinit Hiter Hi) as [_ Hx].
    split; [by eapply later_row_take|]. done.
  - intros (Ho & -> & -> & Hne).
    pose proof (init_laid_out _ _ _ Hinit) as [_ Hnd _ _ _ Hclash].
    apply list_elem_of_lookup in Ho as [i Hi].
    pose proof (lookup_lt_Some _ _ _ Hi) as Hlt. rewrite length_take in Hlt.
    rewrite lookup_take_lt, list_lookup_fmap in Hi by lia.
    destruct (_locations l !! i) as [[o' ci]|] eqn:Hloci; [|done].
    injection Hi as ->.
    destruct (live graph (take (S j) (_locations l).*1) o) as [|w ws] eqn:E;
      [done|].
    assert (w ∈ live graph (take (S j) (_locations l).*1) o) as Hw
      by (rewrite E; by left).
    apply elem_of_live in Hw as [Hedge Hlater].
    assert (ci ≠ cj) as Hcols.
    { apply (Hclash i j o ci (node row) cj w); [done|done|lia|done|].
      intros k Hk Hwk. apply Hlater, list_elem_of_lookup. exists k.
      rewrite lookup_take_lt by lia. done. }
    destruct (row_x _ _ _ _ _ _ Hinit Hiter Hj) as [_ ->].
    unfold col. rewrite (dict_get_lookup _ _ _ _ Hnd Hloci),
      (dict_get_lookup _ _ _ _ Hnd Hlocj). simpl. lia.
Qed.

(** X17. A node is put in the first free column: in its row, every column
    between the node's own and column [x_max] carries a continuing edge,
    that is, belongs to an earlier node with a successor still to
    come. *)
Theorem rows_leftmost_free fuel graph l rows j row c :
  init fuel graph = Ok l → iter l = Ok rows → rows !! j = Some row →
  (x row < c ≤ Z.of_nat (l_x_max l))%Z →
  ∃ o dests, (c, o, dests) ∈ continuing row.
Proof using Type.
  intros Hinit Hiter Hj Hc.
  destruct (row_at _ _ _ _ _ _ Hinit Hiter Hj) as (cj & Hlocj & Hnodes & Hrow).
  pose proof (init_narrow _ _ _ Hinit) as [Hmax _ _ Hleft].
  pose proof (init_laid_out _ _ _ Hinit) as [_ Hnd _ _ _ _].
  assert (x row = Z.of_nat (l_x_max l) - Z.of_nat cj)%Z as Hx
    by (rewrite Hrow; done).
  pose proof (Hmax _ _ (list_elem_of_lookup_2 _ _ _ Hlocj)) as Hcj.
  destruct (Hleft j (node row) cj (l_x_max l - Z.to_nat c)%nat Hlocj)
    as (i & u & w & Hij & Hloci & Hedge & Hlater); [lia|].
  exists u, (live graph (take (S j) (_locations l).*1) u).
  apply (continuing_iff _ _ _ _ _ _ _ _ _ Hinit Hiter Hj).
  split; [|split; [|split]].
  - apply list_elem_of_lookup. exists i. rewrite lookup_take_lt by done.
    by rewrite list_lookup_fmap, Hloci.
  - unfold col. rewrite (dict_get_lookup _ _ _ _ Hnd Hloci). simpl. lia.
  - done.
  - rewrite fmap_take in Hlater.
    assert (w ∈ live graph (take (S j) (_locations l).*1) u) as Hw
      by by apply elem_of_live.
    intros Hnil. rewrite Hnil in Hw. by apply elem_of_nil in Hw.
Qed.

(** ** The [while True] loop ends *)

Lemma add_unblocked_node_raises st n e :
  _add_unblocked_node st n = Raise e → e = AssertionError [n].
Proof.
  unfold _add_unblocked_node. destruct (negb _); [|done]. by intros [= <-].
Qed.

Lemma add_unblocked_node_todo st n st' c :
  _add_unblocked_node st n = Ok (st', c) →
  (length (nodes (todo_graph st')) < length (nodes (todo_graph st)))%nat.
Proof.
  intros (Hn & _ & _ & -> & _)%add_unblocked_node_guard. simpl.
  apply (length_filter_lt (λ m, m ≠ n) _ n); [done|]. by intros [].
Qed.

Lemma place_todo sts : ∀ st st',
  for_each place sts st = Ok st' →
  (length (nodes (todo_graph st')) + length sts
   ≤ length (nodes (todo_graph st)))%nat.
Proof.
  induction sts as [|n sts IH]; intros st st'; simpl.
  - intros [= <-]. lia.
  - unfold place at 1.
    destruct (_add_unblocked_node st n) as [[st1 c]|] eqn:E; [|done]. simpl.
    intros Hrest%IH. apply add_unblocked_node_todo in E. lia.
Qed.

Lemma scan_todo avoid cands : ∀ acc acc',
  for_each (scan_step avoid) cands acc = Ok acc' →
  (length (nodes (todo_graph acc'.1)) ≤ length (nodes (todo_graph acc.1)))%nat.
Proof.
  induction cands as [|n cands IH]; intros acc acc'; simpl.
  - by intros [= <-].
  - destruct (scan_step avoid acc n) as [acc1|] eqn:E; [|done]. simpl.
    intros Hrest%IH. etrans; [exact Hrest|]. revert E. unfold scan_step.
    destruct (_ && _ && _); [|by intros [= <-]].
    destruct (bool_decide _); [|by intros [= <-]].
    destruct (_add_unblocked_node acc.1 n) as [[st1 c]|] eqn:E; [|done].
    simpl. intros [= <-]. simpl. apply add_unblocked_node_todo in E. lia.
Qed.

Lemma for_each_raises {E S X} (P : E → Prop) (body : S → X → result E S) xs :
  (∀ s x e, body s x = Raise e → P e) →
  ∀ s e, for_each body xs s = Raise e → P e.
Proof.
  intros Hbody. induction xs as [|x xs IH]; intros s e; simpl; [done|].
  destruct (body s x) as [s1|e1] eqn:Hb; simpl.
  - apply IH.
  - intros [= <-]. by eapply Hbody.
Qed.

Lemma scan_step_raises avoid acc n e :
  scan_step avoid acc n = Raise e → e ≠ OutOfFuel.
Proof.
  unfold scan_step. destruct (_ && _ && _); [|done].
  destruct (bool_decide _); [|done].
  destruct (_add_unblocked_node acc.1 n) as [r|e1] eqn:E; [done|].
  simpl. intros [= <-]. by rewrite (add_unblocked_node_raises _ _ _ E).
Qed.

Lemma place_raises st n e : place st n = Raise e → e ≠ OutOfFuel.
Proof.
  unfold place. destruct (_add_unblocked_node st n) as [r|e1] eqn:E; [done|].
  simpl. intros [= <-]. by rewrite (add_unblocked_node_raises _ _ _ E).
Qed.

Lemma insert_desc_nonempty key n sorted : insert_desc key n sorted ≠ [].
Proof. destruct sorted; simpl; [done|]. by destruct (decide _). Qed.

Lemma sorted_desc_nonempty key l : l ≠ [] → sorted_desc key l ≠ [].
Proof.
  intros Hne. destruct (exists_last Hne) as (l' & a & ->).
  unfold sorted_desc. rewrite foldl_app. simpl. apply insert_desc_nonempty.
Qed.

(** X18. The [while True] loop of [_add_active_unblocked] ends: a round
    that does not return places at least one node of the to-do graph, so
    the loop returns or raises an assertion within one round more than
    there are nodes to do. (Iterating over a non-empty set yields
    something.) *)
Theorem add_active_unblocked_terminates fuel st avoid :
  (∀ s, s ≠ [] → set_iter s ≠ []) →
  (length (nodes (todo_graph st)) < fuel)%nat →
  _add_active_unblocked fuel st avoid ≠ Raise OutOfFuel.
Proof using Type.
  intros Hiter. revert st.
  induction fuel as [|fuel IH]; intros st Hlen; [lia|]. simpl.
  destruct (for_each (scan_step avoid) _ (st, [])) as [r|e] eqn:E1; simpl.
  2:{ intros [= ->].
      eapply (for_each_raises (λ e, e ≠ OutOfFuel)); [|exact E1|done].
      intros s n e. apply scan_step_raises. }
  apply scan_todo in E1. simpl in E1.
  destruct r.2 as [|u unblocked] eqn:Er; [done|].
  destruct (for_each place _ r.1) as [st1|e] eqn:E2; simpl.
  2:{ intros [= ->].
      eapply (for_each_raises (λ e, e ≠ OutOfFuel)); [|exact E2|done].
      intros s n e. apply place_raises. }
  apply IH. apply place_todo in E2.
  assert (sorted_desc (out_degree (todo_graph r.1)) (set_iter (u :: unblocked))
          ≠ []) as Hne by by apply sorted_desc_nonempty, Hiter.
  destruct (sorted_desc _ _); [done|]. simpl in E2. lia.
Qed.

End layout.

(** ** An instance of the collaborators, on graphs of numbers *)

Fixpoint reach_back (g : @DiGraph nat) (fuel : nat) (n : nat) : list nat :=
  match fuel with
  | O => []
  | S fuel' =>
      let preds := (filter (λ e, e.2 = n) (edges g)).*1 in
      remove_dups (preds ++ (preds ≫= reach_back g fuel'))
  end.

Definition nat_ancestors (g : @DiGraph nat) (n : nat) : result unit (list nat) :=
  if has_node g n then Ok (reach_back g (length (nodes g)) n) else Raise ().

Fixpoint longest_to (g : @DiGraph nat) (fuel : nat) (n : nat) : list nat :=
  match fuel with
  | O => [n]
  | S fuel' =>
      let preds := (filter (λ e, e.2 = n) (edges g)).*1 in
      foldl (λ best p,
               let cand := longest_to g fuel' p in
               if decide (length best < length cand)%nat then cand else best)
            [] preds ++ [n]
  end.

Definition nat_longest_path (g : @DiGraph nat) : result unit (list nat) :=
  Ok (foldl (λ best n,
               let cand := longest_to g (length (nodes g)) n in
               if decide (length best < length cand)%nat then cand else best)
            [] (nodes g)).

Fixpoint grow_component (g : @DiGraph nat) (fuel : nat) (seen : list nat)
  : list nat :=
  match fuel with
  | O => seen
  | S fuel' =>
      grow_component g fuel'
        (remove_dups (seen ++ (edges g ≫= λ e,
                        if decide (e.1 ∈ seen) then [e.2]
                        else if decide (e.2 ∈ seen) then [e.1] else [])))
  end.

Definition nat_components (g : @DiGraph nat) : list (list nat) :=
  foldl (λ comps n,
           if decide (n ∈ concat comps) then comps
           else comps ++ [grow_component g (length (nodes g)) [n]])
        [] (nodes g).

Definition layout_of (g : @DiGraph nat) : result (@Exc nat unit) (@Layout nat) :=
  init nat_components nat_longest_path nat_ancestors (λ s, s)
       (S (length (nodes g))) g.

Definition rows_of (g : @DiGraph nat) : result (@Exc nat unit) (list (nat * Z)) :=
  let? l := layout_of g in
  let? rows := iter Nat.ltb l in
  Ok ((λ r, (node r, x r)) <$> rows).

(** A diamond with a tail: 1 -> 2 -> 4 -> 5, 1 -> 3 -> 4. *)
Definition diamond : @DiGraph nat :=
  {| nodes := [1; 2; 3; 4; 5]%nat;
     edges := [(1, 2); (1, 3); (2, 4); (3, 4); (4, 5)]%nat |}.

(** 1 -> 2 -> 3 -> 4, 2 -> 5, 6 -> 5: node 5 waits for 6, which is not on
    the longest path nor an ancestor of a node on it. *)
Definition side_input : @DiGraph nat :=
  {| nodes := [1; 2; 3; 4; 5; 6]%nat;
     edges := [(1, 2); (2, 3); (3, 4); (2, 5); (6, 5)]%nat |}.

(** The layout of the diamond: 1 in column 0, 3 in column 1 (column 0 is
    held by the live edge 1 -> 2), then 2, 4 and 5 back in column 0. *)
Definition diamond_layout : @Layout nat :=
  {| _graph := diamond;
     _locations := [(1, 0); (3, 1); (2, 0); (4, 0); (5, 0)]%nat;
     l_x_max := 1 |}.

Example diamond_laid_out : layout_of diamond = Ok diamond_layout.
Proof. by vm_compute. Qed.

Example diamond_rows :
  rows_of diamond = Ok [(1%nat, 1); (3%nat, 0); (2%nat, 1); (4%nat, 1); (5%nat, 1)].
Proof. by vm_compute. Qed.

Lemma layout_rows_after_predecessors_witness :
  ∃ rows, iter (NxError:=unit) Nat.ltb diamond_layout = Ok rows
    ∧ (∀ n, n ∈ nodes diamond ↔ n ∈ node <$> rows)
    ∧ NoDup (node <$> rows)
    ∧ ∀ i n p, (node <$> rows) !! i = Some n → (p, n) ∈ edges diamond →
               ∃ j, (j < i)%nat ∧ (node <$> rows) !! j = Some p.
Proof.
  apply (layout_rows_after_predecessors nat_components nat_longest_path
           nat_ancestors (λ s, s) Nat.ltb 6 diamond diamond_layout).
  by vm_compute.
Defined.

Lemma layout_columns_witness :
  ∃ rows, iter (NxError:=unit) Nat.ltb diamond_layout = Ok rows
    ∧ (length (remove_dups (x <$> rows)) ≤ length (remove_dups (nodes diamond)))%nat
    ∧ ∀ i j k ru rv rw,
        rows !! i = Some ru → rows !! j = Some rv → rows !! k = Some rw →
        (i < j < k)%nat → (node ru, node rw) ∈ edges diamond →
        x ru ≠ x rv.
Proof.
  apply (layout_columns nat_components nat_longest_path
           nat_ancestors (λ s, s) Nat.ltb 6 diamond diamond_layout).
  by vm_compute.
Defined.

(** Construction is not total on DAGs: in [side_input] node 5 is still
    blocked by node 6 when the longest path 1, 2, 3, 4 has been placed, and
    the final assertion of [__init__] fails with 5 and 6 left to do. *)
Example side_input_assertion :
  layout_of side_input = Raise (AssertionError [5; 6]%nat).
Proof. by vm_compute. Qed.

(** ** A directed acyclic graph that is not laid out *)

(** A rank that grows along every edge of [side_input]: the graph has no
    cycle. *)
Definition side_input_rank (n : nat) : nat :=
  if decide (n = 5%nat) then 7%nat else n.

Lemma side_input_acyclic :
  NoDup (nodes side_input)
  ∧ Forall (λ e, e.1 ∈ nodes side_input ∧ e.2 ∈ nodes side_input
                 ∧ (side_input_rank e.1 < side_input_rank e.2)%nat)
      (edges side_input).
Proof.
  unfold side_input. simpl. split.
  - repeat (apply NoDup_cons_2; [set_solver|]). apply NoDup_nil_2.
  - repeat (constructor;
            [simpl; split; [set_solver|split; [set_solver|vm_compute; lia]]|]).
    constructor.
Qed.

(** The run on [side_input]: the path 1, 2, 3, 4 is placed, node 5 and
    node 6 are not. *)
Example side_input_placements :
  (λ st, locations st) <$> placements nat_components nat_longest_path
                             nat_ancestors (λ s, s) 7 side_input
  = [ [];
      [(1, 0)];
      [(1, 0); (2, 0)];
      [(1, 0); (2, 0); (3, 1)];
      [(1, 0); (2, 0); (3, 1); (4, 1)] ]%nat.
Proof. by vm_compute. Qed.

(** C7. [side_input] is a directed acyclic graph (a rank grows along
    every edge) on which [Layout] is not constructed: node 5 waits for node 6, which is neither on the longest
    path nor an ancestor of a node on it, and the final assertion of
    [__init__] fails with 5 and 6 still to do. No recursion depth makes
    the constructor return, so there are no rows, and nodes 5 and 6 never
    appear after their predecessors. *)
Theorem layout_side_input_not_constructed :
  Forall (λ e, (side_input_rank e.1 < side_input_rank e.2)%nat)
    (edges side_input)
  ∧ layout_of side_input = Raise (AssertionError [5; 6]%nat)
  ∧ ∀ fuel l,
      init nat_components nat_longest_path nat_ancestors (λ s, s) fuel
        side_input ≠ Ok l.
Proof.
  split.
  { eapply Forall_impl; [apply side_input_acyclic|]. by intros e (_ & _ & ?). }
  split; [by vm_compute|].
  intros fuel l.
  destruct fuel as [|[|fuel]]; [by vm_compute..|].
  by vm_compute.
Qed.

(** The state after nodes 1, 2 and 3 of [side_input] have been placed, in
    a run that raises in the end. *)
Definition side_input_after_3 : @State nat :=
  {| todo_graph := {| nodes := [4; 5; 6]%nat; edges := [(6, 5)]%nat |};
     active_columns := [(0, [5]); (1, [4])]%nat;
     locations := [(1, 0); (2, 0); (3, 1)]%nat;
     x_max := 1 |}.

Lemma layout_columns_at_every_point_witness :
  (length (remove_dups (locations side_input_after_3).*2)
   ≤ length (remove_dups (nodes side_input)))%nat
  ∧ ∀ i j u cu v cv w,
      locations side_input_after_3 !! i = Some (u, cu) →
      locations side_input_after_3 !! j = Some (v, cv) →
      (i < j)%nat → (u, w) ∈ edges side_input →
      (∀ k, (k ≤ j)%nat → (locations side_input_after_3).*1 !! k ≠ Some w) →
      cu ≠ cv.
Proof.
  apply (proj1 (layout_columns_at_every_point nat_components nat_longest_path
                  nat_ancestors (λ s, s) Nat.ltb 7 side_input)).
  apply (list_elem_of_lookup_2 _ 3%nat). by vm_compute.
Defined.

(** The rows of the diamond in full. *)
Definition diamond_full_rows : list (@LayoutRow nat) :=
  [ {| node := 1%nat; x := 1; terminating := []; continuing := [] |};
    {| node := 3%nat; x := 0; terminating := [(1, 1%nat)];
       continuing := [(1, 1%nat, [2%nat])] |};
    {| node := 2%nat; x := 1; terminating := [(1, 1%nat)];
       continuing := [(0, 3%nat, [4%nat])] |};
    {| node := 4%nat; x := 1; terminating := [(0, 3%nat); (1, 2%nat)];
       continuing := [] |};
    {| node := 5%nat; x := 1; terminating := [(1, 4%nat)]; continuing := [] |} ].

Example diamond_iter :
  iter (NxError:=unit) Nat.ltb diamond_layout = Ok diamond_full_rows.
Proof. by vm_compute. Qed.

Lemma layout_columns_contiguous_witness :
  (∀ row, row ∈ diamond_full_rows → (0 ≤ x row ≤ 1)%Z)
  ∧ (∀ row, diamond_full_rows !! 0%nat = Some row → x row = 1)
  ∧ (∀ c, diamond_full_rows ≠ [] → (0 ≤ c ≤ 1)%Z →
          ∃ row, row ∈ diamond_full_rows ∧ x row = c).
Proof.
  apply (layout_columns_contiguous nat_components nat_longest_path
           nat_ancestors (λ s, s) Nat.ltb 6 diamond diamond_layout
           diamond_full_rows).
  - by vm_compute.
  - by vm_compute.
Defined.

Lemma rows_terminating_witness :
  (1, 2%nat) ∈ [(0, 3%nat); (1, 2%nat)]
  ↔ (2%nat, 4%nat) ∈ edges diamond
    ∧ ∃ i rowo, diamond_full_rows !! i = Some rowo ∧ node rowo = 2%nat
                ∧ x rowo = 1.
Proof.
  apply (rows_terminating nat_components nat_longest_path
           nat_ancestors (λ s, s) Nat.ltb 6 diamond diamond_layout
           diamond_full_rows 3
           {| node := 4%nat; x := 1; terminating := [(0, 3%nat); (1, 2%nat)];
              continuing := [] |} 1 2%nat).
  - by vm_compute.
  - by vm_compute.
  - reflexivity.
Defined.

Lemma rows_continuing_witness :
  ((1, 1%nat, [2%nat]) ∈ [(1, 1%nat, [2%nat])]
   ↔ [2%nat] = live diamond (take 2 (node <$> diamond_full_rows)) 1%nat
     ∧ [2%nat] ≠ []
     ∧ ∃ i rowo, (i < 1)%nat ∧ diamond_full_rows !! i = Some rowo
                 ∧ node rowo = 1%nat ∧ x rowo = 1)
  ∧ ((1, 1%nat, [2%nat]) ∈ [(1, 1%nat, [2%nat])] → 1 ≠ 0).
Proof.
  apply (rows_continuing nat_components nat_longest_path
           nat_ancestors (λ s, s) Nat.ltb 6 diamond diamond_layout
           diamond_full_rows 1
           {| node := 3%nat; x := 0; terminating := [(1, 1%nat)];
              continuing := [(1, 1%nat, [2%nat])] |} 1 1%nat [2%nat]).
  - by vm_compute.
  - by vm_compute.
  - reflexivity.
Defined.

Lemma rows_leftmost_free_witness :
  ∃ o dests, (1, o, dests) ∈ [(1, 1%nat, [2%nat])].
Proof.
  apply (rows_leftmost_free nat_components nat_longest_path
           nat_ancestors (λ s, s) Nat.ltb 6 diamond diamond_layout
           diamond_full_rows 1
           {| node := 3%nat; x := 0; terminating := [(1, 1%nat)];
              continuing := [(1, 1%nat, [2%nat])] |} 1).
  - by vm_compute.
  - by vm_compute.
  - reflexivity.
  - simpl. lia.
Defined.

(** The state after node 1 of the diamond has been placed. *)
Definition diamond_after_1 : @State nat :=
  {| todo_graph := remove_node diamond 1%nat;
     active_columns := [(0%nat, [2; 3]%nat)];
     locations := [(1%nat, 0%nat)];
     x_max := 0 |}.

Lemma add_active_unblocked_terminates_witness :
  _add_active_unblocked (NxError:=unit) (λ s, s) 5 diamond_after_1 2%nat
  ≠ Raise OutOfFuel.
Proof.
  apply (add_active_unblocked_terminates (NxError:=unit) (λ s, s) 5
           diamond_after_1 2%nat).
  - intros s Hs. exact Hs.
  - vm_compute. lia.
Defined.

End Layout.


(** * Merging nodes for display ([visualization/_merge.py]) *)

Module Merge.

(** [NodeAttributeOptions] of [_options.py]: [dimensions] and [task_classes]
    are ["full"], ["concise"], [False] or [None]; [storage_classes] is a
    [bool] or [None]. Only their truth value is read here. *)
Inductive Detail := Full | Concise | DetailFalse | DetailNone.

Record NodeAttributeOptions := {
  dimensions : Detail;
  task_classes : Detail;
  storage_classes : option bool;
}.

Definition detail_truthy (d : Detail) : bool :=
  match d with Full | Concise => true | DetailFalse | DetailNone => false end.

Section merge.

(** Nodes of the exported graph ([NodeKey]s and [MergedNodeKey]s, both
    hashable) and attribute values other than [None]. *)
Context {N : Type} {N_eq : EqDecision N} {N_countable : Countable N}.
Context {Attr : Type} {Attr_eq : EqDecision Attr} {Attr_countable : Countable Attr}.

(** [MergedNodeKey(frozenset(members))] *)
Variable MergedNodeKey : gset N → N.

(** A node's attribute dict; the Python value [None] is [None]. *)
Abbreviation NodeState := (gmap string (option Attr)).

(** ** The [networkx.DiGraph] operations *)

Record XGraph := {
  nodes : list (N * NodeState);
  edges : gset (N * N);
}.

Definition node_keys (g : XGraph) : list N := (nodes g).*1.

Definition predecessors (g : XGraph) (n : N) : gset N :=
  set_map fst (filter (λ e, e.2 = n) (edges g)).

Definition successors (g : XGraph) (n : N) : gset N :=
  set_map snd (filter (λ e, e.1 = n) (edges g)).

Definition in_edges (g : XGraph) (n : N) : gset (N * N) :=
  filter (λ e, e.2 = n) (edges g).

Definition out_edges (g : XGraph) (n : N) : gset (N * N) :=
  filter (λ e, e.1 = n) (edges g).

(** [g.add_node(n, **attrs)]: a new node goes to the end of the node dict,
    an existing one has its attributes updated. *)
Fixpoint add_node_to (l : list (N * NodeState)) (n : N) (attrs : NodeState)
  : list (N * NodeState) :=
  match l with
  | [] => [(n, attrs)]
  | (m, st) :: rest =>
      if decide (m = n) then (m, attrs ∪ st) :: rest
      else (m, st) :: add_node_to rest n attrs
  end.

Definition add_node (g : XGraph) (n : N) (attrs : NodeState) : XGraph :=
  {| nodes := add_node_to (nodes g) n attrs; edges := edges g |}.

(** [g.add_edge(u, v)] adds missing end points. *)
Definition add_edge (g : XGraph) (u v : N) : XGraph :=
  {| nodes := add_node_to (add_node_to (nodes g) u ∅) v ∅;
     edges := {[(u, v)]} ∪ edges g |}.

(** [g.remove_nodes_from(ns)]; nodes that are not in the graph are ignored. *)
Definition remove_nodes_from (g : XGraph) (ns : gset N) : XGraph :=
  {| nodes := filter (λ kv, kv.1 ∉ ns) (nodes g);
     edges := filter (λ e, (e.1 ∉ ns) ∧ (e.2 ∉ ns)) (edges g) |}.

(** [xgraph.reverse(copy=False)] *)
Definition reverse_view (g : XGraph) : XGraph :=
  {| nodes := nodes g; edges := set_map (λ e : N * N, (e.2, e.1)) (edges g) |}.

Inductive Exc :=
| KeyError (key : string)
| NodeKeyError (n : N)
| StopIteration
| NetworkXUnfeasible
| OutOfFuel.

(** ** Merge keys *)

Record MergeKey := {
  mk_parents : gset N;
  mk_dimensions : option Attr;
  mk_storage_class_name : option Attr;
  mk_task_class_name : option Attr;
  mk_children : gset N;
}.

#[global] Instance MergeKey_eq_dec : EqDecision MergeKey.
Proof using N_eq N_countable Attr_eq. solve_decision. Defined.

(** The attribute part of [_MergeKey.from_node_state]. *)
Definition key_attrs (state : NodeState) (options : NodeAttributeOptions)
  : result Exc (option Attr * option Attr * option Attr) :=
  let? dims :=
    if detail_truthy (dimensions options) then
      match state !! "dimensions" with
      | Some v => Ok v
      | None => Raise (KeyError "dimensions")
      end
    else Ok None in
  Ok (dims,
      if default false (storage_classes options)
      then default None (state !! "storage_class_name") else None,
      if detail_truthy (task_classes options)
      then default None (state !! "task_class_name") else None).

(** [_MergeKey[NodeKey, NodeKey].from_node_state] *)
Definition from_node_state (state : NodeState) (parents children : gset N)
    (options : NodeAttributeOptions) : result Exc MergeKey :=
  let? a := key_attrs state options in
  Ok {| mk_parents := parents;
        mk_dimensions := a.1.1;
        mk_storage_class_name := a.1.2;
        mk_task_class_name := a.2;
        mk_children := children |}.

(** The attributes given to a merged node. *)
Definition merged_state (d s t : option Attr) : NodeState :=
  {[ "storage_class_name" := s; "task_class_name" := t; "dimensions" := d ]}.

(** [groups[key].add(node)] on a [defaultdict(set)] in insertion order. *)
Fixpoint group_add {Key} `{EqDecision Key} (groups : list (Key * gset N))
    (key : Key) (members : gset N) : list (Key * gset N) :=
  match groups with
  | [] => [(key, members)]
  | (k, s) :: rest =>
      if decide (k = key) then (k, s ∪ members) :: rest
      else (k, s) :: group_add rest key members
  end.

(** [replacements.get(n, n)] *)
Definition replaced (replacements : gmap N N) (n : N) : N :=
  default n (replacements !! n).

(** ** [merge_graph_intermediates] *)

(** The merge key computed for an item of [xgraph.nodes.items()]. *)
Definition node_key (xgraph : XGraph) (options : NodeAttributeOptions)
    (item : N * NodeState) : result Exc MergeKey :=
  from_node_state item.2 (predecessors xgraph item.1)
    (successors xgraph item.1) options.

(** [merge_key.parents and merge_key.children] *)
Definition is_intermediate (merge_key : MergeKey) : Prop :=
  mk_parents merge_key ≠ ∅ ∧ mk_children merge_key ≠ ∅.

(** Body of the first loop: the merge key of a node, and its group when it
    has parents and children. *)
Definition group_step (xgraph : XGraph) (options : NodeAttributeOptions)
    (groups : list (MergeKey * gset N)) (item : N * NodeState)
  : result Exc (list (MergeKey * gset N)) :=
  let? merge_key := node_key xgraph options item in
  if decide (is_intermediate merge_key)
  then Ok (group_add groups merge_key {[item.1]})
  else Ok groups.

(** Body of the second loop: one group is collapsed. *)
Definition collapse (st : XGraph * gmap N N) (group : MergeKey * gset N)
  : XGraph * gmap N N :=
  let merge_key := group.1 in
  let members := group.2 in
  if decide (size members < 2)%nat then st
  else
    let new_node_key := MergedNodeKey members in
    let g1 := add_node st.1 new_node_key
                (merged_state (mk_dimensions merge_key)
                   (mk_storage_class_name merge_key)
                   (mk_task_class_name merge_key)) in
    let g2 := foldl (λ g parent, add_edge g (replaced st.2 parent) new_node_key)
                g1 (elements (mk_parents merge_key)) in
    let g3 := foldl (λ g child, add_edge g new_node_key (replaced st.2 child))
                g2 (elements (mk_children merge_key)) in
    let replacements :=
      foldl (λ r member, <[member := new_node_key]> r) st.2 (elements members) in
    (remove_nodes_from g3 members, replacements).

Definition merge_graph_intermediates (xgraph : XGraph)
    (options : NodeAttributeOptions) : result Exc XGraph :=
  let? groups := for_each (group_step xgraph options) (nodes xgraph) [] in
  Ok (foldl collapse (xgraph, ∅) groups).1.

(** ** Tree merge keys

    [_TreeGroupMergeKey]: the children of a key are keys again; a
    [frozenset] of keys is kept as the list of its elements. *)
#[local] Unset Elimination Schemes.
Inductive TreeKey :=
| TK (parents : gset N) (dims scn tcn : option Attr) (children : list TreeKey).
#[local] Set Elimination Schemes.

Definition tk_parents (k : TreeKey) : gset N :=
  match k with TK p _ _ _ _ => p end.

Definition tk_reparent (k : TreeKey) (parents : gset N) : TreeKey :=
  match k with TK _ d s t cs => TK parents d s t cs end.

Definition tk_state (k : TreeKey) : NodeState :=
  match k with TK _ d s t _ => merged_state d s t end.

Abbreviation TreeLeaf :=
  (gset N * option Attr * option Attr * option Attr)%type.

Fixpoint tree_of_key (k : TreeKey) : gen_tree TreeLeaf :=
  match k with
  | TK p d s t cs => GenNode 0 (GenLeaf (p, d, s, t) :: (tree_of_key <$> cs))
  end.

Fixpoint key_of_tree (tr : gen_tree TreeLeaf) : TreeKey :=
  match tr with
  | GenNode _ (GenLeaf (p, d, s, t) :: trs) => TK p d s t (key_of_tree <$> trs)
  | _ => TK ∅ None None None []
  end.

Lemma TreeKey_forall_ind (P : TreeKey → Prop) :
  (∀ p d s t cs, Forall P cs → P (TK p d s t cs)) → ∀ k, P k.
Proof.
  intros HP. fix IH 1. intros [p d s t cs]. apply HP.
  induction cs as [|c cs IHcs]; constructor; [apply IH|exact IHcs].
Qed.

Lemma key_of_tree_of_key k : key_of_tree (tree_of_key k) = k.
Proof.
  induction k as [p d s t cs IH] using TreeKey_forall_ind. simpl. f_equal.
  induction IH as [|c cs Hc _ IHcs]; [done|]. cbn. by f_equal.
Qed.

#[global] Instance TreeKey_eq_dec : EqDecision TreeKey.
Proof using N_eq N_countable Attr_eq.
  refine (λ a b, cast_if (decide (tree_of_key a = tree_of_key b))).
  - abstract (by rewrite <-(key_of_tree_of_key a), <-(key_of_tree_of_key b), e).
  - abstract (by intros ->).
Defined.

#[global] Instance TreeKey_countable : Countable TreeKey.
Proof using N_eq N_countable Attr_eq Attr_countable.
  exact (inj_countable' tree_of_key key_of_tree key_of_tree_of_key).
Defined.

(** [frozenset(children)] *)
Definition frozen (children : list TreeKey) : list TreeKey :=
  elements (list_to_set children : gset TreeKey).

(** [_TreeGroupMergeKey.from_node_state] *)
Definition tree_key_from_node_state (state : NodeState) (parents : gset N)
    (children : list TreeKey) (options : NodeAttributeOptions)
  : result Exc TreeKey :=
  let? a := key_attrs state options in
  Ok (TK parents a.1.1 a.1.2 a.2 (frozen children)).

(** ** [_make_tree_merge_groups] *)

(** [d[k] = v] on a dict in insertion order. *)
Fixpoint assoc_set {Key V} `{EqDecision Key} (d : list (Key * V)) (k : Key) (v : V)
  : list (Key * V) :=
  match d with
  | [] => [(k, v)]
  | (k0, v0) :: rest =>
      if decide (k0 = k) then (k0, v) :: rest
      else (k0, v0) :: assoc_set rest k v
  end.

Definition assoc_get {Key V} `{EqDecision Key} (d : list (Key * V)) (k : Key)
  : option V :=
  (λ found, found.2.2) <$> list_find (λ kv, kv.1 = k) d.

(** [next_candidates[parent][node] = key] on a [defaultdict(dict)]. *)
Definition candidates_set (cands : list (N * list (N * TreeKey)))
    (parent node : N) (key : TreeKey) : list (N * list (N * TreeKey)) :=
  assoc_set cands parent
    (assoc_set (default [] (assoc_get cands parent)) node key).

(** The locals of one round of the [while] loop. *)
Record LevelAcc := {
  result_for_depth : list (TreeKey * gset N);
  next_candidates : list (N * list (N * TreeKey));
  nontrees : gset N;
}.

(** Body of [for node, children in current_candidates.items()]; [collect]
    is [len(result) <= depth]. *)
Definition level_step (xgraph : XGraph) (options : NodeAttributeOptions)
    (collect : bool) (acc : LevelAcc) (cand : N * list (N * TreeKey))
  : result Exc LevelAcc :=
  let? state :=
    match assoc_get (nodes xgraph) cand.1 with
    | Some state => Ok state
    | None => Raise (NodeKeyError cand.1)
    end in
  let? merge_key :=
    tree_key_from_node_state state (successors xgraph cand.1) cand.2.*2 options in
  let rfd := group_add (result_for_depth acc) merge_key {[cand.1]} in
  if collect then
    match elements (tk_parents merge_key) with
    | [parent] =>
        Ok {| result_for_depth := rfd;
              next_candidates :=
                candidates_set (next_candidates acc) parent cand.1
                  (tk_reparent merge_key ∅);
              nontrees := nontrees acc |}
    | _ =>
        Ok {| result_for_depth := rfd;
              next_candidates := next_candidates acc;
              nontrees := nontrees acc ∪ tk_parents merge_key |}
    end
  else
    Ok {| result_for_depth := rfd;
          next_candidates := next_candidates acc;
          nontrees := nontrees acc |}.

(** The [while current_candidates] loop; a round collects next candidates
    only while [len(result) <= depth], so [fuel] rounds are enough when
    [fuel] exceeds [depth]. *)
Fixpoint tree_levels (fuel : nat) (xgraph : XGraph)
    (options : NodeAttributeOptions) (depth : Z)
    (result_ : list (list (TreeKey * gset N)))
    (current_candidates : list (N * list (N * TreeKey)))
  : result Exc (list (list (TreeKey * gset N))) :=
  match current_candidates with
  | [] => Ok result_
  | _ =>
      match fuel with
      | O => Raise OutOfFuel
      | S fuel' =>
          let collect := bool_decide (Z.of_nat (length result_) ≤ depth)%Z in
          let? acc :=
            for_each (level_step xgraph options collect) current_candidates
              {| result_for_depth := []; next_candidates := [];
                 nontrees := ∅ |} in
          tree_levels fuel' xgraph options depth
            (result_ ++ [result_for_depth acc])
            (filter (λ c, c.1 ∉ nontrees acc) (next_candidates acc))
      end
  end.

(** [next(networkx.algorithms.dag.topological_generations(xgraph))]: the
    nodes without predecessor, in node order; the generator has nothing to
    yield for an empty graph, and raises for a graph without such a node. *)
Definition first_generation (xgraph : XGraph) : result Exc (list N) :=
  match filter (λ n, predecessors xgraph n = ∅) (node_keys xgraph) with
  | [] =>
      match nodes xgraph with
      | [] => Raise StopIteration
      | _ => Raise NetworkXUnfeasible
      end
  | generation => Ok generation
  end.

Definition _make_tree_merge_groups (xgraph : XGraph)
    (options : NodeAttributeOptions) (depth : Z)
  : result Exc (list (list (TreeKey * gset N))) :=
  if decide (depth = 0) then Ok [[]]
  else
    let? generation := first_generation xgraph in
    tree_levels (Z.to_nat depth + 2) xgraph options depth [[]]
      ((λ n, (n, [])) <$> generation).

(** ** [_apply_tree_merges] *)

(** Body of the first loop over a group dict: keys whose parents were
    replaced are re-keyed. *)
Definition regroup (replacements : gmap N N)
    (new_group : list (TreeKey * gset N)) (entry : TreeKey * gset N)
  : list (TreeKey * gset N) :=
  if decide (tk_parents entry.1 ∩ dom replacements ≠ ∅)
  then group_add new_group
         (tk_reparent entry.1 (set_map (replaced replacements) (tk_parents entry.1)))
         entry.2
  else group_add new_group entry.1 entry.2.

Definition replaced_edge (replacements : gmap N N) (e : N * N) : N * N :=
  (replaced replacements e.1, replaced replacements e.2).

(** Body of [for member_key in members]. *)
Definition member_step (xgraph : XGraph) (new_node_key : N)
    (acc : gmap N N * gset (N * N)) (member_key : N)
  : gmap N N * gset (N * N) :=
  let replacements := <[member_key := new_node_key]> acc.1 in
  (replacements,
   acc.2 ∪ set_map (replaced_edge replacements) (in_edges xgraph member_key)
         ∪ set_map (replaced_edge replacements) (out_edges xgraph member_key)).

(** [xgraph.add_edges_from(new_edges)] *)
Definition add_edges_from (g : XGraph) (es : gset (N * N)) : XGraph :=
  foldl (λ g e, add_edge g e.1 e.2) g (elements es).

(** Body of the second loop over a group dict. *)
Definition apply_group (st : XGraph * gmap N N) (entry : TreeKey * gset N)
  : XGraph * gmap N N :=
  if decide (size entry.2 < 2)%nat then st
  else
    let new_node_key := MergedNodeKey entry.2 in
    let r := foldl (member_step st.1 new_node_key) (st.2, ∅) (elements entry.2) in
    (add_edges_from (add_node st.1 new_node_key (tk_state entry.1)) r.2, r.1).

(** Body of [for group in reversed(groups)]. *)
Definition apply_level (st : XGraph * gmap N N) (group : list (TreeKey * gset N))
  : XGraph * gmap N N :=
  foldl apply_group st (foldl (regroup st.2) [] group).

Definition _apply_tree_merges (xgraph : XGraph)
    (groups : list (list (TreeKey * gset N))) : XGraph :=
  let r := foldl apply_level (xgraph, ∅) (reverse groups) in
  remove_nodes_from r.1 (dom r.2).

Definition merge_graph_input_trees (xgraph : XGraph)
    (options : NodeAttributeOptions) (depth : Z) : result Exc XGraph :=
  let? groups := _make_tree_merge_groups xgraph options depth in
  Ok (_apply_tree_merges xgraph groups).

Definition merge_graph_output_trees (xgraph : XGraph)
    (options : NodeAttributeOptions) (depth : Z) : result Exc XGraph :=
  let? groups := _make_tree_merge_groups (reverse_view xgraph) options depth in
  Ok (_apply_tree_merges xgraph groups).

(** ** Graph lemmas *)

Lemma elem_of_pred_edges g n u : u ∈ predecessors g n ↔ (u, n) ∈ edges g.
Proof.
  unfold predecessors. rewrite elem_of_map. split.
  - intros ([a b] & -> & [Hb He]%elem_of_filter). simpl in *. by subst.
  - intros He. exists (u, n). split; [done|]. by apply elem_of_filter.
Qed.

Lemma elem_of_succ_edges g n w : w ∈ successors g n ↔ (n, w) ∈ edges g.
Proof.
  unfold successors. rewrite elem_of_map. split.
  - intros ([a b] & -> & [Ha He]%elem_of_filter). simpl in *. by subst.
  - intros He. exists (n, w). split; [done|]. by apply elem_of_filter.
Qed.

Lemma list_filter_all {A} (P : A → Prop) `{∀ a, Decision (P a)} (l : list A) :
  (∀ a, a ∈ l → P a) → filter P l = l.
Proof.
  induction l as [|a l IH]; intros Hall; [done|].
  rewrite filter_cons_True by (apply Hall; left).
  f_equal. apply IH. intros b Hb. apply Hall. by right.
Qed.

Lemma remove_nodes_from_empty g : remove_nodes_from g ∅ = g.
Proof.
  destruct g as [ns es]. unfold remove_nodes_from. simpl. f_equal.
  - apply list_filter_all. intros kv _. apply not_elem_of_empty.
  - apply set_eq. intros e. rewrite elem_of_filter.
    split; [by intros [_ ?]|]. intros He. repeat split; [..|done];
      apply not_elem_of_empty.
Qed.

(** C9. With [depth = 0] both tree merges leave the graph as it is,
    whatever the graph and the options: the only group list is the single
    empty dict, no group is collapsed, and nothing is removed. *)
Theorem merge_trees_depth_0 xgraph options :
  merge_graph_input_trees xgraph options 0 = Ok xgraph
  ∧ merge_graph_output_trees xgraph options 0 = Ok xgraph.
Proof.
  unfold merge_graph_input_trees, merge_graph_output_trees,
    _make_tree_merge_groups, _apply_tree_merges.
  rewrite decide_True by done. simpl.
  unfold apply_level. simpl. rewrite dom_empty_L.
  by rewrite remove_nodes_from_empty.
Qed.

(** ** Groups *)

Fixpoint group_get {Key} `{EqDecision Key} (groups : list (Key * gset N))
    (key : Key) : gset N :=
  match groups with
  | [] => ∅
  | (k, s) :: rest => if decide (k = key) then s else group_get rest key
  end.

Lemma group_get_add {Key} `{EqDecision Key} (groups : list (Key * gset N))
    key members key' :
  group_get (group_add groups key members) key'
  = if decide (key' = key) then group_get groups key ∪ members
    else group_get groups key'.
Proof.
  induction groups as [|[k s] groups IH]; simpl.
  - destruct (decide (key' = key)) as [->|Hne].
    + destruct (decide (key = key)); [|done]. by rewrite (left_id_L ∅ (∪)).
    + destruct (decide (key = key')); [congruence|done].
  - destruct (decide (k = key)) as [->|Hne]; simpl.
    + destruct (decide (key' = key)) as [->|Hne'].
      * by destruct (decide (key = key)).
      * destruct (decide (key = key')); [congruence|done].
    + destruct (decide (k = key')) as [->|Hne'].
      * destruct (decide (key' = key)); [congruence|done].
      * apply IH.
Qed.

Lemma group_add_keys {Key} `{EqDecision Key} (groups : list (Key * gset N))
    key members k :
  k ∈ (group_add groups key members).*1 ↔ k ∈ groups.*1 ∨ k = key.
Proof.
  induction groups as [|[k0 s] groups IH]; simpl.
  - rewrite list_elem_of_singleton, elem_of_nil. clear. tauto.
  - destruct (decide (k0 = key)) as [->|Hne]; simpl.
    + rewrite !elem_of_cons. clear. intuition congruence.
    + rewrite !elem_of_cons, IH. clear. tauto.
Qed.

Lemma group_add_NoDup {Key} `{EqDecision Key} (groups : list (Key * gset N))
    key members :
  NoDup groups.*1 → NoDup (group_add groups key members).*1.
Proof.
  induction groups as [|[k0 s] groups IH]; simpl.
  - intros _. apply NoDup_singleton.
  - intros [Hk Hnd]%NoDup_cons. destruct (decide (k0 = key)) as [->|Hne]; simpl.
    + by apply NoDup_cons.
    + apply NoDup_cons. split; [|by apply IH].
      rewrite group_add_keys. intros [?|?]; [done|congruence].
Qed.

Lemma group_get_elem {Key} `{EqDecision Key} (groups : list (Key * gset N)) k s :
  NoDup groups.*1 → (k, s) ∈ groups → group_get groups k = s.
Proof.
  induction groups as [|[k0 s0] groups IH]; simpl; [by intros _ ?%elem_of_nil|].
  intros [Hk Hnd]%NoDup_cons [[= <- <-]|Hin]%elem_of_cons.
  - by rewrite decide_True.
  - rewrite decide_False; [by apply IH|].
    intros ->. apply Hk. apply list_elem_of_fmap. by exists (k, s).
Qed.

Lemma group_get_in {Key} `{EqDecision Key} (groups : list (Key * gset N)) k :
  k ∈ groups.*1 → (k, group_get groups k) ∈ groups.
Proof.
  induction groups as [|[k0 s0] groups IH]; simpl; [by intros ?%elem_of_nil|].
  destruct (decide (k0 = k)) as [->|Hne]; [by left|].
  intros [?|Hin]%elem_of_cons; [congruence|]. right. by apply IH.
Qed.

Lemma group_fold_spec xgraph options items : ∀ groups0 groups,
  for_each (group_step xgraph options) items groups0 = Ok groups →
  NoDup groups0.*1 →
  NoDup groups.*1
  ∧ (∀ item, item ∈ items → ∃ k, node_key xgraph options item = Ok k)
  ∧ (∀ k, k ∈ groups.*1 ↔
          k ∈ groups0.*1
          ∨ ∃ item, item ∈ items ∧ node_key xgraph options item = Ok k
                    ∧ is_intermediate k)
  ∧ (∀ k n, n ∈ group_get groups k ↔
            n ∈ group_get groups0 k
            ∨ ∃ st, (n, st) ∈ items ∧ node_key xgraph options (n, st) = Ok k
                    ∧ is_intermediate k).
Proof.
  induction items as [|[n0 st0] items IH]; intros groups0 groups; simpl.
  - intros [= <-] Hnd. split; [done|]. split; [by intros ? ?%elem_of_nil|].
    split; intros; (split; [by left|]);
      (intros [?|(? & ?%elem_of_nil & _)]; done).
  - unfold group_step at 1.
    destruct (node_key xgraph options (n0, st0)) as [k0|] eqn:Hk0; [|done].
    simpl. destruct (decide (is_intermediate k0)) as [Hi|Hi]; simpl.
    + intros Hrun Hnd.
      destruct (IH _ _ Hrun (group_add_NoDup _ _ _ Hnd))
        as (Hnd' & Hkeys & Hdom & Hmem).
      split; [done|]. split.
      { intros item [ ->|Hin]%elem_of_cons; [eauto|by apply Hkeys]. }
      split.
      { intros k. rewrite Hdom, group_add_keys. split.
        - intros [[?| ->]|(item & Hin & ? & ?)]; [by left|..].
          + right. exists (n0, st0). split; [left|done].
          + right. exists item. split; [by right|done].
        - intros [?|(item & [ ->|Hin]%elem_of_cons & Hk & ?)].
          + left. by left.
          + left. right. congruence.
          + right. eauto. }
      intros k n. rewrite Hmem, group_get_add. simpl.
      destruct (decide (k = k0)) as [->|Hne].
      * rewrite elem_of_union, elem_of_singleton. split.
        -- intros [[?| ->]|(st & Hin & ? & ?)]; [by left|..].
           ++ right. exists st0. split; [left|done].
           ++ right. exists st. split; [by right|done].
        -- intros [?|(st & [[= -> ->]|Hin]%elem_of_cons & Hk & ?)].
           ++ left. by left.
           ++ left. by right.
           ++ right. eauto.
      * split.
        -- intros [?|(st & Hin & ? & ?)]; [by left|].
           right. exists st. split; [by right|done].
        -- intros [?|(st & [[= -> ->]|Hin]%elem_of_cons & Hk & ?)].
           ++ by left.
           ++ congruence.
           ++ right. eauto.
    + intros Hrun Hnd.
      destruct (IH _ _ Hrun Hnd) as (Hnd' & Hkeys & Hdom & Hmem).
      split; [done|]. split.
      { intros item [ ->|Hin]%elem_of_cons; [eauto|by apply Hkeys]. }
      split.
      { intros k. rewrite Hdom. split.
        - intros [?|(item & Hin & ? & ?)]; [by left|].
          right. exists item. split; [by right|done].
        - intros [?|(item & [ ->|Hin]%elem_of_cons & Hk & ?)]; [by left|..].
          + congruence.
          + right. eauto. }
      intros k n. rewrite Hmem. split.
      * intros [?|(st & Hin & ? & ?)]; [by left|].
        right. exists st. split; [by right|done].
      * intros [?|(st & [[= -> ->]|Hin]%elem_of_cons & Hk & ?)]; [by left|..].
        -- congruence.
        -- right. eauto.
Qed.

(** ** Collapsing the groups

    The graphs the merge is applied to: the node dict has no duplicate key,
    edges join nodes of the graph, no node has an edge to itself, and no
    node is a merged node key yet. *)
Record well_formed (g : XGraph) : Prop := {
  wf_nodup : NoDup (node_keys g);
  wf_edges : ∀ u v, (u, v) ∈ edges g → u ∈ node_keys g ∧ v ∈ node_keys g;
  wf_loops : ∀ n, (n, n) ∉ edges g;
  wf_plain : ∀ s, MergedNodeKey s ∉ node_keys g;
}.

(** The members of a group have the parents and the children of its key. *)
Definition twin_group (g : XGraph) (e : MergeKey * gset N) : Prop :=
  e.2 ≠ ∅
  ∧ ∀ a, a ∈ e.2 → a ∈ node_keys g
                   ∧ predecessors g a = mk_parents e.1
                   ∧ successors g a = mk_children e.1.

Definition merged_item (e : MergeKey * gset N) : N * NodeState :=
  (MergedNodeKey e.2,
   merged_state (mk_dimensions e.1) (mk_storage_class_name e.1)
     (mk_task_class_name e.1)).

Definition replaced_set (done : list (MergeKey * gset N)) : gset N :=
  ⋃ done.*2.

Lemma elem_of_replaced_set done n :
  n ∈ replaced_set done ↔ ∃ e, e ∈ done ∧ n ∈ e.2.
Proof.
  unfold replaced_set. rewrite elem_of_union_list. split.
  - intros (s & Hs & Hn). apply list_elem_of_fmap in Hs as (e & -> & He). eauto.
  - intros (e & He & Hn). exists e.2. split; [|done].
    by apply list_elem_of_fmap_2.
Qed.

(** The state of the second loop after the groups [done] were collapsed. *)
Record Collapsed (g : XGraph) (done : list (MergeKey * gset N))
    (st : XGraph * gmap N N) : Prop := {
  col_repl : ∀ n m, st.2 !! n = Some m
                    ↔ ∃ e, e ∈ done ∧ n ∈ e.2 ∧ m = MergedNodeKey e.2;
  col_nodes : nodes st.1
              = filter (λ kv, kv.1 ∉ replaced_set done) (nodes g)
                ++ (merged_item <$> done);
  col_edges : edges st.1 = set_map (replaced_edge st.2) (edges g);
}.

Lemma Collapsed_init g : Collapsed g [] (g, ∅).
Proof.
  split; simpl.
  - intros n m. rewrite lookup_empty. split; [done|].
    by intros (e & ?%elem_of_nil & _).
  - rewrite app_nil_r. symmetry. apply list_filter_all.
    intros kv _. unfold replaced_set. simpl. apply not_elem_of_empty.
  - apply set_eq. intros [u v]. rewrite elem_of_map. split.
    + intros He. exists (u, v). split; [|done].
      unfold replaced_edge, replaced. simpl. by rewrite !lookup_empty.
    + intros ([u' v'] & Heq & He). unfold replaced_edge, replaced in Heq.
      simpl in Heq. rewrite !lookup_empty in Heq. simpl in Heq. by rewrite Heq.
Qed.

Lemma add_node_to_fresh (l : list (N * NodeState)) n attrs :
  n ∉ l.*1 → add_node_to l n attrs = l ++ [(n, attrs)].
Proof.
  induction l as [|[m st] l IH]; simpl; [done|].
  intros [Hne Hl]%not_elem_of_cons. destruct (decide (m = n)); [done|].
  by rewrite IH.
Qed.

Lemma add_node_to_present (l : list (N * NodeState)) n :
  n ∈ l.*1 → add_node_to l n ∅ = l.
Proof.
  induction l as [|[m st] l IH]; simpl; [by intros ?%elem_of_nil|].
  destruct (decide (m = n)) as [->|Hne].
  - intros _. by rewrite (left_id_L ∅ (∪)).
  - intros [?|Hin]%elem_of_cons; [done|]. by rewrite IH.
Qed.

Lemma add_edge_present g u v :
  u ∈ node_keys g → v ∈ node_keys g →
  add_edge g u v = {| nodes := nodes g; edges := {[(u, v)]} ∪ edges g |}.
Proof.
  intros Hu Hv. unfold add_edge.
  rewrite (add_node_to_present _ u) by done.
  by rewrite (add_node_to_present _ v) by done.
Qed.

(** Adding the edges [(f x, h x)] between nodes of the graph. *)
Lemma add_edges_present {X} (f h : X → N) (xs : list X) : ∀ g,
  (∀ x, x ∈ xs → f x ∈ node_keys g ∧ h x ∈ node_keys g) →
  foldl (λ g x, add_edge g (f x) (h x)) g xs
  = {| nodes := nodes g;
       edges := list_to_set ((λ x, (f x, h x)) <$> xs) ∪ edges g |}.
Proof.
  induction xs as [|x xs IH]; intros g Hin; simpl.
  - destruct g. simpl. by rewrite (left_id_L ∅ (∪)).
  - destruct (Hin x) as [Hf Hh]; [left|].
    rewrite add_edge_present by done. rewrite IH.
    + simpl. f_equal. apply set_eq. intros e.
      rewrite !elem_of_union, elem_of_singleton. clear. tauto.
    + intros y Hy. apply Hin. by right.
Qed.

Lemma insert_all_lookup (r : gmap N N) (ms : list N) m n :
  foldl (λ r member, <[member := m]> r) r ms !! n
  = if decide (n ∈ ms) then Some m else r !! n.
Proof.
  revert r. induction ms as [|a ms IH]; intros r; simpl.
  - destruct (decide (n ∈ [])) as [Hin|]; [by apply elem_of_nil in Hin|done].
  - rewrite IH. destruct (decide (n ∈ ms)) as [Hin|Hin].
    + destruct (decide (n ∈ a :: ms)) as [|Hn]; [done|].
      destruct Hn. by right.
    + destruct (decide (n = a)) as [->|Hne].
      * destruct (decide (a ∈ a :: ms)) as [|Hn]; [|destruct Hn; left].
        by rewrite lookup_insert_eq.
      * destruct (decide (n ∈ a :: ms)) as [[?|?]%elem_of_cons|]; [done..|].
        by rewrite lookup_insert_ne.
Qed.

(** Distinct frozensets are distinct merged node keys. *)
Hypothesis MergedNodeKey_inj : Inj (=) (=) MergedNodeKey.

Lemma Collapsed_node_keys g done st x :
  Collapsed g done st →
  x ∈ node_keys st.1
  ↔ (x ∈ node_keys g ∧ x ∉ replaced_set done)
    ∨ ∃ e, e ∈ done ∧ x = MergedNodeKey e.2.
Proof.
  intros [_ Hnodes _]. unfold node_keys. rewrite Hnodes, fmap_app, elem_of_app.
  rewrite !list_elem_of_fmap. split.
  - intros [([x' stx] & -> & [Hx Hin]%list_elem_of_filter)
           |(? & -> & (e & -> & He)%list_elem_of_fmap)].
    + left. split; [|done]. by exists (x', stx).
    + right. by exists e.
  - intros [[([x' stx] & -> & Hin) Hx]|(e & He & ->)].
    + left. exists (x', stx). split; [done|]. by apply list_elem_of_filter.
    + right. exists (merged_item e). split; [done|].
      by apply list_elem_of_fmap_2.
Qed.

Lemma Collapsed_replaced_node g done st x :
  Collapsed g done st → x ∈ node_keys g → replaced st.2 x ∈ node_keys st.1.
Proof.
  intros Hc Hx. apply (Collapsed_node_keys g done st _ Hc).
  unfold replaced. destruct (st.2 !! x) as [m|] eqn:E; simpl.
  - apply (col_repl _ _ _ Hc) in E as (e & He & _ & ->). right. eauto.
  - left. split; [done|]. intros (e & He & Hxe)%elem_of_replaced_set.
    assert (st.2 !! x = Some (MergedNodeKey e.2)) as Hs
      by (apply (col_repl _ _ _ Hc); eauto).
    congruence.
Qed.

(** One group of two or more members is collapsed. *)
Lemma collapse_step g done st e :
  well_formed g → Collapsed g done st →
  twin_group g e → (2 ≤ size e.2)%nat →
  (∀ e', e' ∈ done → e'.2 ## e.2) →
  Collapsed g (done ++ [e]) (collapse st e).
Proof using MergedNodeKey_inj.
  intros Hwf Hc [Hne Htw] Hsize Hdone.
  pose proof Hc as [Hrepl Hnodes Hedges].
  destruct e as [k G]; simpl in *.
  unfold collapse; simpl. rewrite decide_False by lia.
  set (M := MergedNodeKey G).
  set (attrs := merged_state (mk_dimensions k) (mk_storage_class_name k)
                  (mk_task_class_name k)).
  assert (∀ a, a ∈ G → a ∈ node_keys g) as HGn by (intros a Ha; by apply Htw).
  assert (∀ s, MergedNodeKey s ∉ G) as HMG.
  { intros s Hs. apply (wf_plain g Hwf s). by apply HGn. }
  destruct (set_choose_L G Hne) as [a0 Ha0].
  destruct (Htw a0 Ha0) as (_ & Hpred & Hsucc).
  assert (∀ p, p ∈ mk_parents k → (p, a0) ∈ edges g) as Hpar.
  { intros p Hp. apply elem_of_pred_edges. by rewrite Hpred. }
  assert (∀ c, c ∈ mk_children k → (a0, c) ∈ edges g) as Hchi.
  { intros c Hc'. apply elem_of_succ_edges. by rewrite Hsucc. }
  assert (M ∉ node_keys st.1) as HMfresh.
  { rewrite (Collapsed_node_keys g done st M Hc).
    intros [[HMg _]|(e' & He' & Heq)].
    - by apply (wf_plain g Hwf G).
    - apply MergedNodeKey_inj in Heq. specialize (Hdone e' He').
      rewrite <-Heq in Hdone.
      exact (proj1 (elem_of_disjoint _ _) Hdone a0 Ha0 Ha0). }
  assert (nodes (add_node st.1 M attrs) = nodes st.1 ++ [(M, attrs)]) as Hn1.
  { simpl. by apply add_node_to_fresh. }
  assert (∀ x, x ∈ node_keys g →
               replaced st.2 x ∈ node_keys (add_node st.1 M attrs)) as Hrin.
  { intros x Hx. unfold node_keys. rewrite Hn1, fmap_app. apply elem_of_app.
    left. by apply (Collapsed_replaced_node g done). }
  assert (M ∈ node_keys (add_node st.1 M attrs)) as HMin.
  { unfold node_keys. rewrite Hn1, fmap_app. apply elem_of_app. right. left. }
  rewrite (add_edges_present (replaced st.2) (λ _, M)).
  2:{ intros p Hp%elem_of_elements. split; [|done].
      apply Hrin. by apply (wf_edges g Hwf p a0), Hpar. }
  rewrite (add_edges_present (λ _, M) (replaced st.2)).
  2:{ intros c Hc'%elem_of_elements. split; [done|].
      apply Hrin. by apply (wf_edges g Hwf a0 c), Hchi. }
  assert (∀ u v, (u, v) ∈ edges g → u ∈ G → v ∈ G → False) as Hintra.
  { intros u v Huv Hu Hv. destruct (Htw u Hu) as (_ & Hpu & _).
    destruct (Htw v Hv) as (_ & Hpv & _).
    apply (wf_loops g Hwf u). apply elem_of_pred_edges.
    rewrite Hpu, <-Hpv. by apply elem_of_pred_edges. }
  set (repl' := foldl (λ r member, <[member := M]> r) st.2 (elements G)).
  assert (∀ x, x ∈ G → replaced repl' x = M) as HR1.
  { intros x Hx. unfold replaced, repl'. rewrite insert_all_lookup.
    by rewrite decide_True by by apply elem_of_elements. }
  assert (∀ x, x ∉ G → replaced repl' x = replaced st.2 x) as HR2.
  { intros x Hx. unfold replaced, repl'. rewrite insert_all_lookup.
    by rewrite decide_False by by rewrite elem_of_elements. }
  assert (∀ x, x ∉ G → replaced st.2 x ∉ G) as HR3.
  { intros x Hx. unfold replaced. destruct (st.2 !! x) as [m|] eqn:E; [|done].
    simpl. apply Hrepl in E as (e' & _ & _ & ->). apply HMG. }
  split; simpl.
  - intros n m. unfold repl'. rewrite insert_all_lookup.
    destruct (decide (n ∈ elements G)) as [Hn%elem_of_elements|Hn].
    + split.
      * intros [= <-]. exists (k, G). split; [|done].
        apply elem_of_app. right. left.
      * intros (e' & [He'|He'%list_elem_of_singleton]%elem_of_app & Hne' & ->).
        -- destruct (proj1 (elem_of_disjoint _ _) (Hdone e' He') n); done.
        -- by subst e'.
    + rewrite elem_of_elements in Hn. rewrite Hrepl. split.
      * intros (e' & He' & ? & ?). exists e'. split; [|done].
        apply elem_of_app. by left.
      * intros (e' & [He'|He'%list_elem_of_singleton]%elem_of_app & Hne' & ->).
        -- eauto.
        -- subst e'. done.
  - simpl in Hn1. rewrite Hn1, Hnodes, !filter_app, fmap_app, list_filter_filter.
    simpl.
    rewrite <-app_assoc. f_equal; [|f_equal].
    + apply list_filter_iff. intros kv.
      rewrite !elem_of_replaced_set. split.
      * intros [HG Hd] (e' & [He'|He'%list_elem_of_singleton]%elem_of_app & Hin).
        -- apply Hd. eauto.
        -- subst e'. done.
      * intros Hn'. split.
        -- intros HG. apply Hn'. exists (k, G). split; [|done].
           apply elem_of_app. right. left.
        -- intros (e' & He' & Hin). apply Hn'. exists e'. split; [|done].
           apply elem_of_app. by left.
    + apply list_filter_all. intros kv (e' & -> & He')%list_elem_of_fmap.
      apply HMG.
    + rewrite filter_cons_True by apply HMG. done.
  - apply set_eq. intros [u' v']. rewrite elem_of_filter. simpl.
    rewrite !elem_of_union, !elem_of_list_to_set, !list_elem_of_fmap.
    rewrite Hedges, !elem_of_map. split.
    + intros [[Hu' Hv'] [(c & [= -> ->] & Hc'%elem_of_elements)
                        |[(p & [= -> ->] & Hp%elem_of_elements)
                         |([u v] & [= -> ->] & Huv)]]].
      * exists (a0, c). split; [|by apply Hchi].
        unfold replaced_edge. simpl. rewrite HR1 by done.
        rewrite HR2; [done|]. intros Hcg. by apply (Hintra a0 c); [apply Hchi|..].
      * exists (p, a0). split; [|by apply Hpar].
        unfold replaced_edge. simpl. rewrite (HR1 a0) by done.
        rewrite HR2; [done|]. intros Hpg. by apply (Hintra p a0); [apply Hpar|..].
      * exists (u, v). split; [|done]. unfold replaced_edge. simpl.
        rewrite !HR2; [done|..].
        -- intros Hvg. simpl in Hv'. unfold replaced in Hv'.
           destruct (st.2 !! v) as [m|] eqn:E; simpl in Hv'; [|done].
           apply Hrepl in E as (e' & He' & Hve' & _).
           destruct (proj1 (elem_of_disjoint _ _) (Hdone e' He') v); done.
        -- intros Hug. simpl in Hu'. unfold replaced in Hu'.
           destruct (st.2 !! u) as [m|] eqn:E; simpl in Hu'; [|done].
           apply Hrepl in E as (e' & He' & Hue' & _).
           destruct (proj1 (elem_of_disjoint _ _) (Hdone e' He') u); done.
    + intros ([u v] & [= -> ->] & Huv). unfold replaced_edge. simpl.
      destruct (decide (u ∈ G)) as [Hu|Hu]; destruct (decide (v ∈ G)) as [Hv|Hv].
      * destruct (Hintra u v Huv Hu Hv).
      * rewrite (HR1 u), (HR2 v) by done. split.
        -- split; [apply HMG|by apply HR3].
        -- left. exists v. split; [done|]. apply elem_of_elements.
           destruct (Htw u Hu) as (_ & _ & <-). by apply elem_of_succ_edges.
      * rewrite (HR2 u), (HR1 v) by done. split.
        -- split; [by apply HR3|apply HMG].
        -- right. left. exists u. split; [done|]. apply elem_of_elements.
           destruct (Htw v Hv) as (_ & <- & _). by apply elem_of_pred_edges.
      * rewrite (HR2 u), (HR2 v) by done. split.
        -- split; by apply HR3.
        -- right. right. by exists (u, v).
Qed.

Lemma collapse_small st e : (size e.2 < 2)%nat → collapse st e = st.
Proof. intros Hs. unfold collapse. by rewrite decide_True. Qed.

(** The whole second loop: the groups of two or more members are collapsed,
    in order. *)
Lemma collapse_fold g all :
  well_formed g → NoDup all →
  (∀ e, e ∈ all → twin_group g e) →
  (∀ e1 e2 n, e1 ∈ all → e2 ∈ all → n ∈ e1.2 → n ∈ e2.2 → e1 = e2) →
  ∀ rest pre st,
    all = pre ++ rest →
    Collapsed g (filter (λ e, 2 ≤ size e.2)%nat pre) st →
    Collapsed g (filter (λ e, 2 ≤ size e.2)%nat all) (foldl collapse st rest).
Proof using MergedNodeKey_inj.
  intros Hwf Hnd Htw Hov.
  induction rest as [|e rest IH]; intros pre st Hall Hc; simpl.
  - by rewrite Hall, app_nil_r.
  - apply (IH (pre ++ [e])); [by rewrite <-app_assoc|].
    rewrite filter_app.
    destruct (decide (2 ≤ size e.2)%nat) as [Hbig|Hsmall].
    + rewrite filter_cons_True by done. simpl.
      apply collapse_step; try done.
      * apply Htw. rewrite Hall. apply elem_of_app. right. left.
      * intros e' [_ He']%list_elem_of_filter. apply elem_of_disjoint.
        intros n Hn1 Hn2.
        assert (e' = e) as ->.
        { apply (Hov e' e n); try done; rewrite Hall.
          - apply elem_of_app. by left.
          - apply elem_of_app. right. left. }
        rewrite Hall in Hnd. apply NoDup_app in Hnd as (_ & Hdis & _).
        apply (Hdis e He'). left.
    + rewrite filter_cons_False by done. simpl. rewrite app_nil_r.
      rewrite collapse_small by lia. done.
Qed.

(** ** The groups of a graph *)

Lemma node_key_inv g options n st k :
  node_key g options (n, st) = Ok k →
  mk_parents k = predecessors g n
  ∧ mk_children k = successors g n
  ∧ key_attrs st options
    = Ok (mk_dimensions k, mk_storage_class_name k, mk_task_class_name k).
Proof.
  unfold node_key, from_node_state. simpl.
  destruct (key_attrs st options) as [[[d s] t]|]; [|done]. simpl.
  by intros [= <-].
Qed.

Record Groups_of (g : XGraph) (options : NodeAttributeOptions)
    (groups : list (MergeKey * gset N)) : Prop := {
  go_nodup : NoDup groups.*1;
  go_keys : ∀ item, item ∈ nodes g → ∃ k, node_key g options item = Ok k;
  go_mem : ∀ k s n, (k, s) ∈ groups →
             (n ∈ s ↔ ∃ st, (n, st) ∈ nodes g
                            ∧ node_key g options (n, st) = Ok k);
  go_interm : ∀ k s, (k, s) ∈ groups → is_intermediate k ∧ s ≠ ∅;
  go_all : ∀ item k, item ∈ nodes g → node_key g options item = Ok k →
             is_intermediate k → ∃ s, (k, s) ∈ groups;
}.

Lemma groups_of_fold g options groups :
  for_each (group_step g options) (nodes g) [] = Ok groups →
  Groups_of g options groups.
Proof.
  intros Hrun.
  destruct (group_fold_spec g options (nodes g) [] groups Hrun)
    as (Hnd & Hkeys & Hdom & Hmem); [constructor|].
  assert (∀ k s, (k, s) ∈ groups → s = group_get groups k) as Hget.
  { intros k s Hin. symmetry. by apply group_get_elem. }
  assert (∀ k s, (k, s) ∈ groups →
            ∃ item, item ∈ nodes g ∧ node_key g options item = Ok k
                    ∧ is_intermediate k) as Hwit.
  { intros k s Hin.
    destruct (proj1 (Hdom k)) as [?%elem_of_nil|?]; [|done..].
    apply list_elem_of_fmap. by exists (k, s). }
  split; try done.
  - intros k s n Hin. rewrite (Hget k s Hin), Hmem. simpl. split.
    + intros [?%elem_of_empty|(st & ? & ? & ?)]; [done|eauto].
    + intros (st & Hst & Hk). right. exists st. split; [done|]. split; [done|].
      by destruct (Hwit k s Hin) as (_ & _ & _ & ?).
  - intros k s Hin. destruct (Hwit k s Hin) as ([n st] & Hitem & Hk & Hi).
    split; [done|]. intros ->.
    assert (n ∈ group_get groups k) as Hn.
    { apply Hmem. right. eauto. }
    rewrite <-(Hget k ∅ Hin) in Hn. by apply elem_of_empty in Hn.
  - intros item k Hitem Hk Hi. exists (group_get groups k).
    apply group_get_in, Hdom. right. eauto.
Qed.

Lemma groups_of_twin g options groups e :
  Groups_of g options groups → e ∈ groups → twin_group g e.
Proof.
  intros Hg He. destruct e as [k s].
  destruct (go_interm _ _ _ Hg k s He) as [_ Hne]. split; [done|].
  simpl. intros a Ha.
  apply (go_mem _ _ _ Hg k s a He) in Ha as (st & Hst & Hk).
  apply node_key_inv in Hk as (-> & -> & _). split; [|done].
  apply list_elem_of_fmap. by exists (a, st).
Qed.

Lemma groups_of_overlap g options groups e1 e2 n :
  NoDup (node_keys g) → Groups_of g options groups →
  e1 ∈ groups → e2 ∈ groups → n ∈ e1.2 → n ∈ e2.2 → e1 = e2.
Proof using Attr_eq.
  intros Hnd Hg He1 He2 Hn1 Hn2. destruct e1 as [k1 s1], e2 as [k2 s2].
  simpl in *.
  apply (go_mem _ _ _ Hg k1 s1 n He1) in Hn1 as (st1 & Hst1 & Hk1).
  apply (go_mem _ _ _ Hg k2 s2 n He2) in Hn2 as (st2 & Hst2 & Hk2).
  assert (st1 = st2) as -> by (by eapply (NoDup_fst_unique (nodes g))).
  assert (k1 = k2) as -> by congruence.
  f_equal. rewrite <-(group_get_elem groups k2 s1), <-(group_get_elem groups k2 s2);
    try done; apply (go_nodup _ _ _ Hg).
Qed.

(** What [merge_graph_intermediates] returns on a well-formed graph. *)
Lemma merge_graph_intermediates_collapsed g options g' :
  well_formed g → merge_graph_intermediates g options = Ok g' →
  ∃ groups replacements,
    Groups_of g options groups
    ∧ Collapsed g (filter (λ e, 2 ≤ size e.2)%nat groups) (g', replacements).
Proof using MergedNodeKey_inj.
  intros Hwf. unfold merge_graph_intermediates.
  destruct (for_each (group_step g options) (nodes g) []) as [groups|] eqn:E;
    [|done]. simpl. intros [= <-].
  pose proof (groups_of_fold g options groups E) as Hg.
  exists groups, (foldl collapse (g, ∅) groups).2. split; [done|].
  rewrite <-surjective_pairing.
  apply (collapse_fold g groups Hwf) with (pre := []); try done.
  - eapply NoDup_fmap_1, (go_nodup _ _ _ Hg).
  - intros e He. by eapply groups_of_twin.
  - intros e1 e2 n. eapply groups_of_overlap; [apply Hwf|done].
  - apply Collapsed_init.
Qed.

(** ** Sizes of groups *)

Lemma size_lt_2_unique (s : gset N) x y :
  (size s < 2)%nat → x ∈ s → y ∈ s → x = y.
Proof.
  intros Hs Hx Hy. destruct (size s) as [|[|n]] eqn:E; [..|lia].
  - apply size_empty_iff in E. rewrite (leibniz_equiv _ _ E) in Hx.
    by apply elem_of_empty in Hx.
  - by apply (size_singleton_inv s).
Qed.

Lemma unique_size_lt_2 (s : gset N) :
  (∀ x y, x ∈ s → y ∈ s → x = y) → (size s < 2)%nat.
Proof.
  intros Hu. destruct (decide (s = ∅)) as [->|Hne].
  - rewrite size_empty. lia.
  - destruct (set_choose_L s Hne) as [x Hx].
    assert (s = {[x]}) as ->.
    { apply set_eq. intros y. rewrite elem_of_singleton. split.
      - intros Hy. by apply Hu.
      - by intros ->. }
    rewrite size_singleton. lia.
Qed.

Lemma filter_only {A} (P : A → Prop) `{∀ a, Decision (P a)} (l : list A) x :
  NoDup l → x ∈ l → P x → (∀ y, y ∈ l → P y → y = x) → filter P l = [x].
Proof.
  induction l as [|a l IH]; [by intros _ ?%elem_of_nil|].
  intros [Ha Hnd]%NoDup_cons [->|Hin]%elem_of_cons Hx Hall.
  - rewrite filter_cons_True by done. f_equal.
    apply elem_of_nil_inv. intros y [Hy Hyl]%list_elem_of_filter.
    assert (y = a) as -> by (apply Hall; [by right|done]). done.
  - rewrite filter_cons_False; [apply IH; try done|].
    + intros y Hy. apply Hall. by right.
    + intros Hpa. assert (a = x) as -> by (apply Hall; [left|done]). done.
Qed.

Lemma group_fold_ok g options items : ∀ groups0,
  (∀ item, item ∈ items → ∃ k, node_key g options item = Ok k) →
  ∃ groups, for_each (group_step g options) items groups0 = Ok groups.
Proof.
  induction items as [|item items IH]; intros groups0 Hok; simpl; [eauto|].
  destruct (Hok item) as [k Hk]; [left|]. unfold group_step at 1.
  rewrite Hk. simpl.
  destruct (decide (is_intermediate k)); simpl; apply IH;
    intros it Hit; apply Hok; by right.
Qed.

(** C6. In a well-formed graph whose nodes all have a merge key, let [a],
    [b], [c] be three distinct nodes with the same merge key [k] (the same
    compared attributes, the same non-empty parent set, and the single child
    [child]), no fourth node having that key and no two other nodes sharing
    a key with parents and children. Then [merge_graph_intermediates]
    returns a graph in which the three nodes are gone and the node
    [MergedNodeKey({a, b, c})] has been appended, with the attributes of
    [k], the parents of [k] as its predecessors and [child] as its only
    successor; the edges between the other nodes are as before. *)
Theorem merge_three_intermediates g options a b c sa sb sc k child :
  well_formed g →
  (∀ item, item ∈ nodes g → ∃ k', node_key g options item = Ok k') →
  (a, sa) ∈ nodes g → (b, sb) ∈ nodes g → (c, sc) ∈ nodes g →
  a ≠ b → a ≠ c → b ≠ c →
  node_key g options (a, sa) = Ok k →
  node_key g options (b, sb) = Ok k →
  node_key g options (c, sc) = Ok k →
  mk_parents k ≠ ∅ → mk_children k = {[child]} →
  (∀ item, item ∈ nodes g → node_key g options item = Ok k →
           item.1 ∈ ({[a; b; c]} : gset N)) →
  (∀ i j k', i ∈ nodes g → j ∈ nodes g → k' ≠ k → is_intermediate k' →
             node_key g options i = Ok k' → node_key g options j = Ok k' →
             i.1 = j.1) →
  ∃ g',
    merge_graph_intermediates g options = Ok g'
    ∧ nodes g'
      = filter (λ kv, kv.1 ∉ ({[a; b; c]} : gset N)) (nodes g)
        ++ [(MergedNodeKey {[a; b; c]},
             merged_state (mk_dimensions k) (mk_storage_class_name k)
               (mk_task_class_name k))]
    ∧ predecessors g' (MergedNodeKey {[a; b; c]}) = mk_parents k
    ∧ successors g' (MergedNodeKey {[a; b; c]}) = {[child]}
    ∧ ∀ u v, u ≠ MergedNodeKey {[a; b; c]} → v ≠ MergedNodeKey {[a; b; c]} →
             ((u, v) ∈ edges g'
              ↔ (u, v) ∈ edges g ∧ (u ∉ ({[a; b; c]} : gset N))
                ∧ (v ∉ ({[a; b; c]} : gset N))).
Proof using MergedNodeKey_inj.
  intros Hwf Hok Ha Hb Hc Hab Hac Hbc Hka Hkb Hkc Hpar Hchild Honly Hother.
  set (G := ({[a; b; c]} : gset N)). set (M := MergedNodeKey G).
  assert (is_intermediate k) as Hik.
  { split; [done|]. rewrite Hchild. intros Heq.
    assert (child ∈ (∅ : gset N)) as Hin by (rewrite <-Heq; by apply elem_of_singleton).
    by apply elem_of_empty in Hin. }
  destruct (group_fold_ok g options (nodes g) [] Hok) as [groups Hrun].
  assert (∃ g', merge_graph_intermediates g options = Ok g') as [g' Hg'].
  { unfold merge_graph_intermediates. rewrite Hrun. simpl. eauto. }
  exists g'. split; [done|].
  destruct (merge_graph_intermediates_collapsed g options g' Hwf Hg')
    as (groups' & repl & Hgo & Hcol).
  destruct (go_all _ _ _ Hgo (a, sa) k Ha Hka Hik) as [s Hs].
  assert (s = G) as ->.
  { apply set_eq. intros n. rewrite (go_mem _ _ _ Hgo k s n Hs). split.
    - intros (st & Hst & Hk). by apply (Honly (n, st)).
    - unfold G. rewrite !elem_of_union, !elem_of_singleton.
      intros [[->| ->]| ->]; eauto. }
  assert (2 ≤ size G)%nat as Hbig.
  { destruct (decide (size G < 2)%nat) as [Hlt|]; [|lia].
    destruct Hab. apply (size_lt_2_unique G); [done|..];
      unfold G; rewrite !elem_of_union, !elem_of_singleton; auto. }
  assert (filter (λ e, 2 ≤ size e.2)%nat groups' = [(k, G)]) as Hfilter.
  { apply filter_only; try done.
    - eapply NoDup_fmap_1, (go_nodup _ _ _ Hgo).
    - intros [k' s'] Hin Hs'. simpl in Hs'.
      destruct (decide (k' = k)) as [->|Hne].
      + f_equal. rewrite <-(group_get_elem groups' k s'), <-(group_get_elem groups' k G);
          try done; apply (go_nodup _ _ _ Hgo).
      + exfalso. assert (size s' < 2)%nat; [|lia].
        apply unique_size_lt_2. intros x y Hx Hy.
        apply (go_mem _ _ _ Hgo k' s' x Hin) in Hx as (stx & Hstx & Hkx).
        apply (go_mem _ _ _ Hgo k' s' y Hin) in Hy as (sty & Hsty & Hky).
        apply (Hother (x, stx) (y, sty) k'); try done.
        by apply (go_interm _ _ _ Hgo k' s'). }
  rewrite Hfilter in Hcol. destruct Hcol as [Hrepl Hnodes Hedges].
  simpl in *.
  assert (replaced_set [(k, G)] = G) as HR.
  { unfold replaced_set. simpl. by rewrite (right_id_L ∅ (∪)). }
  assert (∀ n, n ∈ G → replaced repl n = M) as HR1.
  { intros n Hn. unfold replaced.
    assert (repl !! n = Some M) as ->; [|done].
    apply Hrepl. exists (k, G). split; [left|done]. }
  assert (∀ n, n ∉ G → replaced repl n = n) as HR2.
  { intros n Hn. unfold replaced.
    destruct (repl !! n) as [m|] eqn:E; [|done].
    apply Hrepl in E as (e & ->%list_elem_of_singleton & Hne & _). done. }
  assert (twin_group g (k, G)) as [_ Htw] by by eapply groups_of_twin.
  simpl in Htw.
  assert (a ∈ G) as HaG by (unfold G; rewrite !elem_of_union, !elem_of_singleton; auto).
  assert (∀ n, n ∈ G → n ∈ node_keys g) as HGn by (intros n Hn; by apply Htw).
  assert (∀ n, n ∈ node_keys g → n ≠ M) as HMn.
  { intros n Hn ->. by apply (wf_plain g Hwf G). }
  assert (∀ u v, (u, v) ∈ edges g → u ∈ G → v ∈ G → False) as Hintra.
  { intros u v Huv Hu Hv. destruct (Htw u Hu) as (_ & Hpu & _).
    destruct (Htw v Hv) as (_ & Hpv & _).
    apply (wf_loops g Hwf u). apply elem_of_pred_edges.
    rewrite Hpu, <-Hpv. by apply elem_of_pred_edges. }
  assert (∀ u v, (u, v) ∈ edges g' ↔
                 ∃ u0 v0, (u0, v0) ∈ edges g ∧ u = replaced repl u0
                          ∧ v = replaced repl v0) as Hedge.
  { intros u v. rewrite Hedges, elem_of_map. split.
    - intros ([u0 v0] & [= -> ->] & Huv). eauto.
    - intros (u0 & v0 & Huv & -> & ->). by exists (u0, v0). }
  split; [by rewrite Hnodes, HR|]. split; [|split].
  - apply set_eq. intros u. rewrite elem_of_pred_edges, Hedge. split.
    + intros (u0 & v0 & Huv & -> & HvM).
      destruct (wf_edges g Hwf u0 v0 Huv) as [Hu0 Hv0].
      destruct (decide (v0 ∈ G)) as [Hv|Hv].
      * destruct (Htw v0 Hv) as (_ & <- & _).
        rewrite HR2; [by apply elem_of_pred_edges|].
        intros Hu. by apply (Hintra u0 v0).
      * rewrite HR2 in HvM by done. by destruct (HMn v0).
    + intros Hu. destruct (Htw a HaG) as (_ & Hpa & _).
      rewrite <-Hpa in Hu. apply elem_of_pred_edges in Hu.
      exists u, a. split; [done|]. rewrite (HR1 a) by done.
      split; [|done]. rewrite HR2; [done|]. intros HuG. by apply (Hintra u a).
  - rewrite <-Hchild. apply set_eq. intros v.
    rewrite elem_of_succ_edges, Hedge. split.
    + intros (u0 & v0 & Huv & HuM & ->).
      destruct (wf_edges g Hwf u0 v0 Huv) as [Hu0 Hv0].
      destruct (decide (u0 ∈ G)) as [Hu|Hu].
      * destruct (Htw u0 Hu) as (_ & _ & <-).
        rewrite HR2; [by apply elem_of_succ_edges|].
        intros Hv. by apply (Hintra u0 v0).
      * rewrite HR2 in HuM by done. by destruct (HMn u0).
    + intros Hv. destruct (Htw a HaG) as (_ & _ & Hsa).
      rewrite <-Hsa in Hv. apply elem_of_succ_edges in Hv.
      exists a, v. split; [done|]. rewrite (HR1 a) by done.
      split; [done|]. rewrite HR2; [done|]. intros HvG. by apply (Hintra a v).
  - intros u v HuM HvM. rewrite Hedge. split.
    + intros (u0 & v0 & Huv & -> & ->).
      destruct (decide (u0 ∈ G)) as [Hu|Hu]; [by rewrite HR1 in HuM|].
      destruct (decide (v0 ∈ G)) as [Hv|Hv]; [by rewrite HR1 in HvM|].
      by rewrite !HR2.
    + intros (Huv & Hu & Hv). exists u, v. by rewrite !HR2.
Qed.

(** The attributes of a merged node give back the attributes of its key. *)
Lemma key_attrs_merged st options d s t :
  key_attrs st options = Ok (d, s, t) →
  key_attrs (merged_state d s t) options = Ok (d, s, t).
Proof.
  unfold key_attrs, merged_state.
  assert (∀ d0 s0 t0 : option Attr,
            ({[ "storage_class_name" := s0; "task_class_name" := t0;
                "dimensions" := d0 ]} : NodeState) !! "dimensions" = Some d0)
    as Hd.
  { intros. by rewrite lookup_insert_ne, lookup_insert_ne, lookup_singleton_eq. }
  assert (∀ d0 s0 t0 : option Attr,
            ({[ "storage_class_name" := s0; "task_class_name" := t0;
                "dimensions" := d0 ]} : NodeState) !! "storage_class_name"
            = Some s0) as Hs.
  { intros. by rewrite lookup_insert_eq. }
  assert (∀ d0 s0 t0 : option Attr,
            ({[ "storage_class_name" := s0; "task_class_name" := t0;
                "dimensions" := d0 ]} : NodeState) !! "task_class_name"
            = Some t0) as Ht.
  { intros. by rewrite lookup_insert_ne, lookup_insert_eq. }
  rewrite Hd, Hs, Ht. simpl.
  destruct (detail_truthy (dimensions options)); simpl.
  - destruct (st !! "dimensions") as [v|]; [|done]. simpl.
    intros [= <- <- <-].
    by destruct (default false (storage_classes options)),
      (detail_truthy (task_classes options)).
  - intros [= <- <- <-].
    by destruct (default false (storage_classes options)),
      (detail_truthy (task_classes options)).
Qed.

(** ** A second application finds nothing to merge *)

Section second_pass.

Variables (g g' : XGraph) (options : NodeAttributeOptions).
Variables (groups : list (MergeKey * gset N)) (replacements : gmap N N).

Hypothesis Hwf : well_formed g.
Hypothesis Hgo : Groups_of g options groups.
Hypothesis Hcol :
  Collapsed g (filter (λ e, 2 ≤ size e.2)%nat groups) (g', replacements).

Abbreviation rep := (replaced replacements).

Lemma big_group e :
  e ∈ filter (λ e, 2 ≤ size e.2)%nat groups →
  e ∈ groups ∧ twin_group g e.
Proof using Hgo.
  intros [_ He]%list_elem_of_filter. split; [done|]. by eapply groups_of_twin.
Qed.

Lemma rep_cases x :
  (rep x = x ∧ x ∉ replaced_set (filter (λ e, 2 ≤ size e.2)%nat groups))
  ∨ ∃ e, e ∈ filter (λ e, 2 ≤ size e.2)%nat groups ∧ x ∈ e.2
         ∧ rep x = MergedNodeKey e.2.
Proof using Hcol.
  unfold replaced. destruct (replacements !! x) as [m|] eqn:E; simpl.
  - apply (col_repl _ _ _ Hcol) in E as (e & He & Hx & ->). right. eauto.
  - left. split; [done|]. intros (e & He & Hx)%elem_of_replaced_set.
    assert ((g', replacements).2 !! x = Some (MergedNodeKey e.2)) as Hs
      by (apply (col_repl _ _ _ Hcol); eauto).
    simpl in Hs. congruence.
Qed.

(** Two nodes are replaced by the same node only when they are the same or
    were merged together. *)
Lemma rep_inj x y :
  x ∈ node_keys g → y ∈ node_keys g → rep x = rep y →
  x = y ∨ ∃ e, e ∈ groups ∧ twin_group g e ∧ x ∈ e.2 ∧ y ∈ e.2.
Proof using Hwf Hgo Hcol MergedNodeKey_inj.
  intros Hx Hy.
  destruct (rep_cases x) as [[-> _]|(e1 & He1 & Hx1 & ->)];
    destruct (rep_cases y) as [[-> _]|(e2 & He2 & Hy2 & ->)].
  - by left.
  - intros ->. by destruct (wf_plain g Hwf e2.2).
  - intros <-. by destruct (wf_plain g Hwf e1.2).
  - intros Heq%MergedNodeKey_inj. right. exists e1.
    destruct (big_group e1 He1) as [? ?]. by rewrite <-Heq in Hy2.
Qed.

Lemma edges_second u' v' :
  (u', v') ∈ edges g' ↔ ∃ u v, (u, v) ∈ edges g ∧ u' = rep u ∧ v' = rep v.
Proof using Hcol.
  pose proof (col_edges _ _ _ Hcol) as He. simpl in He.
  rewrite He, elem_of_map. split.
  - intros ([u v] & [= -> ->] & Huv). eauto.
  - intros (u & v & Huv & -> & ->). by exists (u, v).
Qed.

Lemma predecessors_second n :
  n ∈ node_keys g →
  predecessors g' (rep n) = set_map rep (predecessors g n).
Proof using Hwf Hgo Hcol MergedNodeKey_inj.
  intros Hn. apply set_eq. intros u'.
  rewrite elem_of_pred_edges, edges_second, elem_of_map. split.
  - intros (u & v & Huv & -> & Hv). exists u. split; [done|].
    destruct (wf_edges g Hwf u v Huv) as [Hu Hvn].
    destruct (rep_inj v n Hvn Hn (eq_sym Hv)) as [->|(e & _ & [_ Htw] & Hve & Hne)].
    + by apply elem_of_pred_edges.
    + destruct (Htw v Hve) as (_ & Hpv & _). destruct (Htw n Hne) as (_ & Hpn & _).
      rewrite Hpn, <-Hpv. by apply elem_of_pred_edges.
  - intros (u & -> & Hu%elem_of_pred_edges). eauto.
Qed.

Lemma successors_second n :
  n ∈ node_keys g →
  successors g' (rep n) = set_map rep (successors g n).
Proof using Hwf Hgo Hcol MergedNodeKey_inj.
  intros Hn. apply set_eq. intros v'.
  rewrite elem_of_succ_edges, edges_second, elem_of_map. split.
  - intros (u & v & Huv & Hu & ->). exists v. split; [done|].
    destruct (wf_edges g Hwf u v Huv) as [Hun Hv].
    destruct (rep_inj u n Hun Hn (eq_sym Hu)) as [->|(e & _ & [_ Htw] & Hue & Hne)].
    + by apply elem_of_succ_edges.
    + destruct (Htw u Hue) as (_ & _ & Hsu). destruct (Htw n Hne) as (_ & _ & Hsn).
      rewrite Hsn, <-Hsu. by apply elem_of_succ_edges.
  - intros (v & -> & Hv%elem_of_succ_edges). eauto.
Qed.

(** Replacement is one-to-one on parent sets and on child sets. *)
Lemma rep_predecessors_inj x y :
  x ∈ node_keys g → y ∈ node_keys g →
  set_map (D:=gset N) rep (predecessors g x) = set_map rep (predecessors g y) →
  predecessors g x ⊆ predecessors g y.
Proof using Hwf Hgo Hcol MergedNodeKey_inj.
  intros Hx Hy Heq u Hu.
  assert (rep u ∈ (set_map rep (predecessors g y) : gset N)) as Hr.
  { rewrite <-Heq. apply elem_of_map. eauto. }
  apply elem_of_map in Hr as (w & Hw & Hwy).
  apply elem_of_pred_edges in Hu, Hwy.
  destruct (wf_edges g Hwf u x Hu) as [Hun _].
  destruct (wf_edges g Hwf w y Hwy) as [Hwn _].
  destruct (rep_inj u w Hun Hwn Hw) as [->|(e & _ & [_ Htw] & Hue & Hwe)].
  - by apply elem_of_pred_edges.
  - destruct (Htw u Hue) as (_ & _ & Hsu). destruct (Htw w Hwe) as (_ & _ & Hsw).
    apply elem_of_pred_edges, elem_of_succ_edges. rewrite Hsu, <-Hsw.
    by apply elem_of_succ_edges.
Qed.

Lemma rep_successors_inj x y :
  x ∈ node_keys g → y ∈ node_keys g →
  set_map (D:=gset N) rep (successors g x) = set_map rep (successors g y) →
  successors g x ⊆ successors g y.
Proof using Hwf Hgo Hcol MergedNodeKey_inj.
  intros Hx Hy Heq u Hu.
  assert (rep u ∈ (set_map rep (successors g y) : gset N)) as Hr.
  { rewrite <-Heq. apply elem_of_map. eauto. }
  apply elem_of_map in Hr as (w & Hw & Hwy).
  apply elem_of_succ_edges in Hu, Hwy.
  destruct (wf_edges g Hwf x u Hu) as [_ Hun].
  destruct (wf_edges g Hwf y w Hwy) as [_ Hwn].
  destruct (rep_inj u w Hun Hwn Hw) as [->|(e & _ & [_ Htw] & Hue & Hwe)].
  - by apply elem_of_succ_edges.
  - destruct (Htw u Hue) as (_ & Hpu & _). destruct (Htw w Hwe) as (_ & Hpw & _).
    apply elem_of_succ_edges, elem_of_pred_edges. rewrite Hpu, <-Hpw.
    by apply elem_of_pred_edges.
Qed.

Lemma rep_member e x :
  e ∈ groups → (2 ≤ size e.2)%nat → x ∈ e.2 → rep x = MergedNodeKey e.2.
Proof using Hwf Hgo Hcol Attr_eq.
  intros He Hbig Hx.
  assert (e ∈ filter (λ e, 2 ≤ size e.2)%nat groups) as HeB
    by by apply list_elem_of_filter.
  destruct (rep_cases x) as [[_ Hn]|(e2 & He2 & Hx2 & ->)].
  - destruct Hn. apply elem_of_replaced_set. eauto.
  - destruct (big_group e2 He2) as [He2g _].
    by rewrite (groups_of_overlap g options groups e2 e x (wf_nodup g Hwf) Hgo).
Qed.

(** The merge key of a node after the first application. *)
Definition rep_key (k : MergeKey) : MergeKey :=
  {| mk_parents := set_map rep (mk_parents k);
     mk_dimensions := mk_dimensions k;
     mk_storage_class_name := mk_storage_class_name k;
     mk_task_class_name := mk_task_class_name k;
     mk_children := set_map rep (mk_children k) |}.

Lemma is_intermediate_rep_key k : is_intermediate (rep_key k) → is_intermediate k.
Proof.
  unfold is_intermediate, rep_key. simpl. intros [Hp Hc].
  split; intros Heq; [apply Hp|apply Hc]; rewrite Heq; apply set_map_empty.
Qed.

Lemma node_key_second n st k :
  (n, st) ∈ nodes g → node_key g options (n, st) = Ok k →
  ∀ st', key_attrs st' options = key_attrs st options →
         node_key g' options (rep n, st') = Ok (rep_key k).
Proof using Hwf Hgo Hcol MergedNodeKey_inj.
  intros Hin Hk st' Hst'.
  assert (n ∈ node_keys g) as Hn by (apply list_elem_of_fmap; by exists (n, st)).
  apply node_key_inv in Hk as (Hp & Hc & Ha).
  unfold node_key, from_node_state. simpl.
  rewrite Hst', Ha. simpl.
  rewrite predecessors_second, successors_second by done.
  unfold rep_key. by rewrite Hp, Hc.
Qed.

(** Every item of the new graph stands for a node of the old one, and its
    merge key is the replaced key of that node. *)
Lemma second_item item' :
  item' ∈ nodes g' →
  ∃ n st k, (n, st) ∈ nodes g ∧ node_key g options (n, st) = Ok k
            ∧ item'.1 = rep n ∧ node_key g' options item' = Ok (rep_key k).
Proof using Hwf Hgo Hcol MergedNodeKey_inj Attr_eq.
  pose proof (col_nodes _ _ _ Hcol) as Hn. simpl in Hn. rewrite Hn.
  intros [[Hout Hin]%list_elem_of_filter
         |(e & -> & He)%list_elem_of_fmap]%elem_of_app.
  - destruct item' as [n st]. simpl in Hout.
    destruct (go_keys _ _ _ Hgo (n, st) Hin) as [k Hk].
    assert (rep n = n) as Hrn.
    { destruct (rep_cases n) as [[? _]|(e & He & Hne & _)]; [done|].
      destruct Hout. apply elem_of_replaced_set. eauto. }
    exists n, st, k. repeat split; try done.
    rewrite <-Hrn at 1. by apply (node_key_second n st).
  - destruct (big_group e He) as [Heg [Hne Htw]].
    apply list_elem_of_filter in He as [Hbig _].
    destruct (set_choose_L e.2 Hne) as [a Ha]. destruct e as [k G].
    simpl in *.
    apply (go_mem _ _ _ Hgo k G a Heg) in Ha as Hako.
    destruct Hako as (sta & Hsta & Hka).
    exists a, sta, k. split; [done|]. split; [done|].
    pose proof (rep_member (k, G) a Heg Hbig Ha) as Hra. simpl in Hra.
    split; [done|]. unfold merged_item. simpl. rewrite <-Hra.
    apply (node_key_second a sta); try done.
    apply node_key_inv in Hka as (_ & _ & Hattrs). rewrite Hattrs.
    by apply (key_attrs_merged sta).
Qed.

Lemma rep_key_inj x stx kx y sty ky :
  (x, stx) ∈ nodes g → (y, sty) ∈ nodes g →
  node_key g options (x, stx) = Ok kx → node_key g options (y, sty) = Ok ky →
  rep_key kx = rep_key ky → kx = ky.
Proof using Hwf Hgo Hcol MergedNodeKey_inj.
  intros Hx Hy Hkx Hky Heq.
  assert (x ∈ node_keys g) as Hxn by (apply list_elem_of_fmap; by exists (x, stx)).
  assert (y ∈ node_keys g) as Hyn by (apply list_elem_of_fmap; by exists (y, sty)).
  apply node_key_inv in Hkx as (Hpx & Hcx & _).
  apply node_key_inv in Hky as (Hpy & Hcy & _).
  destruct kx as [px dx sx tx cx], ky as [py dy sy ty cy].
  unfold rep_key in Heq. simpl in *. injection Heq as Hp Hd Hs Ht Hc. subst.
  f_equal.
  - apply set_eq. intros u. split; by apply rep_predecessors_inj.
  - apply set_eq. intros u. split; by apply rep_successors_inj.
Qed.

(** In the new graph no two nodes share a merge key with parents and
    children. *)
Lemma second_keys_distinct i j k' :
  i ∈ nodes g' → j ∈ nodes g' → is_intermediate k' →
  node_key g' options i = Ok k' → node_key g' options j = Ok k' →
  i.1 = j.1.
Proof using Hwf Hgo Hcol MergedNodeKey_inj Attr_eq.
  intros Hi Hj Hint Hki Hkj.
  destruct (second_item i Hi) as (x & stx & kx & Hx & Hkx & -> & Hki').
  destruct (second_item j Hj) as (y & sty & ky & Hy & Hky & -> & Hkj').
  assert (rep_key kx = k') as Hrx by congruence.
  assert (rep_key ky = k') as Hry by congruence.
  assert (kx = ky) as <-
    by (apply (rep_key_inj x stx kx y sty ky); [done..|congruence]).
  assert (is_intermediate kx) as Hix.
  { apply is_intermediate_rep_key. by rewrite Hrx. }
  destruct (go_all _ _ _ Hgo (x, stx) kx Hx Hkx Hix) as [s0 Hs0].
  assert (x ∈ s0) as Hxs by (apply (go_mem _ _ _ Hgo kx s0 x Hs0); eauto).
  assert (y ∈ s0) as Hys by (apply (go_mem _ _ _ Hgo kx s0 y Hs0); eauto).
  destruct (decide (2 ≤ size s0)%nat) as [Hbig|Hsmall].
  - rewrite (rep_member (kx, s0) x), (rep_member (kx, s0) y); done.
  - f_equal. apply (size_lt_2_unique s0); [lia|done..].
Qed.

End second_pass.

Lemma foldl_collapse_small st groups :
  (∀ e, e ∈ groups → (size e.2 < 2)%nat) → foldl collapse st groups = st.
Proof.
  revert st. induction groups as [|e groups IH]; intros st Hs; simpl; [done|].
  rewrite collapse_small by (apply Hs; left). apply IH.
  intros e' He'. apply Hs. by right.
Qed.

(** C5 (amended). The intermediate merge is idempotent: applied to its own
    output, for a well-formed input graph and the same options,
    [merge_graph_intermediates] groups no two nodes and returns the graph
    unchanged. *)
Theorem merge_graph_intermediates_fixed_point g options g' :
  well_formed g →
  merge_graph_intermediates g options = Ok g' →
  merge_graph_intermediates g' options = Ok g'.
Proof using MergedNodeKey_inj Attr_eq.
  intros Hwf Hg'.
  destruct (merge_graph_intermediates_collapsed g options g' Hwf Hg')
    as (groups & repl & Hgo & Hcol).
  destruct (group_fold_ok g' options (nodes g') []) as [groups' Hrun].
  { intros item Hitem.
    destruct (second_item g g' options groups repl Hwf Hgo Hcol item Hitem)
      as (_ & _ & k & _ & _ & _ & Hk). eauto. }
  unfold merge_graph_intermediates. rewrite Hrun. simpl.
  pose proof (groups_of_fold g' options groups' Hrun) as Hgo'.
  rewrite foldl_collapse_small; [done|].
  intros [k' s'] Hin. simpl. apply unique_size_lt_2. intros x y Hx Hy.
  apply (go_mem _ _ _ Hgo' k' s' x Hin) in Hx as (stx & Hstx & Hkx).
  apply (go_mem _ _ _ Hgo' k' s' y Hin) in Hy as (sty & Hsty & Hky).
  apply (second_keys_distinct g g' options groups repl Hwf Hgo Hcol
           (x, stx) (y, sty) k'); try done.
  by apply (go_interm _ _ _ Hgo' k' s').
Qed.

(** ** What the intermediate merge does to a graph *)

Lemma key_attrs_cases (st : NodeState) options :
  (∃ a, key_attrs st options = Ok a
        ∧ (detail_truthy (dimensions options) = true
           → is_Some (st !! "dimensions")))
  ∨ (key_attrs st options = Raise (KeyError "dimensions")
     ∧ detail_truthy (dimensions options) = true
     ∧ st !! "dimensions" = None).
Proof.
  unfold key_attrs. destruct (detail_truthy (dimensions options)).
  - destruct (st !! "dimensions") as [v|]; simpl; [left|right]; eauto.
  - simpl. left. eexists. split; [done|]. done.
Qed.

Lemma group_loop_cases g options items : ∀ groups0,
  match for_each (group_step g options) items groups0 with
  | Ok _ =>
      detail_truthy (dimensions options) = true →
      ∀ item, item ∈ items → is_Some (item.2 !! "dimensions")
  | Raise e =>
      e = KeyError "dimensions"
      ∧ detail_truthy (dimensions options) = true
      ∧ ∃ item, item ∈ items ∧ item.2 !! "dimensions" = None
  end.
Proof.
  induction items as [|item items IH]; intros groups0; simpl.
  - by intros _ item ?%elem_of_nil.
  - unfold group_step at 1, node_key, from_node_state.
    destruct (key_attrs_cases item.2 options)
      as [(a & -> & Ha)|(-> & Ht & Hnone)]; simpl.
    + destruct (decide _); simpl;
        match goal with
        | |- context [for_each _ items ?gs] => specialize (IH gs)
        end;
        (destruct (for_each _ items _) as [groups|e];
         [intros Ht x [->|Hx]%elem_of_cons; [by apply Ha|by apply IH]
         |destruct IH as (-> & Ht & x & Hx & Hnone); repeat split; try done;
          exists x; split; [by right|done]]).
    + repeat split; try done. exists item. split; [by left|done].
Qed.

(** X19. [merge_graph_intermediates] can only fail on the subscript
    [state["dimensions"]]: it raises [KeyError('dimensions')] exactly when
    the options ask for dimensions and some node has no such attribute,
    and returns otherwise; a missing storage class or task class is read
    as [None]. *)
Theorem merge_graph_intermediates_raises g options :
  match merge_graph_intermediates g options with
  | Ok _ =>
      detail_truthy (dimensions options) = true →
      ∀ item, item ∈ nodes g → is_Some (item.2 !! "dimensions")
  | Raise e =>
      e = KeyError "dimensions"
      ∧ detail_truthy (dimensions options) = true
      ∧ ∃ item, item ∈ nodes g ∧ item.2 !! "dimensions" = None
  end.
Proof.
  unfold merge_graph_intermediates.
  pose proof (group_loop_cases g options (nodes g) []) as Hloop.
  by destruct (for_each (group_step g options) (nodes g) []).
Qed.

(** X20. A graph in which no two nodes share a merge key with parents and
    children is returned as it is. *)
Theorem merge_graph_intermediates_without_twins g options :
  (∀ item, item ∈ nodes g → ∃ k, node_key g options item = Ok k) →
  (∀ i j k, i ∈ nodes g → j ∈ nodes g → is_intermediate k →
            node_key g options i = Ok k → node_key g options j = Ok k →
            i.1 = j.1) →
  merge_graph_intermediates g options = Ok g.
Proof using Attr_eq.
  intros Hkeys Hsingle.
  destruct (group_fold_ok g options (nodes g) [] Hkeys) as [groups Hrun].
  unfold merge_graph_intermediates. rewrite Hrun. simpl.
  pose proof (groups_of_fold g options groups Hrun) as Hgo.
  rewrite foldl_collapse_small; [done|].
  intros [k s] Hin. simpl. apply unique_size_lt_2. intros x y Hx Hy.
  apply (go_mem _ _ _ Hgo k s x Hin) in Hx as (stx & Hstx & Hkx).
  apply (go_mem _ _ _ Hgo k s y Hin) in Hy as (sty & Hsty & Hky).
  apply (Hsingle (x, stx) (y, sty) k); try done.
  by apply (go_interm _ _ _ Hgo k s).
Qed.

Lemma big_group_members g options groups k s :
  Groups_of g options groups → (k, s) ∈ groups → (2 ≤ size s)%nat →
  ∀ n, n ∈ s → ∃ m, m ∈ s ∧ m ≠ n.
Proof.
  intros Hgo Hin Hbig n Hn.
  destruct (decide (∃ m, m ∈ s ∧ m ≠ n)) as [|Hno]; [done|].
  assert (size s < 2)%nat; [|lia].
  apply unique_size_lt_2. intros x y Hx Hy.
  destruct (decide (x = n)) as [->|Hxn]; [|destruct Hno; eauto].
  destruct (decide (y = n)) as [->|Hyn]; [done|destruct Hno; eauto].
Qed.

(** X21. On a well-formed graph a node stays in the graph, with its
    attributes, exactly when it has no twin: no other node has the same
    merge key with parents and children. In particular nodes without
    predecessors and nodes without successors are never merged. *)
Theorem merge_graph_intermediates_kept g options g' n st k :
  well_formed g →
  merge_graph_intermediates g options = Ok g' →
  (n, st) ∈ nodes g →
  node_key g options (n, st) = Ok k →
  (n, st) ∈ nodes g'
  ↔ ¬ (is_intermediate k
       ∧ ∃ m stm, m ≠ n ∧ (m, stm) ∈ nodes g
                  ∧ node_key g options (m, stm) = Ok k).
Proof using MergedNodeKey_inj Attr_eq.
  intros Hwf Hrun Hn Hk.
  destruct (merge_graph_intermediates_collapsed g options g' Hwf Hrun)
    as (groups & repl & Hgo & Hcol).
  pose proof (col_nodes _ _ _ Hcol) as Hnodes. simpl in Hnodes.
  rewrite Hnodes, elem_of_app, list_elem_of_filter. simpl.
  assert (n ∈ node_keys g) as Hnk
    by (apply list_elem_of_fmap; by exists (n, st)).
  assert ((n, st) ∉ merged_item <$> filter (λ e, 2 ≤ size e.2)%nat groups)
    as Hplain.
  { intros (e & [= -> _] & _)%list_elem_of_fmap.
    by apply (wf_plain g Hwf e.2). }
  split.
  - intros [[Hkept _]|?]; [|done]. intros (Hint & m & stm & Hne & Hm & Hkm).
    destruct (go_all _ _ _ Hgo (n, st) k Hn Hk Hint) as [s Hs].
    apply Hkept, elem_of_replaced_set. exists (k, s). split.
    + apply list_elem_of_filter. split; [|done]. simpl.
      assert (n ∈ s) as Hns by (apply (go_mem _ _ _ Hgo k s n Hs); eauto).
      assert (m ∈ s) as Hms by (apply (go_mem _ _ _ Hgo k s m Hs); eauto).
      destruct (decide (2 ≤ size s)%nat) as [|Hsmall]; [done|].
      destruct Hne. apply (size_lt_2_unique s); [lia|done..].
    + simpl. apply (go_mem _ _ _ Hgo k s n Hs). eauto.
  - intros Hno. left. split; [|done].
    intros ([k' s] & [Hbig Hin]%list_elem_of_filter & Hns)%elem_of_replaced_set.
    simpl in *. apply Hno.
    pose proof (proj1 (go_mem _ _ _ Hgo k' s n Hin) Hns) as (st' & Hst' & Hk').
    assert (st' = st) as ->
      by (eapply (NoDup_fst_unique (nodes g)); [apply Hwf|done..]).
    assert (k' = k) as -> by congruence.
    split; [by apply (go_interm _ _ _ Hgo k s)|].
    destruct (big_group_members g options groups k s Hgo Hin Hbig n Hns)
      as (m & Hms & Hne).
    apply (go_mem _ _ _ Hgo k s m Hin) in Hms as (stm & Hstm & Hkm).
    eauto 10.
Qed.

(** X22. Every node of the result that is not a node of the given graph
    is the [MergedNodeKey] of a whole group: of all the nodes, two or
    more, that have one and the same merge key with parents and children;
    its attributes are those of the key. *)
Theorem merge_graph_intermediates_new_nodes g options g' x stx :
  well_formed g →
  merge_graph_intermediates g options = Ok g' →
  (x, stx) ∈ nodes g' →
  x ∉ node_keys g →
  ∃ k s, x = MergedNodeKey s
         ∧ stx = merged_state (mk_dimensions k) (mk_storage_class_name k)
                   (mk_task_class_name k)
         ∧ (2 ≤ size s)%nat
         ∧ is_intermediate k
         ∧ ∀ n, n ∈ s ↔ ∃ st, (n, st) ∈ nodes g
                              ∧ node_key g options (n, st) = Ok k.
Proof using MergedNodeKey_inj Attr_eq.
  intros Hwf Hrun Hx Hnew.
  destruct (merge_graph_intermediates_collapsed g options g' Hwf Hrun)
    as (groups & repl & Hgo & Hcol).
  pose proof (col_nodes _ _ _ Hcol) as Hnodes. simpl in Hnodes.
  rewrite Hnodes in Hx.
  apply elem_of_app in Hx as [[_ Hx]%list_elem_of_filter|Hx].
  { destruct Hnew. apply list_elem_of_fmap. by exists (x, stx). }
  apply list_elem_of_fmap in Hx
    as ([k s] & [= -> ->] & [Hbig Hin]%list_elem_of_filter).
  simpl in *. exists k, s. repeat split; try done.
  - by apply (go_interm _ _ _ Hgo k s).
  - by apply (go_interm _ _ _ Hgo k s).
  - by apply (go_mem _ _ _ Hgo k s).
  - by apply (go_mem _ _ _ Hgo k s).
Qed.

(** *** The result as a quotient of the given graph *)

Lemma big_groups_distinct g options groups e1 e2 :
  well_formed g → Groups_of g options groups →
  e1 ∈ filter (λ e, 2 ≤ size e.2)%nat groups →
  e2 ∈ filter (λ e, 2 ≤ size e.2)%nat groups →
  e1.2 = e2.2 → e1 = e2.
Proof using Attr_eq.
  intros Hwf Hgo [Hb1 He1]%list_elem_of_filter [Hb2 He2]%list_elem_of_filter Heq.
  destruct (groups_of_twin g options groups e1 Hgo He1) as [Hne _].
  destruct (set_choose_L e1.2 Hne) as [n Hn].
  apply (groups_of_overlap g options groups e1 e2 n (wf_nodup g Hwf) Hgo);
    try done. by rewrite <-Heq.
Qed.

Lemma merged_keys_NoDup g options groups g' repl :
  well_formed g → Groups_of g options groups →
  Collapsed g (filter (λ e, 2 ≤ size e.2)%nat groups) (g', repl) →
  NoDup (node_keys g').
Proof using MergedNodeKey_inj Attr_eq.
  intros Hwf Hgo Hcol. unfold node_keys.
  pose proof (col_nodes _ _ _ Hcol) as Hn. simpl in Hn.
  rewrite Hn, fmap_app.
  apply NoDup_app. split; [|split].
  - eapply sublist_NoDup; [apply (wf_nodup g Hwf)|].
    apply fmap_sublist, sublist_filter.
  - intros x ([x' stx] & -> & [_ Hx]%list_elem_of_filter)%list_elem_of_fmap.
    intros (? & Heq & (e & -> & _)%list_elem_of_fmap)%list_elem_of_fmap.
    simpl in Heq. subst x'. apply (wf_plain g Hwf e.2).
    apply list_elem_of_fmap. by exists (MergedNodeKey e.2, stx).
  - rewrite <-list_fmap_compose. apply NoDup_fmap_2_strong.
    + intros e1 e2 He1 He2 Heq. simpl in Heq.
      apply MergedNodeKey_inj in Heq.
      by apply (big_groups_distinct g options groups).
    + apply NoDup_filter. eapply NoDup_fmap_1, (go_nodup _ _ _ Hgo).
Qed.

(** X23. On a well-formed graph the result is the given graph with every
    group of twins drawn together into one node: there is a map [rep] of
    the nodes of the given graph onto the nodes of the result that leaves
    the kept nodes where they are, and the edges of the result are exactly
    the images of the edges of the given graph. Node keys stay distinct
    and no edge becomes a self-loop. *)
Theorem merge_graph_intermediates_quotient g options g' :
  well_formed g →
  merge_graph_intermediates g options = Ok g' →
  ∃ rep : N → N,
    (∀ x, x ∈ node_keys g' ↔ ∃ n, n ∈ node_keys g ∧ x = rep n)
    ∧ (∀ n, n ∈ node_keys g → n ∈ node_keys g' → rep n = n)
    ∧ (∀ u' v', (u', v') ∈ edges g'
                ↔ ∃ u v, (u, v) ∈ edges g ∧ u' = rep u ∧ v' = rep v)
    ∧ NoDup (node_keys g')
    ∧ (∀ n, (n, n) ∉ edges g').
Proof using MergedNodeKey_inj Attr_eq.
  intros Hwf Hrun.
  destruct (merge_graph_intermediates_collapsed g options g' Hwf Hrun)
    as (groups & repl & Hgo & Hcol).
  exists (replaced repl). split; [|split; [|split; [|split]]].
  - intros x. split.
    + intros [[Hx Hkept]|(e & He & ->)]%(Collapsed_node_keys g _ (g', repl) x Hcol).
      * exists x. split; [done|].
        destruct (rep_cases g g' groups repl Hcol x)
          as [[-> _]|(e & He & Hxe & _)]; [done|].
        destruct Hkept. apply elem_of_replaced_set. eauto.
      * pose proof He as [Hbig Hin]%list_elem_of_filter.
        destruct (groups_of_twin g options groups e Hgo Hin) as [Hne Htw].
        destruct (set_choose_L e.2 Hne) as [n Hn].
        exists n. split; [by apply Htw|].
        symmetry. by apply (rep_member g g' options groups repl Hwf Hgo Hcol).
    + intros (n & Hn & ->).
      apply (Collapsed_replaced_node g _ (g', repl) n Hcol Hn).
  - intros n Hn Hn'.
    destruct (rep_cases g g' groups repl Hcol n)
      as [[-> _]|(e & He & Hne & _)]; [done|].
    apply (Collapsed_node_keys g _ (g', repl) n Hcol) in Hn'
      as [[_ Hkept]|(e' & _ & ->)].
    + destruct Hkept. apply elem_of_replaced_set. eauto.
    + by destruct (wf_plain g Hwf e'.2).
  - apply (edges_second g g' groups repl Hcol).
  - by apply (merged_keys_NoDup g options groups g' repl).
  - intros x (u & v & Huv & Hu & Hv)%(edges_second g g' groups repl Hcol).
    destruct (wf_edges g Hwf u v Huv) as [Hun Hvn].
    destruct (rep_inj g g' options groups repl Hwf Hgo Hcol u v Hun Hvn)
      as [->|(e & He & [_ Htw] & Hue & Hve)]; [congruence|..].
    + by apply (wf_loops g Hwf v).
    + destruct (Htw u Hue) as (_ & _ & Hsu).
      destruct (Htw v Hve) as (_ & _ & Hsv).
      apply (wf_loops g Hwf v), elem_of_succ_edges.
      rewrite Hsv, <-Hsu. by apply elem_of_succ_edges.
Qed.

(** *** Counting nodes *)

Lemma filter_in_set_length (l : list (N * NodeState)) (A : gset N) :
  NoDup l.*1 → (∀ a, a ∈ A → a ∈ l.*1) →
  length (filter (λ kv, kv.1 ∈ A) l) = size A.
Proof.
  intros Hnd Hsub. unfold size, set_size. simpl.
  rewrite <-(length_fmap fst (filter _ l)). apply Permutation_length.
  apply NoDup_Permutation.
  - eapply sublist_NoDup; [exact Hnd|]. apply fmap_sublist, sublist_filter.
  - apply NoDup_elements.
  - intros a. rewrite elem_of_elements, list_elem_of_fmap. split.
    + by intros ([a' st] & -> & [Ha _]%list_elem_of_filter).
    + intros Ha. destruct (proj1 (list_elem_of_fmap _ _ _) (Hsub a Ha))
        as ([a' st] & -> & Hin).
      exists (a', st). split; [done|]. by apply list_elem_of_filter.
Qed.

Lemma filter_split_length {A} (P : A → Prop) `{∀ a, Decision (P a)} (l : list A) :
  length l = (length (filter P l) + length (filter (λ a, ¬ P a) l))%nat.
Proof.
  rewrite <-length_app. apply Permutation_length. symmetry.
  apply filter_app_complement.
Qed.

Lemma replaced_set_size (big : list (MergeKey * gset N)) :
  NoDup big →
  (∀ e, e ∈ big → (2 ≤ size e.2)%nat) →
  (∀ e1 e2 n, e1 ∈ big → e2 ∈ big → n ∈ e1.2 → n ∈ e2.2 → e1 = e2) →
  (2 * length big ≤ size (replaced_set big))%nat.
Proof.
  unfold replaced_set.
  induction big as [|e big IH]; intros Hnd Hbig Hov; [simpl; lia|].
  apply NoDup_cons in Hnd as [He Hnd].
  change (length (e :: big)) with (S (length big)).
  rewrite fmap_cons, union_list_cons, size_union.
  - specialize (Hbig e ltac:(left)) as Hbe.
    assert (2 * length big ≤ size (⋃ big.*2))%nat.
    { apply IH; [done|..].
      - intros e' He'. apply Hbig. by right.
      - intros e1 e2 n H1 H2. apply Hov; by right. }
    lia.
  - intros n Hn (s & (e' & -> & He')%list_elem_of_fmap & Hn')%elem_of_union_list.
    destruct He. rewrite (Hov e e' n); [done|by left|by right|done..].
Qed.

(** X24. On a well-formed graph the intermediate merge never adds to the
    number of nodes: each merged node stands for two nodes at least. The
    number stays the same only when the graph does. *)
Theorem merge_graph_intermediates_node_count g options g' :
  well_formed g →
  merge_graph_intermediates g options = Ok g' →
  (length (nodes g') ≤ length (nodes g))%nat
  ∧ (length (nodes g') = length (nodes g) → g' = g).
Proof using MergedNodeKey_inj Attr_eq.
  intros Hwf Hrun.
  destruct (merge_graph_intermediates_collapsed g options g' Hwf Hrun)
    as (groups & repl & Hgo & Hcol).
  set (big := filter (λ e, 2 ≤ size e.2)%nat groups) in *.
  pose proof (col_nodes _ _ _ Hcol) as Hnodes. simpl in Hnodes.
  assert (2 * length big ≤ size (replaced_set big))%nat as Hsize.
  { apply replaced_set_size.
    - apply NoDup_filter. eapply NoDup_fmap_1, (go_nodup _ _ _ Hgo).
    - by intros e [? _]%list_elem_of_filter.
    - intros e1 e2 n [_ H1]%list_elem_of_filter [_ H2]%list_elem_of_filter.
      by apply (groups_of_overlap g options groups e1 e2 n (wf_nodup g Hwf)). }
  assert (length (filter (λ kv, kv.1 ∈ replaced_set big) (nodes g))
          = size (replaced_set big)) as Hrep.
  { apply filter_in_set_length; [apply Hwf|].
    intros a (e & [_ He]%list_elem_of_filter & Ha)%elem_of_replaced_set.
    destruct (groups_of_twin g options groups e Hgo He) as [_ Htw].
    by apply Htw. }
  assert (length (nodes g)
          = length (filter (λ kv, kv.1 ∉ replaced_set big) (nodes g))
            + size (replaced_set big))%nat as Hlen.
  { rewrite (filter_split_length (λ kv, kv.1 ∉ replaced_set big) (nodes g)).
    f_equal. rewrite <-Hrep. f_equal. apply list_filter_iff.
    intros kv. split; [apply dec_stable|by intros ??]. }
  assert (length (nodes g')
          = length (filter (λ kv, kv.1 ∉ replaced_set big) (nodes g))
            + length big)%nat as Hlen'
    by by rewrite Hnodes, length_app, length_fmap.
  split; [lia|]. intros Heq.
  assert (big = []) as Hnil by (destruct big; [done|simpl in *; lia]).
  rewrite Hnil in Hcol.
  destruct Hcol as [Hrepl Hn He]. simpl in *.
  assert (repl = ∅) as ->.
  { apply map_empty. intros n. destruct (repl !! n) as [m|] eqn:E; [|done].
    apply Hrepl in E as (e & ?%elem_of_nil & _). done. }
  destruct g as [ns es], g' as [ns' es']. simpl in *. f_equal.
  - rewrite Hn, app_nil_r. apply list_filter_all.
    intros kv _. unfold replaced_set. simpl. apply not_elem_of_empty.
  - rewrite He. apply set_eq. intros [u v]. rewrite elem_of_map. split.
    + intros ([u0 v0] & Heq' & Hin). unfold replaced_edge, replaced in Heq'.
      simpl in Heq'. rewrite !lookup_empty in Heq'. simpl in Heq'.
      by injection Heq' as -> ->.
    + intros Hin. exists (u, v). split; [|done].
      unfold replaced_edge, replaced. simpl. by rewrite !lookup_empty.
Qed.

(** ** The tree merges *)

Lemma level_step_no_collect g options acc cand acc' :
  level_step g options false acc cand = Ok acc' →
  next_candidates acc' = next_candidates acc.
Proof.
  unfold level_step. destruct (assoc_get (nodes g) cand.1); [|done]. simpl.
  destruct (tree_key_from_node_state _ _ _ _); [|done]. simpl.
  by intros [= <-].
Qed.

Lemma level_loop_no_collect g options cands : ∀ acc acc',
  for_each (level_step g options false) cands acc = Ok acc' →
  next_candidates acc' = next_candidates acc.
Proof.
  induction cands as [|c cands IH]; intros acc acc'; simpl.
  - by intros [= <-].
  - destruct (level_step g options false acc c) as [acc1|] eqn:E; [|done].
    simpl. intros ->%IH. by eapply level_step_no_collect.
Qed.

Lemma level_step_raises g options collect acc cand e :
  level_step g options collect acc cand = Raise e → e ≠ OutOfFuel.
Proof.
  unfold level_step. destruct (assoc_get (nodes g) cand.1); simpl.
  2:{ by intros [= <-]. }
  unfold tree_key_from_node_state, key_attrs.
  destruct (detail_truthy (dimensions options)); simpl.
  - destruct (_ !! "dimensions"); simpl; [|by intros [= <-]].
    destruct collect; [destruct (elements _) as [|? [|??]]|]; done.
  - destruct collect; [destruct (elements _) as [|? [|??]]|]; done.
Qed.

Lemma level_loop_raises g options collect cands : ∀ acc e,
  for_each (level_step g options collect) cands acc = Raise e → e ≠ OutOfFuel.
Proof.
  induction cands as [|c cands IH]; intros acc e; simpl; [done|].
  destruct (level_step g options collect acc c) as [acc1|e1] eqn:E; simpl.
  - apply IH.
  - intros [= <-]. by eapply level_step_raises.
Qed.

(** The rounds of the [while] loop: with [r] results so far, the loop
    ends within [depth - r + 2] rounds, adding one result per round. *)
Lemma tree_levels_bound g options depth fuel : ∀ result_ cands,
  cands = []
  ∨ (1 ≤ fuel)%nat
    ∧ (depth + 2 ≤ Z.of_nat (length result_) + Z.of_nat fuel)%Z →
  match tree_levels fuel g options depth result_ cands with
  | Ok groups =>
      (∃ more, groups = result_ ++ more)
      ∧ (Z.of_nat (length groups)
         ≤ Z.max (Z.of_nat (length result_)) (depth + 1) + 1)%Z
  | Raise e => e ≠ OutOfFuel
  end.
Proof.
  induction fuel as [|fuel IH]; intros result_ cands Hfuel.
  - destruct Hfuel as [->|[? _]]; [|lia]. simpl.
    split; [exists []; by rewrite app_nil_r|lia].
  - destruct cands as [|c cands].
    { simpl. split; [exists []; by rewrite app_nil_r|lia]. }
    destruct Hfuel as [[=]|[_ Hfuel]].
    cbn [tree_levels].
    destruct (for_each _ (c :: cands) _) as [acc|e] eqn:E; cbn [rbind].
    2:{ by eapply level_loop_raises. }
    destruct (bool_decide (Z.of_nat (length result_) ≤ depth)%Z) eqn:Hc.
    + apply bool_decide_eq_true in Hc.
      match goal with
      | |- match tree_levels fuel g options depth ?r ?cs with _ => _ end =>
          specialize (IH r cs)
      end.
      rewrite length_app in IH. simpl in IH.
      destruct (tree_levels fuel g options depth _ _) as [groups|e'].
      * destruct IH as [[more ->] Hlen]; [right; lia|].
        split; [exists ([result_for_depth acc] ++ more); by rewrite app_assoc|].
        lia.
      * apply IH. right. lia.
    + apply bool_decide_eq_false in Hc.
      apply level_loop_no_collect in E. simpl in E. rewrite E. simpl.
      destruct fuel; simpl;
        (split; [by eexists|rewrite length_app; simpl; lia]).
Qed.

(** X25. The [while current_candidates] loop of [_make_tree_merge_groups]
    ends: once [len(result)] exceeds [depth] no further candidates are
    collected. The list of group dicts returned starts with the empty dict
    and has at most [depth + 2] entries (two for a negative [depth]). *)
Theorem make_tree_merge_groups_levels xgraph options depth :
  _make_tree_merge_groups xgraph options depth ≠ Raise OutOfFuel
  ∧ ∀ groups,
      _make_tree_merge_groups xgraph options depth = Ok groups →
      head groups = Some []
      ∧ (length groups ≤ Z.to_nat depth + 2)%nat.
Proof.
  unfold _make_tree_merge_groups.
  destruct (decide (depth = 0)) as [->|Hd].
  { split; [done|]. intros groups [= <-]. simpl. split; [done|lia]. }
  destruct (first_generation xgraph) as [generation|e] eqn:Eg; simpl.
  2:{ split; [|done]. intros [= ->]. revert Eg. unfold first_generation.
      destruct (filter _ _); [|done]. by destruct (nodes xgraph). }
  pose proof (tree_levels_bound xgraph options depth (Z.to_nat depth + 2) [[]]
                ((λ n, (n, [])) <$> generation)) as Hb.
  destruct (tree_levels _ _ _ _ _ _) as [groups|e].
  - destruct Hb as [[more ->] Hlen]; [right; simpl; lia|].
    split; [done|]. intros ? [= <-]. split; [done|]. simpl in *. lia.
  - split; [|done]. intros [= ->]. apply Hb; [|done]. right. simpl. lia.
Qed.

(** X26. The tree merges need a node to start from: with a [depth] other
    than 0, a graph in which every node has a predecessor makes
    [merge_graph_input_trees] raise, [StopIteration] when the graph is
    empty and [NetworkXUnfeasible] otherwise. *)
Theorem merge_graph_input_trees_without_roots xgraph options depth :
  depth ≠ 0 →
  (∀ n, n ∈ node_keys xgraph → predecessors xgraph n ≠ ∅) →
  merge_graph_input_trees xgraph options depth
  = Raise match nodes xgraph with
          | [] => StopIteration
          | _ => NetworkXUnfeasible
          end.
Proof.
  intros Hd Hpred. unfold merge_graph_input_trees, _make_tree_merge_groups.
  rewrite decide_False by done. unfold first_generation.
  assert (filter (λ n, predecessors xgraph n = ∅) (node_keys xgraph) = [])
    as ->.
  { destruct (filter _ _) as [|n rest] eqn:E; [done|].
    assert (n ∈ filter (λ n, predecessors xgraph n = ∅) (node_keys xgraph))
      as [Hn Hin]%list_elem_of_filter by (rewrite E; by left).
    by destruct (Hpred n Hin). }
  by destruct (nodes xgraph).
Qed.

(** *** Output trees are input trees of the reversed graph *)

Definition swap_edge (e : N * N) : N * N := (e.2, e.1).

Lemma reverse_view_edges g u v :
  (u, v) ∈ edges (reverse_view g) ↔ (v, u) ∈ edges g.
Proof.
  unfold reverse_view. simpl. rewrite elem_of_map. split.
  - by intros ([a b] & [= -> ->] & ?).
  - intros Hin. by exists (v, u).
Qed.

Lemma reverse_view_involutive g : reverse_view (reverse_view g) = g.
Proof.
  destruct g as [ns es]. unfold reverse_view. simpl. f_equal.
  apply set_eq. intros [u v]. rewrite elem_of_map. split.
  - by intros ([a b] & [= -> ->] & ([c d] & [= -> ->] & Hin)%elem_of_map).
  - intros Hin. exists (v, u). split; [done|]. apply elem_of_map.
    by exists (u, v).
Qed.

Lemma in_edges_reverse g n :
  in_edges (reverse_view g) n = set_map swap_edge (out_edges g n).
Proof.
  apply set_eq. intros [u v]. unfold in_edges, out_edges.
  rewrite elem_of_filter, elem_of_map, reverse_view_edges. simpl. split.
  - intros [Heq Hin]. simpl in Heq. exists (v, u). split; [done|].
    by apply elem_of_filter.
  - by intros ([a b] & [= -> ->] & [? ?]%elem_of_filter).
Qed.

Lemma out_edges_reverse g n :
  out_edges (reverse_view g) n = set_map swap_edge (in_edges g n).
Proof.
  apply set_eq. intros [u v]. unfold in_edges, out_edges.
  rewrite elem_of_filter, elem_of_map, reverse_view_edges. simpl. split.
  - intros [Heq Hin]. simpl in Heq. exists (v, u). split; [done|].
    by apply elem_of_filter.
  - by intros ([a b] & [= -> ->] & [? ?]%elem_of_filter).
Qed.

Lemma swapped_replaced (r : gmap N N) (es : gset (N * N)) :
  set_map (D:=gset (N * N)) (replaced_edge r) (set_map (D:=gset (N * N)) swap_edge es)
  = set_map swap_edge (set_map (D:=gset (N * N)) (replaced_edge r) es).
Proof.
  apply set_eq. intros [u v]. rewrite !elem_of_map. split.
  - intros (? & [= -> ->] & ([a b] & -> & Hin)%elem_of_map). simpl.
    exists (replaced_edge r (a, b)). split; [done|]. apply elem_of_map. eauto.
  - intros (? & [= -> ->] & ([a b] & -> & Hin)%elem_of_map). simpl.
    exists (b, a). split; [done|]. apply elem_of_map. by exists (a, b).
Qed.

Lemma member_step_reverse g new acc m :
  member_step (reverse_view g) new (acc.1, set_map swap_edge acc.2) m
  = ((member_step g new acc m).1, set_map swap_edge (member_step g new acc m).2).
Proof.
  unfold member_step. simpl. f_equal.
  rewrite in_edges_reverse, out_edges_reverse, !swapped_replaced.
  rewrite !set_map_union_L.
  rewrite <-!(assoc_L (∪)). f_equal. apply (comm_L (∪)).
Qed.

Lemma member_fold_reverse g new ms : ∀ acc,
  foldl (member_step (reverse_view g) new) (acc.1, set_map swap_edge acc.2) ms
  = ((foldl (member_step g new) acc ms).1,
     set_map swap_edge (foldl (member_step g new) acc ms).2).
Proof.
  induction ms as [|m ms IH]; intros acc; simpl; [done|].
  rewrite member_step_reverse. apply (IH (member_step g new acc m)).
Qed.

(** Edges join nodes of the graph, and replacements are nodes of it. *)
Definition closed (st : XGraph * gmap N N) : Prop :=
  (∀ u v, (u, v) ∈ edges st.1 → u ∈ node_keys st.1 ∧ v ∈ node_keys st.1)
  ∧ (∀ n m, st.2 !! n = Some m → m ∈ node_keys st.1).

Lemma elem_of_add_node_to (l : list (N * NodeState)) n attrs x :
  x ∈ (add_node_to l n attrs).*1 ↔ x ∈ l.*1 ∨ x = n.
Proof.
  induction l as [|[m st] l IH]; simpl.
  - rewrite list_elem_of_singleton, elem_of_nil. naive_solver.
  - destruct (decide (m = n)) as [->|Hne]; simpl.
    + rewrite !elem_of_cons. naive_solver.
    + rewrite !elem_of_cons, IH. naive_solver.
Qed.

Lemma member_fold_closed (P : N → Prop) g new ms : ∀ acc,
  P new →
  (∀ u v, (u, v) ∈ edges g → P u ∧ P v) →
  (∀ n m, acc.1 !! n = Some m → P m) →
  (∀ u v, (u, v) ∈ acc.2 → P u ∧ P v) →
  (∀ n m, (foldl (member_step g new) acc ms).1 !! n = Some m → P m)
  ∧ (∀ u v, (u, v) ∈ (foldl (member_step g new) acc ms).2 → P u ∧ P v).
Proof.
  induction ms as [|m0 ms IH]; intros acc Hnew Hg Hr He; simpl; [done|].
  apply IH; try done.
  - unfold member_step. simpl. intros n m.
    rewrite lookup_insert. destruct (decide _); [by intros [= <-]|apply Hr].
  - unfold member_step. simpl. intros u v.
    assert (∀ x, P x → P (replaced (<[m0:=new]> acc.1) x)) as Hrep.
    { intros x Hx. unfold replaced.
      destruct (<[m0:=new]> acc.1 !! x) as [y|] eqn:E; simpl; [|done].
      revert E. rewrite lookup_insert.
      destruct (decide _); [by intros [= <-]|apply Hr]. }
    rewrite !elem_of_union, !elem_of_map.
    intros [[Hin|([a b] & [= -> ->] & [_ Hin]%elem_of_filter)]
           |([a b] & [= -> ->] & [_ Hin]%elem_of_filter)].
    + by apply He.
    + destruct (Hg a b Hin). simpl. split; by apply Hrep.
    + destruct (Hg a b Hin). simpl. split; by apply Hrep.
Qed.

Lemma add_edges_from_present (g : XGraph) (es : gset (N * N)) :
  (∀ u v, (u, v) ∈ es → u ∈ node_keys g ∧ v ∈ node_keys g) →
  add_edges_from g es = {| nodes := nodes g; edges := es ∪ edges g |}.
Proof.
  intros Hin. unfold add_edges_from.
  rewrite (add_edges_present fst snd).
  - f_equal. f_equal. apply set_eq. intros [u v].
    rewrite elem_of_list_to_set, list_elem_of_fmap. split.
    + intros ([a b] & [= -> ->] & ?%elem_of_elements). done.
    + intros Huv. exists (u, v). split; [done|]. by apply elem_of_elements.
  - intros [u v] Huv%elem_of_elements. by apply Hin.
Qed.

Lemma apply_group_reverse st entry :
  closed st →
  apply_group (reverse_view st.1, st.2) entry
  = (reverse_view (apply_group st entry).1, (apply_group st entry).2)
  ∧ closed (apply_group st entry).
Proof.
  intros [Hedges Hrepl]. unfold apply_group.
  destruct (decide (size entry.2 < 2)%nat) as [|Hbig]; [done|]. simpl.
  set (new := MergedNodeKey entry.2).
  set (g1 := add_node st.1 new (tk_state entry.1)).
  pose proof (member_fold_reverse st.1 new (elements entry.2) (st.2, ∅)) as Hfold.
  simpl in Hfold. rewrite set_map_empty in Hfold. rewrite Hfold. simpl.
  assert (∀ x, x ∈ node_keys g1 ↔ x ∈ node_keys st.1 ∨ x = new) as Hkeys.
  { intros x. apply elem_of_add_node_to. }
  destruct (member_fold_closed (λ x, x ∈ node_keys g1) st.1 new
              (elements entry.2) (st.2, ∅)) as [Hr He].
  { apply Hkeys. by right. }
  { intros u v Huv. destruct (Hedges u v Huv). split; apply Hkeys; by left. }
  { simpl. intros n m Hnm. apply Hkeys. left. by eapply Hrepl. }
  { simpl. intros u v ?%elem_of_empty. done. }
  set (r := foldl (member_step st.1 new) (st.2, ∅) (elements entry.2)) in *.
  rewrite (add_edges_from_present g1 r.2) by done.
  split.
  - f_equal.
    assert (add_node (reverse_view st.1) new (tk_state entry.1) = reverse_view g1)
      as -> by done.
    rewrite add_edges_from_present.
    + unfold reverse_view. simpl. f_equal. by rewrite set_map_union_L.
    + intros u v ([a b] & [= -> ->] & Hin)%elem_of_map.
      destruct (He a b Hin). done.
  - split; simpl.
    + intros u v [Huv|Huv]%elem_of_union; [by apply He|].
      destruct (Hedges u v Huv). split; apply Hkeys; by left.
    + done.
Qed.

Lemma apply_groups_reverse entries : ∀ st,
  closed st →
  foldl apply_group (reverse_view st.1, st.2) entries
  = (reverse_view (foldl apply_group st entries).1,
     (foldl apply_group st entries).2)
  ∧ closed (foldl apply_group st entries).
Proof.
  induction entries as [|entry entries IH]; intros st Hc; simpl; [done|].
  destruct (apply_group_reverse st entry Hc) as [-> Hc']. by apply IH.
Qed.

Lemma apply_levels_reverse levels : ∀ st,
  closed st →
  foldl apply_level (reverse_view st.1, st.2) levels
  = (reverse_view (foldl apply_level st levels).1,
     (foldl apply_level st levels).2)
  ∧ closed (foldl apply_level st levels).
Proof.
  induction levels as [|level levels IH]; intros st Hc; simpl; [done|].
  unfold apply_level at 2 4 6. simpl.
  destruct (apply_groups_reverse (foldl (regroup st.2) [] level) st Hc)
    as [Heq Hc'].
  unfold apply_level at 1. simpl. rewrite Heq. by apply IH.
Qed.

Lemma remove_nodes_from_reverse g ns :
  remove_nodes_from (reverse_view g) ns = reverse_view (remove_nodes_from g ns).
Proof.
  unfold remove_nodes_from, reverse_view. simpl. f_equal.
  apply set_eq. intros [u v].
  rewrite elem_of_filter, !elem_of_map. simpl. split.
  - intros ((Hu & Hv) & [a b] & [= -> ->] & Hin).
    exists (a, b). split; [done|]. by apply elem_of_filter.
  - intros ([a b] & [= -> ->] & [[Ha Hb] Hin]%elem_of_filter). simpl in *.
    split; [done|]. by exists (a, b).
Qed.

Lemma apply_tree_merges_reverse g groups :
  (∀ u v, (u, v) ∈ edges g → u ∈ node_keys g ∧ v ∈ node_keys g) →
  _apply_tree_merges (reverse_view g) groups
  = reverse_view (_apply_tree_merges g groups).
Proof.
  intros Hedges. unfold _apply_tree_merges.
  destruct (apply_levels_reverse (reverse groups) (g, ∅)) as [Heq _].
  { split; [done|]. simpl. intros n m. by rewrite lookup_empty. }
  simpl in Heq. rewrite Heq. simpl. apply remove_nodes_from_reverse.
Qed.

(** X27. On a graph whose edges join nodes of the graph, merging output
    trees is merging input trees with all edges reversed:
    [merge_graph_output_trees] returns the reverse of what
    [merge_graph_input_trees] returns on the reversed graph, and raises
    what it raises. *)
Theorem merge_graph_output_trees_reverse xgraph options depth :
  (∀ u v, (u, v) ∈ edges xgraph →
          u ∈ node_keys xgraph ∧ v ∈ node_keys xgraph) →
  merge_graph_output_trees xgraph options depth
  = match merge_graph_input_trees (reverse_view xgraph) options depth with
    | Ok g' => Ok (reverse_view g')
    | Raise e => Raise e
    end.
Proof.
  intros Hedges. unfold merge_graph_output_trees, merge_graph_input_trees.
  destruct (_make_tree_merge_groups (reverse_view xgraph) options depth)
    as [groups|e]; simpl; [|done].
  rewrite apply_tree_merges_reverse by done.
  by rewrite reverse_view_involutive.
Qed.

End merge.

(** ** Concrete nodes: node keys and merged node keys *)

#[local] Unset Elimination Schemes.
Inductive Node :=
| Key (key : NodeKey)
| Merged (members : list Node).
#[local] Set Elimination Schemes.

Fixpoint tree_of_node (n : Node) : gen_tree NodeKey :=
  match n with
  | Key k => GenLeaf k
  | Merged ms => GenNode 0 (tree_of_node <$> ms)
  end.

Fixpoint node_of_tree (t : gen_tree NodeKey) : Node :=
  match t with
  | GenLeaf k => Key k
  | GenNode _ ts => Merged (node_of_tree <$> ts)
  end.

Lemma Node_forall_ind (P : Node → Prop) :
  (∀ k, P (Key k)) → (∀ ms, Forall P ms → P (Merged ms)) → ∀ n, P n.
Proof.
  intros Hk Hm. fix IH 1. intros [k|ms]; [apply Hk|]. apply Hm.
  induction ms as [|m ms IHms]; constructor; [apply IH|exact IHms].
Qed.

Lemma node_of_tree_of_node n : node_of_tree (tree_of_node n) = n.
Proof.
  induction n as [k|ms IH] using Node_forall_ind; [done|]. simpl. f_equal.
  induction IH as [|m ms Hm _ IHms]; [done|]. cbn. by f_equal.
Qed.

#[global] Instance Node_eq_dec : EqDecision Node.
Proof.
  refine (λ a b, cast_if (decide (tree_of_node a = tree_of_node b))).
  - abstract (by rewrite <-(node_of_tree_of_node a), <-(node_of_tree_of_node b), e).
  - abstract (by intros ->).
Defined.

#[global] Instance Node_countable : Countable Node :=
  inj_countable' tree_of_node node_of_tree node_of_tree_of_node.

(** [MergedNodeKey(frozenset(members))] *)
Definition merged_node_key (members : gset Node) : Node :=
  Merged (elements members).

#[global] Instance merged_node_key_inj : Inj (=) (=) merged_node_key.
Proof.
  intros s1 s2 [= Heq]. apply set_eq. intros n.
  by rewrite <-!elem_of_elements, Heq.
Qed.

Definition task (name : string) : Node := Key (TASK, name).

(** A task node of an exported task graph. *)
Definition task_node (name class : string) : Node * gmap string (option string) :=
  (task name, {[ "task_class_name" := Some class; "dimensions" := Some "visit" ]}).

Definition graph_of (ns : list (Node * gmap string (option string)))
    (es : list (string * string)) : @XGraph Node _ _ string :=
  {| nodes := ns; edges := list_to_set ((λ e, (task e.1, task e.2)) <$> es) |}.

Definition compare_all : NodeAttributeOptions :=
  {| dimensions := Concise; task_classes := Concise; storage_classes := Some true |}.

(** Running the three passes in a given order. *)
Inductive Pass := Intermediates | InputTrees | OutputTrees.

Definition run_pass (options : NodeAttributeOptions) (depth : Z)
    (g : @XGraph Node _ _ string) (p : Pass)
  : result (@Exc Node) (@XGraph Node _ _ string) :=
  match p with
  | Intermediates => merge_graph_intermediates merged_node_key g options
  | InputTrees => merge_graph_input_trees merged_node_key g options depth
  | OutputTrees => merge_graph_output_trees merged_node_key g options depth
  end.

Definition run_passes (passes : list Pass) (options : NodeAttributeOptions)
    (depth : Z) (g : @XGraph Node _ _ string) :=
  for_each (run_pass options depth) passes g.

(** Two make tasks, each feeding two fit tasks, all collected by one task:
    make1 -> {fit1a, fit1b} -> collect <- {fit2a, fit2b} <- make2; and,
    apart from it, split -> clean1 -> join1 -> report,
    split -> clean2 -> join2 -> report, load1 -> join1, load2 -> join2. *)
Definition fan_graph : @XGraph Node _ _ string :=
  graph_of
    [task_node "make1" "Make"; task_node "make2" "Make";
     task_node "fit1a" "Fit"; task_node "fit1b" "Fit";
     task_node "fit2a" "Fit"; task_node "fit2b" "Fit";
     task_node "collect" "Collect";
     task_node "split" "Split";
     task_node "clean1" "Clean"; task_node "clean2" "Clean";
     task_node "load1" "Load"; task_node "load2" "Load";
     task_node "join1" "Join"; task_node "join2" "Join";
     task_node "report" "Report"]
    [("make1", "fit1a"); ("make1", "fit1b"); ("make2", "fit2a"); ("make2", "fit2b");
     ("fit1a", "collect"); ("fit1b", "collect"); ("fit2a", "collect"); ("fit2b", "collect");
     ("split", "clean1"); ("split", "clean2");
     ("clean1", "join1"); ("clean2", "join2");
     ("load1", "join1"); ("load2", "join2");
     ("join1", "report"); ("join2", "report")].

(** A checker for well-formedness of a graph of concrete nodes. *)
Definition is_key (n : Node) : bool :=
  match n with Key _ => true | Merged _ => false end.

Definition well_formed_b (g : @XGraph Node _ _ string) : bool :=
  bool_decide (NoDup (node_keys g))
  && forallb (λ e, bool_decide (e.1 ∈ node_keys g)
                   && bool_decide (e.2 ∈ node_keys g)
                   && bool_decide (e.1 ≠ e.2)) (elements (edges g))
  && forallb is_key (node_keys g).

Lemma well_formed_b_correct g :
  well_formed_b g = true → well_formed merged_node_key g.
Proof.
  unfold well_formed_b.
  intros [[Hnd%bool_decide_eq_true He]%andb_true_iff Hk]%andb_true_iff.
  rewrite forallb_forall in He. rewrite forallb_forall in Hk.
  assert (∀ e, e ∈ edges g →
               e.1 ∈ node_keys g ∧ e.2 ∈ node_keys g ∧ e.1 ≠ e.2) as He'.
  { intros e Hin%elem_of_elements%list_elem_of_In. specialize (He e Hin).
    apply andb_true_iff in He as [[H1 H2]%andb_true_iff H3].
    by apply bool_decide_eq_true in H1, H2, H3. }
  split; [done|..].
  - intros u v Huv. destruct (He' (u, v) Huv) as (? & ? & _). done.
  - intros n Hn. by destruct (He' (n, n) Hn) as (_ & _ & ?).
  - intros s Hin%list_elem_of_In. by specialize (Hk _ Hin).
Qed.

(** ** Three fit tasks between one maker and one collector

    make -> {fit1, fit2, fit3} -> collect, the three fit tasks of the same
    class and dimensions. *)
Definition three_fits : @XGraph Node _ _ string :=
  graph_of
    [task_node "make" "Make"; task_node "fit1" "Fit"; task_node "fit2" "Fit";
     task_node "fit3" "Fit"; task_node "collect" "Collect"]
    [("make", "fit1"); ("make", "fit2"); ("make", "fit3");
     ("fit1", "collect"); ("fit2", "collect"); ("fit3", "collect")].

(** The merge key shared by the three fit tasks. *)
Definition fit_key : @MergeKey Node _ _ string :=
  {| mk_parents := {[task "make"]};
     mk_dimensions := Some "visit";
     mk_storage_class_name := None;
     mk_task_class_name := Some "Fit";
     mk_children := {[task "collect"]} |}.
(** Every node of [three_fits] has a merge key: the three fit tasks have
    [fit_key], and the keys of make and collect lack parents or children. *)
Lemma three_fits_keys item :
  item ∈ nodes three_fits →
  item.1 ∈ ({[task "fit1"; task "fit2"; task "fit3"]} : gset Node)
  ∧ node_key three_fits compare_all item = Ok fit_key
  ∨ ∃ k, node_key three_fits compare_all item = Ok k ∧ ¬ is_intermediate k.
Proof.
  intros Hitem. unfold three_fits, graph_of, nodes in Hitem.
  repeat (apply elem_of_cons in Hitem as [->|Hitem]).
  - right. eexists. split; [reflexivity|].
    intros [Hp _]. apply Hp. reflexivity.
  - left. split; [simpl; set_solver|]. reflexivity.
  - left. split; [simpl; set_solver|]. reflexivity.
  - left. split; [simpl; set_solver|]. reflexivity.
  - right. eexists. split; [reflexivity|].
    intros [_ Hc]. apply Hc. reflexivity.
  - by apply elem_of_nil in Hitem.
Qed.

Lemma merge_three_intermediates_witness :
  ∃ g',
    merge_graph_intermediates merged_node_key three_fits compare_all = Ok g'
    ∧ nodes g'
      = filter (λ kv, kv.1 ∉ ({[task "fit1"; task "fit2"; task "fit3"]} : gset Node))
          (nodes three_fits)
        ++ [(merged_node_key {[task "fit1"; task "fit2"; task "fit3"]},
             merged_state (mk_dimensions fit_key) (mk_storage_class_name fit_key)
               (mk_task_class_name fit_key))]
    ∧ predecessors g' (merged_node_key {[task "fit1"; task "fit2"; task "fit3"]})
      = mk_parents fit_key
    ∧ successors g' (merged_node_key {[task "fit1"; task "fit2"; task "fit3"]})
      = {[task "collect"]}
    ∧ ∀ u v, u ≠ merged_node_key {[task "fit1"; task "fit2"; task "fit3"]} →
             v ≠ merged_node_key {[task "fit1"; task "fit2"; task "fit3"]} →
             ((u, v) ∈ edges g'
              ↔ (u, v) ∈ edges three_fits
                ∧ (u ∉ ({[task "fit1"; task "fit2"; task "fit3"]} : gset Node))
                ∧ (v ∉ ({[task "fit1"; task "fit2"; task "fit3"]} : gset Node))).
Proof.
  apply (merge_three_intermediates merged_node_key merged_node_key_inj
           three_fits compare_all (task "fit1") (task "fit2") (task "fit3")
           (task_node "fit1" "Fit").2 (task_node "fit2" "Fit").2
           (task_node "fit3" "Fit").2 fit_key (task "collect")).
  - apply well_formed_b_correct. reflexivity.
  - intros item [[_ Hk]|(k & Hk & _)]%three_fits_keys; eauto.
  - apply list_elem_of_further, list_elem_of_here.
  - do 2 apply list_elem_of_further. apply list_elem_of_here.
  - do 3 apply list_elem_of_further. apply list_elem_of_here.
  - done.
  - done.
  - done.
  - reflexivity.
  - reflexivity.
  - reflexivity.
  - simpl. apply non_empty_singleton_L.
  - done.
  - intros item [[Hin _]|(k & Hk & Hni)]%three_fits_keys Hk'; [done|].
    rewrite Hk in Hk'. injection Hk' as ->. destruct Hni. split; simpl.
    + apply non_empty_singleton_L.
    + apply non_empty_singleton_L.
  - intros i j k' [[_ Hk]|(k & Hk & Hni)]%three_fits_keys _ Hne Hint Hki _.
    + rewrite Hk in Hki. by injection Hki as <-.
    + rewrite Hk in Hki. by injection Hki as <-.
Defined.

(** The node that replaces the three fit tasks, and the merged graph. *)
Definition fits : Node := merged_node_key {[task "fit1"; task "fit2"; task "fit3"]}.

Definition three_fits_merged : @XGraph Node _ _ string :=
  {| nodes := [task_node "make" "Make"; task_node "collect" "Collect";
               (fits, merged_state (Some "visit") None (Some "Fit"))];
     edges := {[(task "make", fits); (fits, task "collect")]} |}.

Lemma merge_graph_intermediates_fixed_point_witness :
  merge_graph_intermediates merged_node_key three_fits_merged compare_all
  = Ok three_fits_merged.
Proof.
  apply (merge_graph_intermediates_fixed_point merged_node_key
           merged_node_key_inj three_fits compare_all three_fits_merged).
  - apply well_formed_b_correct. reflexivity.
  - reflexivity.
Defined.

(** ** Further concrete runs *)

(** make -> fit -> collect: no node has a twin. *)
Definition chain : @XGraph Node _ _ string :=
  graph_of
    [task_node "make" "Make"; task_node "fit" "Fit"; task_node "collect" "Collect"]
    [("make", "fit"); ("fit", "collect")].

Lemma chain_keys item :
  item ∈ nodes chain →
  ∃ k, node_key chain compare_all item = Ok k
       ∧ (item.1 = task "fit" ∨ ¬ is_intermediate k).
Proof.
  intros Hitem. unfold chain, graph_of, nodes in Hitem.
  repeat (apply elem_of_cons in Hitem as [->|Hitem]).
  - eexists. split; [reflexivity|]. right. intros [Hp _]. apply Hp. reflexivity.
  - eexists. split; [reflexivity|]. by left.
  - eexists. split; [reflexivity|]. right. intros [_ Hc]. apply Hc. reflexivity.
  - by apply elem_of_nil in Hitem.
Qed.

Lemma merge_graph_intermediates_without_twins_witness :
  merge_graph_intermediates merged_node_key chain compare_all = Ok chain.
Proof.
  apply (merge_graph_intermediates_without_twins merged_node_key chain
           compare_all).
  - intros item (k & Hk & _)%chain_keys. eauto.
  - intros i j k (ki & Hki & Hi)%chain_keys (kj & Hkj & Hj)%chain_keys Hint Hi' Hj'.
    rewrite Hki in Hi'. injection Hi' as ->.
    rewrite Hkj in Hj'. injection Hj' as ->.
    destruct Hi as [Hi|Hi]; [|done]. destruct Hj as [Hj|Hj]; [|done].
    by rewrite Hi, Hj.
Defined.

Lemma three_fits_well_formed : well_formed merged_node_key three_fits.
Proof. apply well_formed_b_correct. reflexivity. Qed.

Lemma three_fits_merge :
  merge_graph_intermediates merged_node_key three_fits compare_all
  = Ok three_fits_merged.
Proof. reflexivity. Qed.

(** The merge key of [make] in [three_fits]: no parents. *)
Definition make_key : @MergeKey Node _ _ string :=
  {| mk_parents := ∅;
     mk_dimensions := Some "visit";
     mk_storage_class_name := None;
     mk_task_class_name := Some "Make";
     mk_children := {[task "fit1"; task "fit2"; task "fit3"]} |}.

Lemma merge_graph_intermediates_kept_witness :
  task_node "make" "Make" ∈ nodes three_fits_merged
  ↔ ¬ (is_intermediate make_key
       ∧ ∃ m stm, m ≠ task "make" ∧ (m, stm) ∈ nodes three_fits
                  ∧ node_key three_fits compare_all (m, stm) = Ok make_key).
Proof.
  apply (merge_graph_intermediates_kept merged_node_key merged_node_key_inj
           three_fits compare_all three_fits_merged (task "make")
           (task_node "make" "Make").2 make_key).
  - exact three_fits_well_formed.
  - exact three_fits_merge.
  - apply list_elem_of_here.
  - reflexivity.
Defined.

Lemma merge_graph_intermediates_new_nodes_witness :
  ∃ k s, fits = merged_node_key s
         ∧ merged_state (Some "visit") None (Some "Fit")
           = merged_state (mk_dimensions k) (mk_storage_class_name k)
               (mk_task_class_name k)
         ∧ (2 ≤ size s)%nat
         ∧ is_intermediate k
         ∧ ∀ n, n ∈ s ↔ ∃ st, (n, st) ∈ nodes three_fits
                              ∧ node_key three_fits compare_all (n, st) = Ok k.
Proof.
  apply (merge_graph_intermediates_new_nodes merged_node_key merged_node_key_inj
           three_fits compare_all three_fits_merged fits
           (merged_state (Some "visit") None (Some "Fit"))).
  - exact three_fits_well_formed.
  - exact three_fits_merge.
  - do 2 apply list_elem_of_further. apply list_elem_of_here.
  - apply (wf_plain merged_node_key three_fits three_fits_well_formed).
Defined.

Lemma merge_graph_intermediates_quotient_witness :
  ∃ rep : Node → Node,
    (∀ x, x ∈ node_keys three_fits_merged
          ↔ ∃ n, n ∈ node_keys three_fits ∧ x = rep n)
    ∧ (∀ n, n ∈ node_keys three_fits → n ∈ node_keys three_fits_merged →
            rep n = n)
    ∧ (∀ u' v', (u', v') ∈ edges three_fits_merged
                ↔ ∃ u v, (u, v) ∈ edges three_fits ∧ u' = rep u ∧ v' = rep v)
    ∧ NoDup (node_keys three_fits_merged)
    ∧ (∀ n, (n, n) ∉ edges three_fits_merged).
Proof.
  apply (merge_graph_intermediates_quotient merged_node_key merged_node_key_inj
           three_fits compare_all three_fits_merged).
  - exact three_fits_well_formed.
  - exact three_fits_merge.
Defined.

Lemma merge_graph_intermediates_node_count_witness :
  (length (nodes three_fits_merged) ≤ length (nodes three_fits))%nat
  ∧ (length (nodes three_fits_merged) = length (nodes three_fits) →
     three_fits_merged = three_fits).
Proof.
  apply (merge_graph_intermediates_node_count merged_node_key
           merged_node_key_inj three_fits compare_all three_fits_merged).
  - exact three_fits_well_formed.
  - exact three_fits_merge.
Defined.

Definition empty_graph : @XGraph Node _ _ string :=
  {| nodes := []; edges := ∅ |}.

Lemma merge_graph_input_trees_without_roots_witness :
  merge_graph_input_trees merged_node_key empty_graph compare_all 1
  = Raise StopIteration.
Proof.
  apply (merge_graph_input_trees_without_roots merged_node_key empty_graph
           compare_all 1).
  - done.
  - intros n Hn. by apply elem_of_nil in Hn.
Defined.

(** A cycle has no node to start from either. *)
Example merge_graph_input_trees_cycle :
  merge_graph_input_trees merged_node_key
    (graph_of [task_node "a" "A"; task_node "b" "B"] [("a", "b"); ("b", "a")])
    compare_all 1
  = Raise NetworkXUnfeasible.
Proof. reflexivity. Qed.

Lemma merge_graph_output_trees_reverse_witness :
  merge_graph_output_trees merged_node_key three_fits compare_all 1
  = match merge_graph_input_trees merged_node_key (reverse_view three_fits)
            compare_all 1 with
    | Ok g' => Ok (reverse_view g')
    | Raise e => Raise e
    end.
Proof.
  apply (merge_graph_output_trees_reverse merged_node_key three_fits
           compare_all 1).
  apply (wf_edges merged_node_key three_fits three_fits_well_formed).
Defined.

(** ** The passes are not idempotent together *)

Definition node_count (r : result (@Exc Node) (@XGraph Node _ _ string)) : option nat :=
  match r with Ok g => Some (length (nodes g)) | Raise _ => None end.

Definition twice (passes : list Pass) (g : @XGraph Node _ _ string) :=
  (node_count (run_passes passes compare_all 4 g),
   node_count (let? g1 := run_passes passes compare_all 4 g in
               run_passes passes compare_all 4 g1)).

Lemma twice_counts passes g n1 n2 :
  twice passes g = (Some n1, Some n2) →
  ∃ g1 g2, run_passes passes compare_all 4 g = Ok g1
           ∧ run_passes passes compare_all 4 g1 = Ok g2
           ∧ length (nodes g1) = n1 ∧ length (nodes g2) = n2.
Proof.
  unfold twice. destruct (run_passes passes compare_all 4 g) as [g1|]; [|done].
  simpl. destruct (run_passes passes compare_all 4 g1) as [g2|] eqn:E2; [|done].
  simpl. intros [= <- <-]. by exists g1, g2.
Qed.

(** C5, as stated, fails: whatever the order in which the three passes are
    applied (with all attributes compared and depth 4), a second
    application to the output of the first collapses further nodes of
    [fan_graph]. With the tree merges first, the two fit groups are found by
    the intermediate merge only after the input-tree merge has looked at
    them, and are merged with each other by the next input-tree merge
    (10 nodes, then 8); with the intermediate merge first, the two clean
    tasks become twins only once the input-tree merge has joined their
    children (9 nodes, then 8). *)
Lemma merge_passes_not_idempotent :
  Forall (λ passes,
            ∃ g1 g2, run_passes passes compare_all 4 fan_graph = Ok g1
                     ∧ run_passes passes compare_all 4 g1 = Ok g2
                     ∧ (length (nodes g2) < length (nodes g1))%nat)
    [[InputTrees; OutputTrees; Intermediates];
     [InputTrees; Intermediates; OutputTrees];
     [OutputTrees; InputTrees; Intermediates];
     [OutputTrees; Intermediates; InputTrees];
     [Intermediates; InputTrees; OutputTrees];
     [Intermediates; OutputTrees; InputTrees]].
Proof.
  repeat apply Forall_cons_2; [..|apply Forall_nil_2].
  - destruct (twice_counts [InputTrees; OutputTrees; Intermediates] fan_graph 10 8)
      as (g1 & g2 & ? & ? & Hn1 & Hn2); [by vm_compute|]. exists g1, g2.
    repeat split; [done..|lia].
  - destruct (twice_counts [InputTrees; Intermediates; OutputTrees] fan_graph 10 8)
      as (g1 & g2 & ? & ? & Hn1 & Hn2); [by vm_compute|]. exists g1, g2.
    repeat split; [done..|lia].
  - destruct (twice_counts [OutputTrees; InputTrees; Intermediates] fan_graph 10 8)
      as (g1 & g2 & ? & ? & Hn1 & Hn2); [by vm_compute|]. exists g1, g2.
    repeat split; [done..|lia].
  - destruct (twice_counts [OutputTrees; Intermediates; InputTrees] fan_graph 9 8)
      as (g1 & g2 & ? & ? & Hn1 & Hn2); [by vm_compute|]. exists g1, g2.
    repeat split; [done..|lia].
  - destruct (twice_counts [Intermediates; InputTrees; OutputTrees] fan_graph 9 8)
      as (g1 & g2 & ? & ? & Hn1 & Hn2); [by vm_compute|]. exists g1, g2.
    repeat split; [done..|lia].
  - destruct (twice_counts [Intermediates; OutputTrees; InputTrees] fan_graph 9 8)
      as (g1 & g2 & ? & ? & Hn1 & Hn2); [by vm_compute|]. exists g1, g2.
    repeat split; [done..|lia].
Qed.

End Merge.


(** * Display options ([visualization/_options.py]) *)

Module Options.

Import Merge.

Inductive Exc := ValueError (message : string).

(** [NodeAttributeOptions.__bool__] *)
Definition to_bool (self : NodeAttributeOptions) : bool :=
  detail_truthy (dimensions self)
  || default false (storage_classes self)
  || detail_truthy (task_classes self).

(** [x if x is not None else ("concise" if is_resolved else False)] *)
Definition detail_or_default (d : Detail) (is_resolved : bool) : Detail :=
  match d with
  | DetailNone => if is_resolved then Concise else DetailFalse
  | _ => d
  end.

(** [NodeAttributeOptions.checked]; [is_resolved] is
    [hasattr(pipeline_graph, "universe")]. *)
Definition checked (self : NodeAttributeOptions) (is_resolved : bool)
  : result Exc NodeAttributeOptions :=
  if detail_truthy (dimensions self) && negb is_resolved then
    Raise (ValueError "Cannot show dimensions unless they have been resolved.")
  else if default false (storage_classes self) && negb is_resolved then
    Raise (ValueError "Cannot show storage classes unless they have been resolved.")
  else
    Ok {| dimensions := detail_or_default (dimensions self) is_resolved;
          task_classes := detail_or_default (task_classes self) is_resolved;
          storage_classes :=
            Some (default is_resolved (storage_classes self)) |}.

(** X28. Checked options are complete and stable: no field is [None] any
    more, a field that was set keeps its value, and checking the result
    again against a graph of the same kind returns it unchanged. *)
Theorem checked_idempotent self is_resolved o :
  checked self is_resolved = Ok o →
  checked o is_resolved = Ok o
  ∧ dimensions o ≠ DetailNone
  ∧ task_classes o ≠ DetailNone
  ∧ storage_classes o ≠ None
  ∧ (dimensions self ≠ DetailNone → dimensions o = dimensions self)
  ∧ (task_classes self ≠ DetailNone → task_classes o = task_classes self)
  ∧ (storage_classes self ≠ None → storage_classes o = storage_classes self).
Proof.
  unfold checked.
  destruct self as [d t s], is_resolved, d, t, s as [[]|]; simpl;
    (discriminate || (intros [= <-]; simpl; by repeat split)).
Qed.

Section merge_after_check.

Context {N : Type} {N_eq : EqDecision N} {N_countable : Countable N}.
Context {Attr : Type} {Attr_eq : EqDecision Attr}.
Variable MergedNodeKey : gset N → N.

(** X29. Options that went through [checked] for an unresolved graph ask
    for neither dimensions nor storage classes, and with them the
    intermediate merge returns for every graph: it cannot fail on a node
    without a ["dimensions"] attribute. *)
Theorem checked_unresolved_merge self o (xgraph : @XGraph N _ _ Attr) :
  checked self false = Ok o →
  detail_truthy (dimensions o) = false
  ∧ storage_classes o = Some false
  ∧ ∃ g', merge_graph_intermediates MergedNodeKey xgraph o = Ok g'.
Proof.
  intros Hc.
  assert (detail_truthy (dimensions o) = false ∧ storage_classes o = Some false)
    as [Hd Hs].
  { revert Hc. unfold checked.
    destruct self as [d t s], d, t, s as [[]|]; simpl;
      (discriminate || (intros [= <-]; by simpl)). }
  split; [done|]. split; [done|].
  pose proof (group_loop_cases xgraph o (nodes xgraph) []) as Hloop.
  unfold merge_graph_intermediates.
  destruct (for_each (group_step xgraph o) (nodes xgraph) [])
    as [groups|e]; simpl; [by eexists|].
  destruct Hloop as (_ & Ht & _). congruence.
Qed.

End merge_after_check.

Definition show_nothing : NodeAttributeOptions :=
  {| dimensions := DetailNone; task_classes := DetailNone;
     storage_classes := None |}.

Lemma checked_idempotent_witness :
  checked compare_all true = Ok compare_all
  ∧ dimensions compare_all ≠ DetailNone
  ∧ task_classes compare_all ≠ DetailNone
  ∧ storage_classes compare_all ≠ None
  ∧ (dimensions show_nothing ≠ DetailNone →
     dimensions compare_all = dimensions show_nothing)
  ∧ (task_classes show_nothing ≠ DetailNone →
     task_classes compare_all = task_classes show_nothing)
  ∧ (storage_classes show_nothing ≠ None →
     storage_classes compare_all = storage_classes show_nothing).
Proof.
  apply (checked_idempotent show_nothing true compare_all). reflexivity.
Defined.

(** A graph one of whose nodes has no ["dimensions"] attribute: with
    dimensions compared the merge raises, with the options checked for an
    unresolved graph it returns. *)
Definition unresolved_graph : @XGraph Node _ _ string :=
  {| nodes := [(task "a", {[ "task_class_name" := Some "A" ]})]; edges := ∅ |}.

Definition task_classes_only : NodeAttributeOptions :=
  {| dimensions := DetailFalse; task_classes := Full;
     storage_classes := Some false |}.

Example unresolved_graph_key_error :
  merge_graph_intermediates merged_node_key unresolved_graph compare_all
  = Raise (KeyError "dimensions").
Proof. reflexivity. Qed.

Lemma checked_unresolved_merge_witness :
  detail_truthy (dimensions task_classes_only) = false
  ∧ storage_classes task_classes_only = Some false
  ∧ ∃ g', merge_graph_intermediates merged_node_key unresolved_graph
            task_classes_only = Ok g'.
Proof.
  apply (checked_unresolved_merge merged_node_key
           {| dimensions := DetailNone; task_classes := Full;
              storage_classes := None |}
           task_classes_only unresolved_graph).
  reflexivity.
Defined.

End Options.

(** * Merged node keys ([MergedNodeKey] of [visualization/_merge.py]) *)

Module MergedKey.

(** ** The order of strings

    Strings are compared character by character, as Python compares
    [str]s. *)

Lemma ascii_compare_lt_trans a b c :
  Ascii.compare a b = Lt → Ascii.compare b c = Lt → Ascii.compare a c = Lt.
Proof.
  unfold Ascii.compare. rewrite !N.compare_lt_iff. lia.
Qed.

Lemma string_compare_lt_trans a : ∀ b c,
  String.compare a b = Lt → String.compare b c = Lt → String.compare a c = Lt.
Proof.
  induction a as [|x a IH]; intros [|y b] [|z c]; simpl; try done.
  destruct (Ascii.compare x y) eqn:Exy; [|clear IH|done].
  - apply Ascii.compare_eq_iff in Exy as ->.
    destruct (Ascii.compare y z); [apply IH|done..].
  - intros _. destruct (Ascii.compare y z) eqn:Eyz; [| |done].
    + apply Ascii.compare_eq_iff in Eyz as <-. by rewrite Exy.
    + by rewrite (ascii_compare_lt_trans x y z).
Qed.

(** [ge a b]: [a >= b]. *)
Definition ge (a b : string) : Prop := String.leb b a = true.

#[local] Instance ge_trans : Transitive ge.
Proof.
  intros a b c. unfold ge, String.leb.
  destruct (String.compare b a) eqn:Eba; [| |done].
  - apply String.compare_eq_iff in Eba as ->. done.
  - intros _. destruct (String.compare c b) eqn:Ecb; [| |done].
    + apply String.compare_eq_iff in Ecb as ->. by rewrite Eba.
    + by rewrite (string_compare_lt_trans c b a).
Qed.

#[local] Instance ge_antisym : AntiSymm (=) ge.
Proof. intros a b Hab Hba. by apply String.leb_antisym. Qed.

Lemma ltb_ge t s : String.ltb t s = true → ge s t.
Proof.
  unfold String.ltb, ge, String.leb. by destruct (String.compare t s).
Qed.

Lemma not_ltb_ge t s : String.ltb t s = false → ge t s.
Proof.
  unfold String.ltb, ge, String.leb. rewrite (String.compare_antisym s t).
  by destruct (String.compare t s).
Qed.

(** ** [__str__] and [node_type] *)

(** [members.sort(reverse=True)]: a stable sort, largest first. *)
Fixpoint insert_desc (s : string) (sorted : list string) : list string :=
  match sorted with
  | [] => [s]
  | t :: rest =>
      if String.ltb t s then s :: t :: rest else t :: insert_desc s rest
  end.

Definition sort_desc (l : list string) : list string :=
  foldl (λ sorted s, insert_desc s sorted) [] l.

Inductive Exc := StopIteration.

Section str.

(** [str(k)] of a [NodeKey], from [_nodes.py]. *)
Variable key_str : NodeKey → string.

(** [MergedNodeKey.__str__] when the frozenset is iterated in the order
    [members]. *)
Definition to_str (members : list NodeKey) : string :=
  String.concat ", " (sort_desc (key_str <$> members)).

(** [MergedNodeKey.node_type]: the type of the member iterated first. *)
Definition node_type (members : list NodeKey) : result Exc NodeType :=
  match members with
  | [] => Raise StopIteration
  | k :: _ => Ok k.1
  end.

Lemma insert_desc_perm s sorted : insert_desc s sorted ≡ₚ s :: sorted.
Proof.
  induction sorted as [|t rest IH]; simpl; [done|].
  destruct (String.ltb t s); [done|]. rewrite IH. apply perm_swap.
Qed.

Lemma sort_desc_perm l : sort_desc l ≡ₚ l.
Proof.
  unfold sort_desc.
  enough (∀ acc, foldl (λ sorted s, insert_desc s sorted) acc l ≡ₚ acc ++ l)
    as Hgen by apply Hgen.
  induction l as [|s l IH]; intros acc; simpl; [by rewrite app_nil_r|].
  rewrite IH, insert_desc_perm. by rewrite <-Permutation_middle.
Qed.

Lemma insert_desc_sorted s sorted :
  Sorted ge sorted → Sorted ge (insert_desc s sorted).
Proof.
  induction sorted as [|t rest IH]; simpl; intros Hs.
  - repeat constructor.
  - destruct (String.ltb t s) eqn:E.
    + constructor; [done|]. constructor. by apply ltb_ge.
    + apply Sorted_inv in Hs as [Hrest Hhd]. constructor; [by apply IH|].
      destruct rest as [|u rest]; simpl.
      * constructor. by apply not_ltb_ge.
      * destruct (String.ltb u s); constructor;
          [by apply not_ltb_ge|by apply HdRel_inv in Hhd].
Qed.

Lemma sort_desc_sorted l : Sorted ge (sort_desc l).
Proof.
  unfold sort_desc.
  enough (∀ acc, Sorted ge acc →
                 Sorted ge (foldl (λ sorted s, insert_desc s sorted) acc l))
    as Hgen by (apply Hgen; constructor).
  induction l as [|s l IH]; intros acc Hacc; simpl; [done|].
  by apply IH, insert_desc_sorted.
Qed.

(** X30. The text of a merged node key does not depend on the order in
    which the set of its members is iterated: the names are sorted before
    they are joined, largest first, and any two arrangements of the same
    members give the same text. *)
Theorem to_str_order_independent members1 members2 :
  members1 ≡ₚ members2 →
  to_str members1 = to_str members2
  ∧ Sorted ge (sort_desc (key_str <$> members1))
  ∧ sort_desc (key_str <$> members1) ≡ₚ key_str <$> members1.
Proof.
  intros Hperm. split; [|split; [apply sort_desc_sorted|apply sort_desc_perm]].
  unfold to_str. f_equal.
  apply (Sorted_unique ge); [apply sort_desc_sorted..|].
  by rewrite !sort_desc_perm, Hperm.
Qed.

End str.

(** Three tasks merged into one node; their names are the labels. *)
Example to_str_three :
  to_str snd [(TASK, "fit2"); (TASK, "fit3"); (TASK, "fit1")]
  = "fit3, fit2, fit1".
Proof. reflexivity. Qed.

Lemma to_str_order_independent_witness :
  to_str snd [(TASK, "fit2"); (TASK, "fit3"); (TASK, "fit1")]
  = to_str snd [(TASK, "fit1"); (TASK, "fit2"); (TASK, "fit3")]
  ∧ Sorted ge (sort_desc (snd <$> [(TASK, "fit2"); (TASK, "fit3"); (TASK, "fit1")]))
  ∧ sort_desc (snd <$> [(TASK, "fit2"); (TASK, "fit3"); (TASK, "fit1")])
    ≡ₚ snd <$> [(TASK, "fit2"); (TASK, "fit3"); (TASK, "fit1")].
Proof.
  apply (to_str_order_independent snd
           [(TASK, "fit2"); (TASK, "fit3"); (TASK, "fit1")]
           [(TASK, "fit1"); (TASK, "fit2"); (TASK, "fit3")]).
  etrans; [apply perm_skip, perm_swap|apply perm_swap].
Defined.

End MergedKey.
